(** * StoryWeaver: the story editor, its graph layout and its exports

    A shallow embedding of the editor's state handlers ([src/App.tsx]), of
    the export helpers ([utils/exportUtils]) and of the layout effect of
    [src/components/GraphVisualizer.tsx], with the properties of the
    specification stated over them.

    Conventions.
    - JavaScript numbers are idealised as exact rationals ([Q]); the
      coordinates of a node can in addition be [NaN]. The millisecond
      clock and BFS levels, which only ever hold integers, are [Z] and
      [nat].
    - An object literal used as a dictionary ([Record<string, number>]) is
      the [gmap string _] of its own properties, read and written with
      [PlainObject.get] and [PlainObject.set], which account for what every
      such object inherits from [Object.prototype]. [Map]s are
      [gmap string _], [Set<string>] is [gset string].
    - A text is the UTF-8 encoding of the JavaScript string.
    - What the browser or a library decides (the clock, [Math.random], the
      measured bounding box, whether the intermediate image decodes, the
      order in which timers and animation frames fire, the wording of a
      syntax error) is an explicit input of the function or an event of the
      trace. *)

From Stdlib Require Import QArith Qround Qminmax Lqa.
From stdpp Require Import base gmap sets list strings pretty.

(** The characters a Rocq string literal cannot hold directly. *)
Definition nl : string := String (Ascii.ascii_of_nat 10) EmptyString.
Definition dquote : string := String (Ascii.ascii_of_nat 34) EmptyString.

(* ================================================================== *)
(** * types.ts *)

Module StoryNode.
(** [interface StoryNode]. The optional layout fields [x], [y], [fx],
    [fy] are never written by the editor and are overwritten by the
    visualiser for every node, so they are not carried here. *)
Record t := mk { id : string; title : string; content : string }.
End StoryNode.

Module StoryLink.
(** [interface StoryLink]: [source] and [target] are node ids. *)
Record t := mk { id : string; source : string; target : string; label : string }.
End StoryLink.

(** [interface StoryData] *)
Record StoryData := mkStoryData {
  data_nodes : list StoryNode.t;
  data_links : list StoryLink.t
}.

(* ================================================================== *)
(** * Values produced by [JSON.parse] *)

#[warnings="-register-all"]
Inductive JsValue :=
| JNull
| JBool (b : bool)
| JNumber (q : Q)
| JString (s : string)
| JArray (items : list JsValue)
| JObject (fields : list (string * JsValue)).

(** Property read [v.key]. [JSON.parse] keeps the last of several equal
    keys; every other kind of value has no such own property. *)
Fixpoint last_field (key : string) (fields : list (string * JsValue)) : option JsValue :=
  match fields with
  | [] => None
  | (k, v) :: rest =>
      match last_field key rest with
      | Some v' => Some v'
      | None => if String.eqb k key then Some v else None
      end
  end.

Definition js_get (v : JsValue) (key : string) : option JsValue :=
  match v with
  | JObject fields => last_field key fields
  | _ => None
  end.

(** [Array.isArray(x)], where [None] is [undefined]. *)
Definition Array_isArray (x : option JsValue) : option (list JsValue) :=
  match x with
  | Some (JArray items) => Some items
  | _ => None
  end.

(** JavaScript truthiness of a parsed value (the [data && ...] test). *)
Definition truthy (v : JsValue) : bool :=
  match v with
  | JNull => false
  | JBool b => b
  | JNumber q => negb (Qeq_bool q 0)
  | JString s => negb (String.eqb s "")
  | JArray _ | JObject _ => true
  end.

(* ================================================================== *)
(** * Object literals used as dictionaries *)

Module PlainObject.

(** The property names an object created with [{}] inherits from
    [Object.prototype]: its methods, and the accessors of the
    specification's annex on legacy features. *)
Definition inherited : list string :=
  [ "constructor"; "hasOwnProperty"; "isPrototypeOf"; "propertyIsEnumerable";
    "toLocaleString"; "toString"; "valueOf";
    "__defineGetter__"; "__defineSetter__"; "__lookupGetter__"; "__lookupSetter__";
    "__proto__" ].

(** What [o[key]] evaluates to: the value of an own property, the member
    of [Object.prototype] of that name (a function, or for ["__proto__"]
    the prototype object itself), or [undefined]. *)
Inductive Read (V : Type) :=
| Own (v : V)
| Inherited (name : string)
| Undefined.
Arguments Own {V}.
Arguments Inherited {V}.
Arguments Undefined {V}.

(** [o[key]], on the own properties [o]. *)
Definition get {V} (o : gmap string V) (key : string) : Read V :=
  match o !! key with
  | Some v => Own v
  | None => if bool_decide (key ∈ inherited) then Inherited key else Undefined
  end.

(** [o[key] = v] for a number or a string [v]. The inherited methods are
    writable data properties, so the assignment shadows them with an own
    property; ["__proto__"] is an accessor whose setter ignores a value
    that is neither an object nor [null], so nothing is stored. *)
Definition set {V} (key : string) (v : V) (o : gmap string V) : gmap string V :=
  if String.eqb key "__proto__" then o else <[key := v]> o.

End PlainObject.

(* ================================================================== *)
(** * Coordinates *)

Inductive Axis := AxisX | AxisY.

(** A coordinate of a node: a number, [NaN], or the coordinate d3-force
    gives the [index]-th node of a simulation when its position is not a
    number: the point at radius [10 * sqrt (0.5 + index)] and angle
    [index * pi * (3 - sqrt 5)] of its phyllotaxis spiral, which is kept
    symbolic here. *)
Inductive Coordinate :=
| Real (q : Q)
| NaN
| Phyllotaxis (axis : Axis) (index : nat).

Coercion Real : Q >-> Coordinate.

Definition isNaN (c : Coordinate) : bool :=
  match c with
  | NaN => true
  | Real _ | Phyllotaxis _ _ => false
  end.

(* ================================================================== *)
(** * JSON.parse *)

Module JSON.

Definition code (c : Ascii.ascii) : N := Ascii.N_of_ascii c.

(** The four characters JSON allows between tokens. *)
Definition whitespace (c : Ascii.ascii) : bool :=
  (code c =? 9)%N || (code c =? 10)%N || (code c =? 13)%N || (code c =? 32)%N.

Fixpoint skip (s : string) : string :=
  match s with
  | String c rest => if whitespace c then skip rest else s
  | EmptyString => s
  end.

(** The text after [prefix], when [s] starts with it. *)
Fixpoint after (prefix s : string) : option string :=
  match prefix, s with
  | EmptyString, _ => Some s
  | String a prefix', String b s' => if Ascii.eqb a b then after prefix' s' else None
  | String _ _, EmptyString => None
  end.

Definition digit (c : Ascii.ascii) : option Z :=
  if (48 <=? code c)%N && (code c <=? 57)%N then Some (Z.of_N (code c - 48)) else None.

Definition hexDigit (c : Ascii.ascii) : option N :=
  if (48 <=? code c)%N && (code c <=? 57)%N then Some (code c - 48)%N
  else if (65 <=? code c)%N && (code c <=? 70)%N then Some (code c - 55)%N
  else if (97 <=? code c)%N && (code c <=? 102)%N then Some (code c - 87)%N
  else None.

(** A run of decimal digits read onto [acc]: the number, how many digits
    were read, and the rest of the text. *)
Fixpoint digits (acc : Z) (count : nat) (s : string) : Z * nat * string :=
  match s with
  | String c rest =>
      match digit c with
      | Some d => digits (acc * 10 + d) (S count) rest
      | None => (acc, count, s)
      end
  | EmptyString => (acc, count, s)
  end.

(** [mantissa * 10 ^ exponent] *)
Definition scale10 (mantissa exponent : Z) : Q :=
  if (0 <=? exponent)%Z then inject_Z (mantissa * 10 ^ exponent)
  else Qmake mantissa (Z.to_pos (10 ^ (- exponent))).

(** The integer part: a single [0], or a digit other than [0] followed by
    digits. *)
Definition integerPart (s : string) : option (Z * string) :=
  match s with
  | String c rest =>
      match digit c with
      | Some d =>
          if (d =? 0)%Z then Some (0%Z, rest)
          else let '(whole, _, rest') := digits d 0 rest in Some (whole, rest')
      | None => None
      end
  | EmptyString => None
  end.

(** The optional fraction, read onto the integer part: the digits so far
    and the number of decimal places. *)
Definition fractionPart (whole : Z) (s : string) : option (Z * nat * string) :=
  match s with
  | String c rest =>
      if (code c =? 46)%N then
        let '(mantissa, places, rest') := digits whole 0 rest in
        match places with
        | O => None
        | S _ => Some (mantissa, places, rest')
        end
      else Some (whole, O, s)
  | EmptyString => Some (whole, O, s)
  end.

(** The optional exponent. *)
Definition exponentPart (s : string) : option (Z * string) :=
  match s with
  | String c rest =>
      if (code c =? 101)%N || (code c =? 69)%N then
        let '(sign, rest) :=
          match rest with
          | String c' rest' =>
              if (code c' =? 43)%N then (1%Z, rest')
              else if (code c' =? 45)%N then ((-1)%Z, rest')
              else (1%Z, rest)
          | EmptyString => (1%Z, rest)
          end in
        let '(value, count, rest') := digits 0 0 rest in
        match count with
        | O => None
        | S _ => Some ((sign * value)%Z, rest')
        end
      else Some (0%Z, s)
  | EmptyString => Some (0%Z, s)
  end.

Definition number (s : string) : option (Q * string) :=
  let '(negative, s) :=
    match s with
    | String c rest => if (code c =? 45)%N then (true, rest) else (false, s)
    | EmptyString => (false, s)
    end in
  match integerPart s with
  | None => None
  | Some (whole, s) =>
      match fractionPart whole s with
      | None => None
      | Some (mantissa, places, s) =>
          match exponentPart s with
          | None => None
          | Some (exponent, s) =>
              let value := scale10 mantissa (exponent - Z.of_nat places) in
              Some (if negative then Qopp value else value, s)
          end
      end
  end.

Definition byte (n : N) : Ascii.ascii := Ascii.ascii_of_N n.

(** The UTF-8 encoding of a code point; a lone surrogate is written in
    the three-byte form. *)
Definition utf8 (cp : N) : string :=
  if (cp <? 128)%N then String (byte cp) EmptyString
  else if (cp <? 2048)%N then
    String (byte (192 + cp / 64)) (String (byte (128 + cp mod 64)) EmptyString)
  else if (cp <? 65536)%N then
    String (byte (224 + cp / 4096))
      (String (byte (128 + (cp / 64) mod 64)) (String (byte (128 + cp mod 64)) EmptyString))
  else
    String (byte (240 + cp / 262144))
      (String (byte (128 + (cp / 4096) mod 64))
         (String (byte (128 + (cp / 64) mod 64)) (String (byte (128 + cp mod 64)) EmptyString))).

Definition hex4 (s : string) : option (N * string) :=
  match s with
  | String a (String b (String c (String d rest))) =>
      match hexDigit a, hexDigit b, hexDigit c, hexDigit d with
      | Some a, Some b, Some c, Some d => Some ((((a * 16 + b) * 16 + c) * 16 + d)%N, rest)
      | _, _, _, _ => None
      end
  | _ => None
  end.

(** A low surrogate escape right after a high surrogate [high]: the code
    point of the pair. *)
Definition surrogatePair (high : N) (s : string) : option (N * string) :=
  if (55296 <=? high)%N && (high <=? 56319)%N then
    match s with
    | String b (String u rest) =>
        if (code b =? 92)%N && (code u =? 117)%N then
          match hex4 rest with
          | Some (low, rest') =>
              if (56320 <=? low)%N && (low <=? 57343)%N
              then Some ((65536 + (high - 55296) * 1024 + (low - 56320))%N, rest')
              else None
          | None => None
          end
        else None
    | _ => None
    end
  else None.

Definition prepend (text : string) (r : option (string * string)) : option (string * string) :=
  match r with
  | Some (value, rest) => Some (text +:+ value, rest)
  | None => None
  end.

Definition single (n : N) : string := String (byte n) EmptyString.

(** The characters of a string after its opening quote, up to the closing
    one: the value and the text after it. [fuel] bounds the number of
    characters; the length of the text suffices. *)
Fixpoint chars (fuel : nat) (s : string) : option (string * string) :=
  match fuel with
  | O => None
  | S fuel =>
      match s with
      | EmptyString => None
      | String c rest =>
          if (code c =? 34)%N then Some (EmptyString, rest)
          else if (code c <? 32)%N then None
          else if (code c =? 92)%N then
            match rest with
            | EmptyString => None
            | String e rest =>
                if (code e =? 34)%N then prepend (single 34) (chars fuel rest)
                else if (code e =? 92)%N then prepend (single 92) (chars fuel rest)
                else if (code e =? 47)%N then prepend (single 47) (chars fuel rest)
                else if (code e =? 98)%N then prepend (single 8) (chars fuel rest)
                else if (code e =? 102)%N then prepend (single 12) (chars fuel rest)
                else if (code e =? 110)%N then prepend (single 10) (chars fuel rest)
                else if (code e =? 114)%N then prepend (single 13) (chars fuel rest)
                else if (code e =? 116)%N then prepend (single 9) (chars fuel rest)
                else if (code e =? 117)%N then
                  match hex4 rest with
                  | Some (unit, rest) =>
                      match surrogatePair unit rest with
                      | Some (cp, rest') => prepend (utf8 cp) (chars fuel rest')
                      | None => prepend (utf8 unit) (chars fuel rest)
                      end
                  | None => None
                  end
                else None
            end
          else prepend (String c EmptyString) (chars fuel rest)
      end
  end.

Definition stringLiteral (s : string) : option (string * string) :=
  chars (S (String.length s)) s.

(** What the parser is reading: a value, the elements of an array after
    those in [items], or the members of an object after those in
    [fields]. *)
Inductive Goal :=
| AValue
| Elements (items : list JsValue)
| Members (fields : list (string * JsValue)).

(** [fuel] bounds the number of nested and successive values; twice the
    length of the text suffices. *)
Fixpoint read (fuel : nat) (goal : Goal) (s : string) : option (JsValue * string) :=
  match fuel with
  | O => None
  | S fuel =>
      match goal with
      | AValue =>
          match skip s with
          | EmptyString => None
          | String c rest =>
              if (code c =? 123)%N then
                match skip rest with
                | String c' rest' =>
                    if (code c' =? 125)%N then Some (JObject [], rest')
                    else read fuel (Members []) rest
                | EmptyString => None
                end
              else if (code c =? 91)%N then
                match skip rest with
                | String c' rest' =>
                    if (code c' =? 93)%N then Some (JArray [], rest')
                    else read fuel (Elements []) rest
                | EmptyString => None
                end
              else if (code c =? 34)%N then
                match stringLiteral rest with
                | Some (value, rest') => Some (JString value, rest')
                | None => None
                end
              else
                match after "true" (String c rest), after "false" (String c rest),
                      after "null" (String c rest) with
                | Some rest', _, _ => Some (JBool true, rest')
                | _, Some rest', _ => Some (JBool false, rest')
                | _, _, Some rest' => Some (JNull, rest')
                | None, None, None =>
                    match number (String c rest) with
                    | Some (q, rest') => Some (JNumber q, rest')
                    | None => None
                    end
                end
          end
      | Elements items =>
          match read fuel AValue s with
          | Some (item, rest) =>
              match skip rest with
              | String c rest' =>
                  if (code c =? 44)%N then read fuel (Elements (items ++ [item])) rest'
                  else if (code c =? 93)%N then Some (JArray (items ++ [item]), rest')
                  else None
              | EmptyString => None
              end
          | None => None
          end
      | Members fields =>
          match skip s with
          | String c rest =>
              if (code c =? 34)%N then
                match stringLiteral rest with
                | Some (key, rest) =>
                    match skip rest with
                    | String c' rest' =>
                        if (code c' =? 58)%N then
                          match read fuel AValue rest' with
                          | Some (value, rest) =>
                              match skip rest with
                              | String c'' rest'' =>
                                  if (code c'' =? 44)%N
                                  then read fuel (Members (fields ++ [(key, value)])) rest''
                                  else if (code c'' =? 125)%N
                                  then Some (JObject (fields ++ [(key, value)]), rest'')
                                  else None
                              | EmptyString => None
                              end
                          | None => None
                          end
                        else None
                    | EmptyString => None
                    end
                | None => None
                end
              else None
          | EmptyString => None
          end
      end
  end.

(** [JSON.parse(text)]; [None] when it throws a [SyntaxError]. *)
Definition parse (text : string) : option JsValue :=
  match read (2 * String.length text + 2) AValue text with
  | Some (value, rest) =>
      match skip rest with
      | EmptyString => Some value
      | String _ _ => None
      end
  | None => None
  end.

End JSON.

(* ================================================================== *)
(** * The rendered scene, as the export helpers see it *)

(** [SVGRect], as [getBBox()] returns it. *)
Record BBox := mkBBox { bbox_x : Q; bbox_y : Q; bbox_width : Q; bbox_height : Q }.

(** d3's zoom transform [{k, x, y}]. *)
Record Transform := mkTransform { tk : Q; tx : Q; ty : Q }.

(** Children of [<svg id="story-graph-canvas">] in document order:
    the marker definitions and the zoom container [<g>] with its
    [transform] attribute ([None]: the attribute is not set). *)
Inductive SvgChild :=
| Defs
| Group (transform : option Transform).

Definition Svg := list SvgChild.

(** [svgElement.querySelector('g')]: the first [<g>] ([<defs>] holds
    markers and paths only). *)
Definition querySelector_g (svg : Svg) : option (option Transform) :=
  head (omap (fun c => match c with Group t => Some t | Defs => None end) svg).

(* ================================================================== *)
(** * utils/exportUtils *)

Module ExportUtils.

Record Canvas := mkCanvas {
  canvas_width : Z;
  canvas_height : Z;
  (** the [viewBox] of the serialised clone drawn onto the canvas *)
  viewBox : BBox
}.

Inductive Orientation := Landscape | Portrait.

(** The arguments handed to [new jsPDF] and [pdf.addImage]. *)
Record Pdf := mkPdf {
  orientation : Orientation;
  format : Q * Q;
  image : Canvas;
  image_x : Q; image_y : Q; image_w : Q; image_h : Q
}.

Inductive Artifact :=
| TextFile (name : string) (body : string)
| PngFile (name : string) (bitmap : Canvas)
| PdfFile (name : string) (doc : Pdf).

(** An export either clicks a download link or shows an [alert]. *)
Inductive Outcome :=
| Downloaded (file : Artifact)
| Alerted (message : string).

(** ** downloadTextScript *)

Definition destination (data : StoryData) (choice : StoryLink.t) : string :=
  match List.find (fun n => String.eqb (StoryNode.id n) (StoryLink.target choice))
                  (data_nodes data) with
  | Some target =>
      (* [target?.title || choice.target]: an empty title is falsy *)
      if String.eqb (StoryNode.title target) "" then StoryLink.target choice
      else StoryNode.title target
  | None => StoryLink.target choice
  end.

Definition choiceLine (data : StoryData) (choice : StoryLink.t) : string :=
  "  - [" +:+ StoryLink.label choice +:+ "] -> 이동: " +:+ dquote
    +:+ destination data choice +:+ dquote +:+ nl.

Definition nodeBlock (data : StoryData) (content : string) (node : StoryNode.t) : string :=
  let content := content +:+ "장면: " +:+ StoryNode.title node +:+ " [ID: "
                   +:+ StoryNode.id node +:+ "]" +:+ nl in
  let content := content +:+ "------------------------------------" +:+ nl in
  let content := content +:+ StoryNode.content node +:+ nl +:+ nl in
  let choices := filter (fun l => StoryLink.source l = StoryNode.id node) (data_links data) in
  let content :=
    if (0 <? length choices)%nat then
      foldl (fun content choice => content +:+ choiceLine data choice)
            (content +:+ "선택지:" +:+ nl) choices
    else content +:+ "(분기 종료)" +:+ nl in
  content +:+ nl +:+ "====================================" +:+ nl +:+ nl.

Definition scriptContent (data : StoryData) (filename : string) : string :=
  let content := "스토리 스크립트: " +:+ filename +:+ nl in
  let content := content +:+ "====================================" +:+ nl +:+ nl in
  foldl (nodeBlock data) content (data_nodes data).

Definition downloadTextScript (data : StoryData) (filename : string) : Outcome :=
  Downloaded (TextFile (filename +:+ ".txt") (scriptContent data filename)).


(** ** svgToCanvas *)

(** What the browser decides while rasterising: whether the serialised
    clone decodes ([img.onload] rather than [img.onerror]) and whether
    [getContext("2d")] is non-null. *)
Record Raster := mkRaster { imageLoads : bool; context2d : bool }.

Local Open Scope Q_scope.

Definition padding : Q := 50.

(** The conversion of a number to an [unsigned long] (WebIDL): the
    fraction is dropped, towards zero, and the integer is taken modulo
    2^32. *)
Definition ToUint32 (v : Q) : Z :=
  ((if Qle_bool 0 v then Qfloor v else Qceiling v) mod 2 ^ 32)%Z.

(** [canvas.width = v] and [canvas.height = v], read back. The attributes
    reflect content attributes of type [unsigned long]: a value above
    2^31 - 1 is replaced by the attribute's default (HTML, reflecting
    content attributes), which is 300 for the width and 150 for the
    height. *)
Definition reflected (fallback : Z) (v : Q) : Z :=
  if (ToUint32 v <=? 2147483647)%Z then ToUint32 v else fallback.

(** [svgToCanvas(svgElement, scale)]; [getBBox] is the box the browser
    measures for the content group. The promise resolves ([inl]) or
    rejects with an [Error] message ([inr]). *)
Definition svgToCanvas (svgElement : Svg) (getBBox : BBox) (scale : Q)
    (env : Raster) : Canvas + string :=
  match querySelector_g svgElement with
  | None => inr "Graph content not found (no <g> element)."
  | Some _ =>
      let bbox := getBBox in
      let x := bbox_x bbox - padding in
      let y := bbox_y bbox - padding in
      let width := bbox_width bbox + padding * 2 in
      let height := bbox_height bbox + padding * 2 in
      if Qle_bool width 0 || Qle_bool height 0 then
        inr "Graph is empty or not rendered."
      else
        let canvas := mkCanvas (reflected 300 (width * scale)) (reflected 150 (height * scale))
                               (mkBBox x y width height) in
        if imageLoads env then
          if context2d env then inl canvas else inr "Canvas context is null"
        else inr "Failed to load SVG image for export."
  end.

Definition downloadImage (svgElement : Svg) (getBBox : BBox) (filename : string)
    (env : Raster) : Outcome :=
  match svgToCanvas svgElement getBBox 2 env with
  | inl canvas => Downloaded (PngFile (filename +:+ ".png") canvas)
  | inr message => Alerted ("이미지 저장 중 오류가 발생했습니다: " +:+ message)
  end.

Definition downloadPDF (svgElement : Svg) (getBBox : BBox) (filename : string)
    (env : Raster) : Outcome :=
  match svgToCanvas svgElement getBBox 2 env with
  | inl canvas =>
      let width := inject_Z (canvas_width canvas) / 2 in
      let height := inject_Z (canvas_height canvas) / 2 in
      let pdf := mkPdf (if negb (Qle_bool width height) then Landscape else Portrait)
                       (width, height) canvas 0 0 width height in
      Downloaded (PdfFile (filename +:+ ".pdf") pdf)
  | inr message => Alerted ("PDF 저장 중 오류가 발생했습니다: " +:+ message)
  end.

End ExportUtils.

(* ================================================================== *)
(** * d3-zoom, as far as the visualiser uses it *)

Module D3Zoom.
Local Open Scope Q_scope.

(** An upper bound that may be JavaScript's [Infinity]. *)
Inductive Bound := Finite (q : Q) | Infinity.

(** A zoom behaviour: its scale extent, and whether a ["zoom"] listener
    that writes the content group's [transform] was registered on it with
    [.on("zoom", ...)]. The current transform is not part of the
    behaviour: d3 keeps it on the element the behaviour is applied to. *)
Record Behavior := mkBehavior {
  scaleExtent : Q * Bound;
  onZoom : bool
}.

(** [d3.zoom()]: a fresh behaviour has scale extent [[0, Infinity]] and
    no listener (d3-zoom's documented defaults). *)
Definition zoom : Behavior := mkBehavior (0, Infinity) false.

Definition zoomIdentity : Transform := mkTransform 1 0 0.

(** [Math.max(scaleExtent[0], Math.min(scaleExtent[1], k))] *)
Definition clampScale (b : Behavior) (k : Q) : Q :=
  Qmax (fst (scaleExtent b))
       (match snd (scaleExtent b) with Finite hi => Qmin hi k | Infinity => k end).

(** [zoom.scaleTo(selection, k, p)], for a current scale other than zero:
    the new scale is clamped to the behaviour's extent and the point [p] of
    the view keeps the content point it showed. The translate extent is
    unbounded, so d3's [constrain] changes nothing. *)
Definition scaleTo (b : Behavior) (t0 : Transform) (k : Q) (p : Q * Q) : Transform :=
  let p1x := (fst p - tx t0) / tk t0 in
  let p1y := (snd p - ty t0) / tk t0 in
  let k1 := clampScale b k in
  mkTransform k1 (fst p - p1x * k1) (snd p - p1y * k1).

(** [zoom.scaleBy(selection, k)]: [scaleTo] the product, about the
    centre of the element's extent [[0,0],[width,height]]. *)
Definition scaleBy (b : Behavior) (width height : Q) (t0 : Transform) (k : Q) : Transform :=
  scaleTo b t0 (tk t0 * k) (width / 2, height / 2).

(** [zoom.transform(selection, t)] stores [t] as given: the scale extent
    is enforced by [scaleBy], [scaleTo] and the gestures only. *)
Definition transform (b : Behavior) (t : Transform) : Transform := t.

End D3Zoom.


(* ================================================================== *)
(** * components/GraphVisualizer.tsx *)

Module GraphVisualizer.

Record Props := mkProps {
  nodes : list StoryNode.t;
  links : list StoryLink.t;
  selectedNodeId : option string
}.

(** ** 1. Topology analysis *)

(** What a property of [incomingCount] or [outgoingCount] can hold: a
    number, or, once [+ 1] was applied to an inherited member, a string:
    the text of that member followed by [ones] characters ["1"]. *)
Inductive Count :=
| Number (n : nat)
| Text (member : string) (ones : nat).

Definition zeroCounts (nodes : list StoryNode.t) : gmap string Count :=
  foldl (fun counts n => PlainObject.set (StoryNode.id n) (Number 0) counts) ∅ nodes.

(** [(counts[key] || 0) + 1]: an inherited member and a string are
    truthy, and [+] then concatenates. *)
Definition plusOne (current : PlainObject.Read Count) : Count :=
  match current with
  | PlainObject.Own (Number n) => Number (n + 1)
  | PlainObject.Own (Text member ones) => Text member (ones + 1)
  | PlainObject.Inherited member => Text member 1
  | PlainObject.Undefined => Number 1
  end.

(** [counts[key] = (counts[key] || 0) + 1] *)
Definition increment (key : string) (counts : gmap string Count) : gmap string Count :=
  PlainObject.set key (plusOne (PlainObject.get counts key)) counts.

Definition incomingCount (nodes : list StoryNode.t) (links : list StoryLink.t)
    : gmap string Count :=
  foldl (fun counts l => increment (StoryLink.target l) counts) (zeroCounts nodes) links.

Definition outgoingCount (nodes : list StoryNode.t) (links : list StoryLink.t)
    : gmap string Count :=
  foldl (fun counts l => increment (StoryLink.source l) counts) (zeroCounts nodes) links.

(** [counts[key] === 0] *)
Definition isZero (current : PlainObject.Read Count) : bool :=
  match current with
  | PlainObject.Own (Number O) => true
  | _ => false
  end.

Definition startNodes (nodes : list StoryNode.t) (links : list StoryLink.t)
    : list StoryNode.t :=
  let startNodes :=
    filter (fun n => isZero (PlainObject.get (incomingCount nodes links) (StoryNode.id n)) = true)
           nodes in
  match startNodes, nodes with
  | [], first :: _ => [first]
  | _, _ => startNodes
  end.

(** ** 2. Levels by breadth-first search *)

(** The [childLinks.forEach] of one loop iteration, on the pair of the
    queue and the visited set. *)
Definition visitChildren (links : list StoryLink.t) (id : string) (level : nat)
    (state : list (string * nat) * gset string) : list (string * nat) * gset string :=
  foldl (fun (state : list (string * nat) * gset string) l =>
           let '(queue, visited) := state in
           if decide (StoryLink.target l ∈ visited) then (queue, visited)
           else (queue ++ [(StoryLink.target l, (level + 1)%nat)],
                 {[StoryLink.target l]} ∪ visited))
        state
        (filter (fun l => StoryLink.source l = id) links).

(** The [while (queue.length > 0)] loop; [fuel] bounds the number of
    iterations and [None] means it ran out. *)
Fixpoint bfs (fuel : nat) (links : list StoryLink.t) (queue : list (string * nat))
    (visited : gset string) (nodeLevels : gmap string nat) : option (gmap string nat) :=
  match queue with
  | [] => Some nodeLevels
  | (id, level) :: rest =>
      match fuel with
      | O => None
      | S fuel' =>
          let '(queue', visited') := visitChildren links id level (rest, visited) in
          bfs fuel' links queue' visited' (PlainObject.set id level nodeLevels)
      end
  end.

(** The final [nodes.forEach]: a node for which [nodeLevels[n.id]] is
    [undefined] gets level 0. *)
Definition defaultLevels (nodes : list StoryNode.t) (nodeLevels : gmap string nat)
    : gmap string nat :=
  foldl (fun levels n =>
           match PlainObject.get levels (StoryNode.id n) with
           | PlainObject.Undefined => PlainObject.set (StoryNode.id n) 0%nat levels
           | _ => levels
           end) nodeLevels nodes.

Definition initialQueue (start : list StoryNode.t) : list (string * nat) :=
  map (fun n => (StoryNode.id n, 0%nat)) start.

Definition initialVisited (start : list StoryNode.t) : gset string :=
  foldl (fun visited n => {[StoryNode.id n]} ∪ visited) ∅ start.

(** The levels the search assigns, before defaults. Every id is queued
    at most once, so one iteration per start node and per link
    suffices. *)
Definition searchLevels (nodes : list StoryNode.t) (links : list StoryLink.t)
    : option (gmap string nat) :=
  let start := startNodes nodes links in
  bfs (length start + length links) links (initialQueue start) (initialVisited start) ∅.

Definition nodeLevels (nodes : list StoryNode.t) (links : list StoryLink.t)
    : option (gmap string nat) :=
  defaultLevels nodes <$> searchLevels nodes links.

(** The search always ends ([searchLevels_terminates] below), so the
    default is never taken. *)
Definition levelsOf (nodes : list StoryNode.t) (links : list StoryLink.t)
    : gmap string nat :=
  default ∅ (nodeLevels nodes links).

(** ** 3. Data for d3 *)

Local Open Scope Q_scope.

(** An entry of [nodePositionsRef]; [None] is [null]. *)
Record Position := mkPosition {
  pos_x : Coordinate; pos_y : Coordinate;
  pos_fx : option Coordinate; pos_fy : option Coordinate
}.

Module D3Node.
(** [interface ExtendedD3Node]; [story] is the spread [...n], [level] is
    whatever [nodeLevels[n.id]] evaluates to. *)
Record t := mk {
  story : StoryNode.t;
  level : PlainObject.Read nat;
  isStart : bool;
  isEnd : bool;
  x : Coordinate;
  y : Coordinate;
  fx : option Coordinate;
  fy : option Coordinate
}.
Definition id (d : t) : string := StoryNode.id (story d).
End D3Node.

Definition levelSpacing : Q := 200.

(** [(nodeLevels[n.id] || 0) * levelSpacing + 100]: an inherited member
    is truthy and is not a number. *)
Definition autoX (level : PlainObject.Read nat) : Coordinate :=
  match level with
  | PlainObject.Own l => Real (inject_Z (Z.of_nat l) * levelSpacing + 100)
  | PlainObject.Undefined => Real (inject_Z (Z.of_nat 0) * levelSpacing + 100)
  | PlainObject.Inherited _ => NaN
  end.

(** One element of [nodes.map(n => ...)]. [height] is the container's
    [clientHeight] and [random] the value [Math.random()] returns for
    this node. *)
Definition d3Node (cache : gmap string Position) (levels : gmap string nat)
    (incoming outgoing : gmap string Count)
    (isFixed : bool) (height random : Q) (n : StoryNode.t) : D3Node.t :=
  let cached := cache !! StoryNode.id n in
  let autoY := Real (height / 2 + (random - (1 # 2)) * 100) in
  let currentX := match cached with
                  | Some c => pos_x c
                  | None => autoX (PlainObject.get levels (StoryNode.id n))
                  end in
  let currentY := match cached with Some c => pos_y c | None => autoY end in
  D3Node.mk n
    (PlainObject.get levels (StoryNode.id n))
    (isZero (PlainObject.get incoming (StoryNode.id n)))
    (isZero (PlainObject.get outgoing (StoryNode.id n)))
    currentX currentY
    (if isFixed then Some currentX else None)
    (if isFixed then Some currentY else None).

(** [random i] is the value of the [i]-th call of [Math.random()] in
    this run of the effect: one call per node, cached or not. *)
Definition d3Nodes (cache : gmap string Position) (isFixed : bool) (height : Q)
    (random : nat -> Q) (nodes : list StoryNode.t) (links : list StoryLink.t)
    : list D3Node.t :=
  imap (fun i n => d3Node cache (levelsOf nodes links) (incomingCount nodes links)
                          (outgoingCount nodes links) isFixed height (random i) n)
       nodes.

(** ** 4. The simulation *)

(** What [d3.forceSimulation(nodes)] does to the [i]-th node it is given:
    a pinned coordinate is copied to the position, and a position with a
    coordinate that is not a number is replaced by a point of the
    phyllotaxis spiral. *)
Definition initializeNode (i : nat) (d : D3Node.t) : D3Node.t :=
  let x := default (D3Node.x d) (D3Node.fx d) in
  let y := default (D3Node.y d) (D3Node.fy d) in
  if isNaN x || isNaN y then
    D3Node.mk (D3Node.story d) (D3Node.level d) (D3Node.isStart d) (D3Node.isEnd d)
              (Phyllotaxis AxisX i) (Phyllotaxis AxisY i) (D3Node.fx d) (D3Node.fy d)
  else
    D3Node.mk (D3Node.story d) (D3Node.level d) (D3Node.isStart d) (D3Node.isEnd d)
              x y (D3Node.fx d) (D3Node.fy d).

Definition forceSimulation (nodes : list D3Node.t) : list D3Node.t :=
  imap initializeNode nodes.

(** [simulation.force("link", d3.forceLink(d3Links).id(d => d.id))]
    looks up the source and the target of every link among the ids of the
    nodes and throws when one of them is missing. *)
Definition forceLinkFinds (nodes : list StoryNode.t) (links : list StoryLink.t) : bool :=
  forallb (fun l => bool_decide (StoryLink.source l ∈ StoryNode.id <$> nodes)
                    && bool_decide (StoryLink.target l ∈ StoryNode.id <$> nodes))
          links.

(** ** 5. The component between renders *)

(** The zoom behaviour the effect creates:
    [d3.zoom().scaleExtent([0.1, 4]).on("zoom", ...)]. *)
Definition zoom : D3Zoom.Behavior := D3Zoom.mkBehavior (1 # 10, D3Zoom.Finite 4) true.

(** What lives in React state, in refs, in the DOM and in d3 between two
    events.
    - [zoomState] is the transform d3 keeps on the [<svg>] element ([None]
      until a zoom behaviour touched it).
    - [simulation] holds the nodes of the simulation the drawn scene
      belongs to: the drag handlers of the scene act on them. [running]
      tells whether its frame timer is live, [drawnFixed] is the value of
      [isFixed] those handlers closed over.
    - [hasCleanup] tells whether the last run of the effect returned its
      cleanup function, which React calls before the next run; [timer]
      whether the auto-centre timeout is pending.
    - [orphans] are the simulations of scenes that were replaced while
      they were still running: nothing stops them any more.
    - [crashed]: the effect threw, and React has unmounted the page.
    - [autoFits] is not program state: it counts how often the timeout got
      past its guard. *)
Record State := mkState {
  props : Props;
  isFixed : bool;
  nodePositionsRef : gmap string Position;
  svg : Svg;
  zoomState : option Transform;
  simulation : list D3Node.t;
  running : bool;
  drawnFixed : bool;
  hasCleanup : bool;
  timer : bool;
  orphans : list (list D3Node.t);
  autoFits : nat;
  crashed : bool
}.

(** The component as first mounted, before its effect ran. *)
Definition mount (p : Props) : State :=
  mkState p false ∅ [] None [] false false false false [] 0 false.

Definition currentTransform (st : State) : Transform :=
  default D3Zoom.zoomIdentity (zoomState st).

(** [g.attr("transform", t)] on the content group. *)
Definition setGroupTransform (t : Transform) (svg : Svg) : Svg :=
  map (fun c => match c with Group _ => Group (Some t) | Defs => Defs end) svg.

(** A zoom behaviour [b] moves the element to [t]: d3 stores [t] on the
    element and tells [b]'s listeners. *)
Definition zoomTo (b : D3Zoom.Behavior) (t : Transform) (st : State) : State :=
  mkState (props st) (isFixed st) (nodePositionsRef st)
          (if D3Zoom.onZoom b then setGroupTransform t (svg st) else svg st)
          (Some t) (simulation st) (running st) (drawnFixed st) (hasCleanup st)
          (timer st) (orphans st) (autoFits st) (crashed st).

(** The cleanup the effect returns: [simulation.stop(); clearTimeout(timer)]. *)
Definition cleanup (st : State) : State :=
  mkState (props st) (isFixed st) (nodePositionsRef st) (svg st) (zoomState st)
          (simulation st) false (drawnFixed st) (hasCleanup st) false (orphans st)
          (autoFits st) (crashed st).

(** The body of [useEffect], with the container's [clientHeight] and the
    values of [Math.random()].
    - With no nodes it returns before touching the SVG, and returns no
      cleanup.
    - Otherwise it empties the SVG, appends the markers and a fresh
      content group, installs [zoom] (which keeps a transform already
      stored on the element) and creates the simulation. When every link
      joins two nodes it draws the scene, whose drag handlers close over
      this run's [isFixed], arms the auto-centre timeout and returns the
      cleanup; a simulation that is still running at that moment loses its
      scene and runs on.
    - When a link names a node that does not exist, the link force throws:
      the effect ends there and, the error being caught nowhere, React
      unmounts the page. *)
Definition effect (height : Q) (random : nat -> Q) (st : State) : State :=
  match nodes (props st) with
  | [] =>
      mkState (props st) (isFixed st) (nodePositionsRef st) (svg st) (zoomState st)
              (simulation st) (running st) (drawnFixed st) false (timer st) (orphans st)
              (autoFits st) (crashed st)
  | _ :: _ =>
      if forceLinkFinds (nodes (props st)) (links (props st)) then
        mkState (props st) (isFixed st) (nodePositionsRef st)
                [Defs; Group None]
                (Some (currentTransform st))
                (forceSimulation
                   (d3Nodes (nodePositionsRef st) (isFixed st) height random
                            (nodes (props st)) (links (props st))))
                true (isFixed st) true true
                (if running st then orphans st ++ [simulation st] else orphans st)
                (autoFits st) (crashed st)
      else
        mkState (props st) (isFixed st) (nodePositionsRef st) [] None [] false
                (drawnFixed st) false false (orphans st) (autoFits st) true
  end.

(** The effect runs again because a dependency changed: React first calls
    the cleanup of the previous run, if that run returned one. *)
Definition rerun (height : Q) (random : nat -> Q) (st : State) : State :=
  effect height random (if hasCleanup st then cleanup st else st).

(** A render with new props. *)
Definition render (p : Props) (height : Q) (random : nat -> Q) (st : State) : State :=
  rerun height random
    (mkState p (isFixed st) (nodePositionsRef st) (svg st) (zoomState st)
             (simulation st) (running st) (drawnFixed st) (hasCleanup st) (timer st)
             (orphans st) (autoFits st) (crashed st)).

Definition toggleFixedMode (height : Q) (random : nat -> Q) (st : State) : State :=
  rerun height random
    (mkState (props st) (negb (isFixed st)) (nodePositionsRef st) (svg st) (zoomState st)
             (simulation st) (running st) (drawnFixed st) (hasCleanup st) (timer st)
             (orphans st) (autoFits st) (crashed st)).

(** The ["tick"] listener's cache write. *)
Definition cacheWrite (d : D3Node.t) (cache : gmap string Position) : gmap string Position :=
  <[D3Node.id d := mkPosition (D3Node.x d) (D3Node.y d) (D3Node.fx d) (D3Node.fy d)]> cache.

(** One simulation step on a node: d3 moves it ([forces] gives the new
    coordinates), except that a pinned coordinate is set to its pin. *)
Definition advance (forces : D3Node.t -> Coordinate * Coordinate) (d : D3Node.t) : D3Node.t :=
  D3Node.mk (D3Node.story d) (D3Node.level d) (D3Node.isStart d) (D3Node.isEnd d)
            (default (fst (forces d)) (D3Node.fx d))
            (default (snd (forces d)) (D3Node.fy d))
            (D3Node.fx d) (D3Node.fy d).

(** A tick of the simulation of the drawn scene: every node moves, then
    the listener copies every node into the cache. *)
Definition tick (forces : D3Node.t -> Coordinate * Coordinate) (st : State) : State :=
  if running st then
    let moved := map (advance forces) (simulation st) in
    mkState (props st) (isFixed st)
            (foldl (fun cache d => cacheWrite d cache) (nodePositionsRef st) moved)
            (svg st) (zoomState st) moved true (drawnFixed st) (hasCleanup st)
            (timer st) (orphans st) (autoFits st) (crashed st)
  else st.

(** A tick of the [j]-th simulation that lost its scene: its listener
    still writes its nodes into the cache. *)
Definition orphanTick (j : nat) (forces : D3Node.t -> Coordinate * Coordinate)
    (st : State) : State :=
  match orphans st !! j with
  | Some nodes =>
      let moved := map (advance forces) nodes in
      mkState (props st) (isFixed st)
              (foldl (fun cache d => cacheWrite d cache) (nodePositionsRef st) moved)
              (svg st) (zoomState st) (simulation st) (running st) (drawnFixed st)
              (hasCleanup st) (timer st) (<[j := moved]> (orphans st)) (autoFits st)
              (crashed st)
  | None => st
  end.

(** The drag handlers, on the dragged node. *)
Definition dragstarted (d : D3Node.t) : D3Node.t :=
  D3Node.mk (D3Node.story d) (D3Node.level d) (D3Node.isStart d) (D3Node.isEnd d)
            (D3Node.x d) (D3Node.y d) (Some (D3Node.x d)) (Some (D3Node.y d)).

Definition dragged (eventX eventY : Coordinate) (d : D3Node.t) : D3Node.t :=
  D3Node.mk (D3Node.story d) (D3Node.level d) (D3Node.isStart d) (D3Node.isEnd d)
            (D3Node.x d) (D3Node.y d) (Some eventX) (Some eventY).

Definition dragended (isFixed : bool) (d : D3Node.t) : D3Node.t :=
  D3Node.mk (D3Node.story d) (D3Node.level d) (D3Node.isStart d) (D3Node.isEnd d)
            (D3Node.x d) (D3Node.y d)
            (if isFixed then Some (D3Node.x d) else None)
            (if isFixed then Some (D3Node.y d) else None).

Definition withSimulation (nodes : list D3Node.t) (running : bool)
    (cache : gmap string Position) (st : State) : State :=
  mkState (props st) (isFixed st) cache (svg st) (zoomState st) nodes running
          (drawnFixed st) (hasCleanup st) (timer st) (orphans st) (autoFits st) (crashed st).

(** Drag gestures on the [i]-th node of the drawn scene, from start to
    end within one scene. Starting one restarts the scene's simulation,
    also after a cleanup stopped it; ending one writes the node to the
    cache at once. The handlers are those bound when the scene was drawn:
    [dragended] tests the [isFixed] of that run of the effect. *)
Definition onDragStart (i : nat) (st : State) : State :=
  match simulation st !! i with
  | Some _ => withSimulation (alter dragstarted i (simulation st)) true
                             (nodePositionsRef st) st
  | None => st
  end.

Definition onDrag (i : nat) (eventX eventY : Coordinate) (st : State) : State :=
  withSimulation (alter (dragged eventX eventY) i (simulation st)) (running st)
                 (nodePositionsRef st) st.

Definition onDragEnd (i : nat) (st : State) : State :=
  match simulation st !! i with
  | Some d =>
      withSimulation (alter (dragended (drawnFixed st)) i (simulation st)) (running st)
                     (cacheWrite (dragended (drawnFixed st) d) (nodePositionsRef st)) st
  | None => st
  end.

(** ** 6. The viewport *)

(** The transform the auto-centre timeout asks for:
    [d3.zoomIdentity.translate(translate[0], translate[1]).scale(scale)].
    [clientWidth || 800] falls back on a zero width. (For a content box
    without extent JavaScript divides by zero; the rendered content of a
    non-empty story always has extent.) *)
Definition autoCenter (bounds : BBox) (clientWidth clientHeight : Q) : Transform :=
  let fullWidth := if Qeq_bool clientWidth 0 then 800 else clientWidth in
  let fullHeight := if Qeq_bool clientHeight 0 then 600 else clientHeight in
  let scale := (9 # 10) / Qmax (bbox_width bounds / fullWidth)
                               (bbox_height bounds / fullHeight) in
  mkTransform scale
    (fullWidth / 2 - scale * (bbox_x bounds + bbox_width bounds / 2))
    (fullHeight / 2 - scale * (bbox_y bounds + bbox_height bounds / 2)).

(** The [setTimeout] callback, 500 ms after the effect: it does nothing
    once the cache holds an entry; otherwise it measures the content
    group ([bounds]) and moves the view with [zoom.transform]. The
    one-second transition is taken as a single step. *)
Definition timeout (bounds : BBox) (clientWidth clientHeight : Q) (st : State) : State :=
  if timer st then
    let st := mkState (props st) (isFixed st) (nodePositionsRef st) (svg st)
                      (zoomState st) (simulation st) (running st) (drawnFixed st)
                      (hasCleanup st) false (orphans st) (autoFits st) (crashed st) in
    if (0 <? size (nodePositionsRef st))%nat then st
    else
      let st := zoomTo zoom (D3Zoom.transform zoom (autoCenter bounds clientWidth clientHeight)) st in
      mkState (props st) (isFixed st) (nodePositionsRef st) (svg st) (zoomState st)
              (simulation st) (running st) (drawnFixed st) (hasCleanup st) (timer st)
              (orphans st) (S (autoFits st)) (crashed st)
  else st.

(** The toolbar buttons. Each builds its own [d3.zoom()]; [width] and
    [height] are the element's size, whose centre [scaleBy] zooms about. *)
Definition handleZoomIn (width height : Q) (st : State) : State :=
  zoomTo D3Zoom.zoom
         (D3Zoom.scaleBy D3Zoom.zoom width height (currentTransform st) (12 # 10)) st.

Definition handleZoomOut (width height : Q) (st : State) : State :=
  zoomTo D3Zoom.zoom
         (D3Zoom.scaleBy D3Zoom.zoom width height (currentTransform st) (8 # 10)) st.

Definition handleCenter (st : State) : State :=
  match nodes (props st) with
  | [] => st
  | _ :: _ => zoomTo D3Zoom.zoom (D3Zoom.transform D3Zoom.zoom D3Zoom.zoomIdentity) st
  end.

(** The gestures d3 handles itself once the effect has installed [zoom]
    on the element: the wheel scales about the pointer [p], dragging the
    background moves the translation. *)
Definition wheeled (factor : Q) (p : Q * Q) (st : State) : State :=
  match zoomState st with
  | Some t => zoomTo zoom (D3Zoom.scaleTo zoom t (tk t * factor) p) st
  | None => st
  end.

Definition panned (x y : Q) (st : State) : State :=
  match zoomState st with
  | Some t => zoomTo zoom (mkTransform (tk t) x y) st
  | None => st
  end.

(** ** 7. Runs of the component *)

Inductive Event :=
| Render (p : Props) (height : Q) (random : nat -> Q)
| ToggleFixedMode (height : Q) (random : nat -> Q)
| Tick (forces : D3Node.t -> Coordinate * Coordinate)
| OrphanTick (j : nat) (forces : D3Node.t -> Coordinate * Coordinate)
| Timeout (bounds : BBox) (clientWidth clientHeight : Q)
| DragStart (i : nat)
| Drag (i : nat) (eventX eventY : Coordinate)
| DragEnd (i : nat)
| Wheel (factor : Q) (p : Q * Q)
| Pan (x y : Q)
| ZoomIn (width height : Q)
| ZoomOut (width height : Q)
| Center.

(** An unmounted page receives no event. *)
Definition step (st : State) (e : Event) : State :=
  if crashed st then st else
  match e with
  | Render p height random => render p height random st
  | ToggleFixedMode height random => toggleFixedMode height random st
  | Tick forces => tick forces st
  | OrphanTick j forces => orphanTick j forces st
  | Timeout bounds clientWidth clientHeight => timeout bounds clientWidth clientHeight st
  | DragStart i => onDragStart i st
  | Drag i eventX eventY => onDrag i eventX eventY st
  | DragEnd i => onDragEnd i st
  | Wheel factor p => wheeled factor p st
  | Pan x y => panned x y st
  | ZoomIn width height => handleZoomIn width height st
  | ZoomOut width height => handleZoomOut width height st
  | Center => handleCenter st
  end.

Definition run (st : State) (events : list Event) : State := foldl step st events.

End GraphVisualizer.

(* ================================================================== *)
(** * App.tsx: the editor state and its handlers *)

Module App.

(** The three [useState] cells. TypeScript's types are erased at run
    time: the import handler stores the parsed arrays unvalidated, so the
    state is parametric in what a node and a link are. *)
Record State (N L : Type) := mkState {
  nodes : list N;
  links : list L;
  selectedNodeId : option string
}.
Arguments mkState {N L}.
Arguments nodes {N L}.
Arguments links {N L}.
Arguments selectedNodeId {N L}.

Definition Story := State StoryNode.t StoryLink.t.
Definition RawStory := State JsValue JsValue.

Definition initialNodes : list StoryNode.t :=
  [ StoryNode.mk "1" "갈림길"
      "당신은 먼지 날리는 갈림길에 서 있습니다. 뜨거운 태양이 내리쬡니다. 북쪽으로는 어두운 숲이 보이고, 동쪽으로는 멀리 희미하게 빛나는 도시가 보입니다.";
    StoryNode.mk "2" "어두운 숲"
      "나무들은 고대의 것이며 뒤틀려 있습니다. 근처 덤불에서 부스럭거리는 소리가 들립니다.";
    StoryNode.mk "3" "수정 도시"
      "성문은 진주로 만들어졌습니다. 경비병들이 감시하고 있습니다." ].

Definition initialLinks : list StoryLink.t :=
  [ StoryLink.mk "l1" "1" "2" "북쪽으로 간다";
    StoryLink.mk "l2" "1" "3" "동쪽으로 간다" ].

Definition initialState : Story :=
  mkState initialNodes initialLinks None.

(** [Date.now().toString()]: the clock reading [now] in decimal. *)
Definition timestamp_id (now : Z) : string := pretty now.

(** [handleCreateNode(title = '새 장면', content = '')]; [now] is the
    value [Date.now()] returns during the call. *)
Definition handleCreateNode (now : Z) (title content : option string)
    (st : Story) : Story :=
  let newNode :=
    StoryNode.mk (timestamp_id now) (default "새 장면" title) (default "" content) in
  mkState (nodes st ++ [newNode]) (links st) (Some (StoryNode.id newNode)).

Definition handleUpdateNode (updatedNode : StoryNode.t) (st : Story) : Story :=
  mkState
    (map (fun n => if String.eqb (StoryNode.id n) (StoryNode.id updatedNode)
                   then updatedNode else n) (nodes st))
    (links st) (selectedNodeId st).

Definition handleDeleteNode (nodeId : string) (st : Story) : Story :=
  mkState
    (filter (fun n => StoryNode.id n ≠ nodeId) (nodes st))
    (filter (fun l => StoryLink.source l ≠ nodeId ∧ StoryLink.target l ≠ nodeId) (links st))
    (if decide (selectedNodeId st = Some nodeId) then None else selectedNodeId st).

Definition handleAddLink (now : Z) (sourceId targetId label : string)
    (st : Story) : Story :=
  mkState (nodes st)
          (links st ++ [StoryLink.mk (timestamp_id now) sourceId targetId label])
          (selectedNodeId st).

Definition handleRemoveLink (linkId : string) (st : Story) : Story :=
  mkState (nodes st) (filter (fun l => StoryLink.id l ≠ linkId) (links st))
          (selectedNodeId st).


(** ** Importing a file *)

Definition isCode (n : N) (c : Ascii.ascii) : bool := (Ascii.N_of_ascii c =? n)%N.

(** The regular expression with which [handleFileChange] strips
    comments has three alternatives, tried in this order wherever a match
    is sought: a backslash followed by a double quote; a string, that is a
    double quote, any number of items and a double quote, where an item is
    a backslash followed by a double quote or else one character other than
    a double quote; and, as the only group, a comment, which is either two
    slashes and the rest of the line or a slash and a star, as few
    characters as possible, and a star and a slash. *)

(** The part of a string after its opening quote: the number of
    characters matched, closing quote included. At every character the
    expression first tries a backslash followed by a quote, then any
    character other than a quote, and only then ends the string at a
    quote. *)
Fixpoint stringBody (s : string) : option nat :=
  match s with
  | EmptyString => None
  | String c rest =>
      let escaped :=
        if isCode 92 c then
          match rest with
          | String q rest' => if isCode 34 q then stringBody rest' else None
          | EmptyString => None
          end
        else None in
      match escaped with
      | Some n => Some (S (S n))
      | None => if isCode 34 c then Some 1%nat else S <$> stringBody rest
      end
  end.

(** [s] starts with a line terminator: LF, CR, U+2028 or U+2029. *)
Definition lineTerminator (s : string) : bool :=
  match s with
  | String c rest =>
      isCode 10 c || isCode 13 c
      || (isCode 226 c
          && match rest with
             | String d (String e _) => isCode 128 d && (isCode 168 e || isCode 169 e)
             | _ => false
             end)
  | EmptyString => false
  end.

(** The rest of the line: the characters up to the next line
    terminator. *)
Fixpoint lineLength (s : string) : nat :=
  match s with
  | EmptyString => O
  | String _ rest => if lineTerminator s then O else S (lineLength rest)
  end.

(** The rest of a block comment: the characters up to and including the
    first star followed by a slash. *)
Fixpoint blockBody (s : string) : option nat :=
  match s with
  | EmptyString => None
  | String c rest =>
      match rest with
      | String d _ => if isCode 42 c && isCode 47 d then Some 2%nat else S <$> blockBody rest
      | EmptyString => None
      end
  end.

(** A match of the expression: its length, and whether the group of the
    comments took part in it. *)
Inductive Match :=
| Kept (length : nat)
| Comment (length : nat).

(** The match that starts at the first character of [s], if any. *)
Definition matchAt (s : string) : option Match :=
  match s with
  | String c rest =>
      if isCode 92 c then
        match rest with
        | String q _ => if isCode 34 q then Some (Kept 2) else None
        | EmptyString => None
        end
      else if isCode 34 c then (fun n => Kept (S n)) <$> stringBody rest
      else if isCode 47 c then
        match rest with
        | String d rest' =>
            if isCode 47 d then Some (Comment (2 + lineLength rest'))
            else if isCode 42 d then (fun n => Comment (2 + n)) <$> blockBody rest'
            else None
        | EmptyString => None
        end
      else None
  | EmptyString => None
  end.

(** [rawContent.replace(regex, (m, g) => ...)], from left to right: a
    match in which the group took part is replaced by the empty string, any
    other match by itself. [keep] and [drop] count the characters of the
    current match that are still to be copied or left out. *)
Fixpoint replaceFrom (keep drop : nat) (s : string) : string :=
  match s with
  | EmptyString => EmptyString
  | String c rest =>
      match keep, drop with
      | S keep', _ => String c (replaceFrom keep' drop rest)
      | O, S drop' => replaceFrom O drop' rest
      | O, O =>
          match matchAt s with
          | Some (Kept n) => String c (replaceFrom (pred n) O rest)
          | Some (Comment n) => replaceFrom O (pred n) rest
          | None => String c (replaceFrom O O rest)
          end
      end
  end.

Definition stripComments (rawContent : string) : string := replaceFrom 0 0 rawContent.

Definition shapeError : string :=
  "올바르지 않은 JSON 파일 형식입니다. (nodes 및 links 배열 필요)".

Definition parseError (message : string) : string :=
  "파일을 읽거나 분석하는 중 오류가 발생했습니다." +:+ nl +:+ message +:+ nl +:+ nl
    +:+ "JSON 파일 형식을 확인해주세요.".

(** [handleFileChange]'s [reader.onload] for the text [rawContent] of the
    chosen file: the new state and the [alert] shown, if any. [message] is
    the message of the [SyntaxError] that [JSON.parse] throws for this
    text, which the engine words. *)
Definition handleFileChange (message rawContent : string) (st : RawStory)
    : RawStory * option string :=
  if String.eqb rawContent "" then (st, None)
  else
    let jsonContent := stripComments rawContent in
    match JSON.parse jsonContent with
    | None => (st, Some (parseError message))
    | Some data =>
        if truthy data then
          match Array_isArray (js_get data "nodes"), Array_isArray (js_get data "links") with
          | Some ns, Some ls => (mkState ns ls None, None)
          | _, _ => (st, Some shapeError)
          end
        else (st, Some shapeError)
    end.

(** [handleExportImage] and [handleExportPDF]; [element] is what
    [document.getElementById('story-graph-canvas')] returns and [getBBox]
    what the browser measures for its content group. *)
Definition missingMap : string := "내보낼 맵을 찾을 수 없습니다.".

Definition handleExportImage (element : option Svg) (getBBox : BBox)
    (env : ExportUtils.Raster) : ExportUtils.Outcome :=
  match element with
  | Some svg => ExportUtils.downloadImage svg getBBox "story-visual-map" env
  | None => ExportUtils.Alerted missingMap
  end.

Definition handleExportPDF (element : option Svg) (getBBox : BBox)
    (env : ExportUtils.Raster) : ExportUtils.Outcome :=
  match element with
  | Some svg => ExportUtils.downloadPDF svg getBBox "story-visual-map" env
  | None => ExportUtils.Alerted missingMap
  end.

Definition handleExportText (st : Story) : ExportUtils.Outcome :=
  ExportUtils.downloadTextScript (mkStoryData (nodes st) (links st)) "story-script".

(** The props [<GraphVisualizer>] receives from a state. *)
Definition graphProps (st : Story) : GraphVisualizer.Props :=
  GraphVisualizer.mkProps (nodes st) (links st) (selectedNodeId st).

(** The page: the editor state and the mounted visualiser, which
    re-renders whenever the state is replaced. Once the visualiser's
    effect has thrown, the whole page is unmounted and no handler runs any
    more. *)
Definition Page : Type := Story * GraphVisualizer.State.

Definition load (height : Q) (random : nat -> Q) : Page :=
  (initialState,
   GraphVisualizer.effect height random (GraphVisualizer.mount (graphProps initialState))).

Definition update (f : Story -> Story) (height : Q) (random : nat -> Q) (page : Page) : Page :=
  if GraphVisualizer.crashed (snd page) then page
  else (f (fst page),
        GraphVisualizer.render (graphProps (f (fst page))) height random (snd page)).

Definition exportImage (page : Page) (getBBox : BBox) (env : ExportUtils.Raster)
    : ExportUtils.Outcome :=
  handleExportImage (Some (GraphVisualizer.svg (snd page))) getBBox env.

Definition exportPDF (page : Page) (getBBox : BBox) (env : ExportUtils.Raster)
    : ExportUtils.Outcome :=
  handleExportPDF (Some (GraphVisualizer.svg (snd page))) getBBox env.

(** [const selectedNode = nodes.find(n => n.id === selectedNodeId) || null]:
    the node the side panel edits. With nothing selected no id compares
    equal to [null]. *)
Definition selectedNode (st : Story) : option StoryNode.t :=
  match selectedNodeId st with
  | Some sel => List.find (fun n => String.eqb (StoryNode.id n) sel) (nodes st)
  | None => None
  end.

End App.

(* ================================================================== *)
(** * services/geminiService: the API key and the cached client *)

Module GeminiService.

(** What the module reads from its surroundings: the item stored under
    [STORAGE_KEY] in [localStorage] (outer [None]: there is no
    [localStorage]; inner [None]: no such item) and the two build-time
    variables ([None]: undefined). *)
Record Browser := mkBrowser {
  localStorage : option (option string);
  VITE_GEMINI_API_KEY : option string;
  GEMINI_API_KEY : option string
}.

(** A [GoogleGenAI] instance: the key it was built with, and which
    construction it came from, to tell one instance from the next. *)
Record Client := mkClient { client_apiKey : string; client_serial : nat }.

(** The module's variables; [constructed] counts the calls of
    [new GoogleGenAI]. *)
Record Vars := mkVars {
  runtimeApiKey : string;
  cachedClient : option Client;
  cachedKey : string;
  constructed : nat
}.

Definition World : Type := Vars * Browser.

Definition initialVars : Vars := mkVars "" None "" 0.

(** A string in a condition: the empty string is falsy. *)
Definition nonEmpty (s : string) : bool := negb (String.eqb s "").

(** [a || b] on possibly undefined strings. *)
Definition orElse (a : option string) (b : string) : string :=
  match a with
  | Some s => if nonEmpty s then s else b
  | None => b
  end.

Definition readEnvApiKey (b : Browser) : string :=
  orElse (VITE_GEMINI_API_KEY b) (orElse (GEMINI_API_KEY b) "").

Definition getGeminiApiKey (w : World) : string * World :=
  let '(v, b) := w in
  if nonEmpty (runtimeApiKey v) then (runtimeApiKey v, w)
  else
    let stored := match localStorage b with
                  | Some (Some s) => if nonEmpty s then Some s else None
                  | _ => None
                  end in
    match stored with
    | Some s => (s, (mkVars s (cachedClient v) (cachedKey v) (constructed v), b))
    | None =>
        let envKey := readEnvApiKey b in
        if nonEmpty envKey
        then (envKey, (mkVars envKey (cachedClient v) (cachedKey v) (constructed v), b))
        else ("", w)
    end.

Section Trim.

(** [String.prototype.trim]. *)
Variable trim : string -> string.

Definition setGeminiApiKey (key : string) (w : World) : World :=
  let '(v, b) := w in
  let runtime := trim key in
  let b := match localStorage b with
           | Some _ =>
               mkBrowser (Some (if nonEmpty runtime then Some runtime else None))
                         (VITE_GEMINI_API_KEY b) (GEMINI_API_KEY b)
           | None => b
           end in
  if String.eqb runtime (cachedKey v)
  then (mkVars runtime (cachedClient v) (cachedKey v) (constructed v), b)
  else (mkVars runtime None "" (constructed v), b).

End Trim.

Definition missingKey : string :=
  "Gemini API Key가 없습니다. 사이드바에서 입력 후 다시 시도하세요.".

(** [getClient()]: the client, or the message of the [Error] thrown. *)
Definition getClient (w : World) : (Client + string) * World :=
  let '(apiKey, (v, b)) := getGeminiApiKey w in
  if nonEmpty apiKey then
    match cachedClient v with
    | Some c =>
        if String.eqb (cachedKey v) apiKey then (inl c, (v, b))
        else
          let c := mkClient apiKey (constructed v) in
          (inl c, (mkVars (runtimeApiKey v) (Some c) apiKey (S (constructed v)), b))
    | None =>
        let c := mkClient apiKey (constructed v) in
        (inl c, (mkVars (runtimeApiKey v) (Some c) apiKey (S (constructed v)), b))
    end
  else (inr missingKey, (v, b)).

End GeminiService.

(* ================================================================== *)
(** * components/StoryEditor.tsx: the side panel *)

Module StoryEditor.

(** The panel's own [useState] cells that the story depends on. *)
Record Form := mkForm {
  localTitle : string;
  localContent : string;
  newLinkTargetId : string;
  newLinkLabel : string
}.

Definition initialForm : Form := mkForm "" "" "" "".

(** The effect on [selectedNode]: a newly selected node fills the text
    fields and empties the link form; with no node it does nothing. *)
Definition syncSelected (selectedNode : option StoryNode.t) (f : Form) : Form :=
  match selectedNode with
  | Some n => mkForm (StoryNode.title n) (StoryNode.content n) "" ""
  | None => f
  end.

(** [handleSave]: the node handed to [onUpdateNode], if any. *)
Definition handleSave (selectedNode : option StoryNode.t) (f : Form) : option StoryNode.t :=
  match selectedNode with
  | Some n => Some (StoryNode.mk (StoryNode.id n) (localTitle f) (localContent f))
  | None => None
  end.

(** [handleAddLink]: the arguments handed to [onAddLink], if any, and the
    form afterwards. *)
Definition handleAddLink (selectedNode : option StoryNode.t) (f : Form)
    : option (string * string * string) * Form :=
  match selectedNode with
  | Some n =>
      if negb (String.eqb (newLinkTargetId f) "") && negb (String.eqb (newLinkLabel f) "")
      then (Some (StoryNode.id n, newLinkTargetId f, newLinkLabel f),
            mkForm (localTitle f) (localContent f) "" "")
      else (None, f)
  | None => (None, f)
  end.

(** The links listed in the panel. *)
Definition outgoingLinks (selectedNode : StoryNode.t) (allLinks : list StoryLink.t)
    : list StoryLink.t :=
  filter (fun l => StoryLink.source l = StoryNode.id selectedNode) allLinks.

(** The nodes offered by the target [<select>], after its empty option. *)
Definition targetOptions (selectedNode : StoryNode.t) (allNodes : list StoryNode.t)
    : list StoryNode.t :=
  filter (fun n => StoryNode.id n ≠ StoryNode.id selectedNode) allNodes.

(** The title given to a node created from the panel of a selected node. *)
Definition linkedSceneTitle (selectedNode : StoryNode.t) : string :=
  "'" +:+ StoryNode.title selectedNode +:+ "'에서 연결된 새 장면".

(** ** A session at the panel *)

(** What the user can do: click a drawn node, type into the fields, leave
    a text field (which saves), pick an entry of the target list, press the
    buttons. [now] is the clock reading of a call that makes an id. *)
Inductive Action :=
| ClickNode (nodeId : string)
| TypeTitle (text : string)
| TypeContent (text : string)
| Blur
| ChooseTarget (value : string)
| TypeLabel (text : string)
| ClickAddLink (now : Z)
| ClickRemoveLink (linkId : string)
| ClickDelete
| ClickCreate (now : Z).

Definition Session : Type := App.Story * Form.

Definition initialSession : Session := (App.initialState, initialForm).

#[global] Instance StoryNode_eq_dec : EqDecision StoryNode.t.
Proof. solve_decision. Defined.

(** After the story changed, React re-runs the effect on [selectedNode]
    when that is another object than before: here, when the node found
    differs, or when a save has just replaced it ([replaced]). *)
Definition rerender (before : option StoryNode.t) (replaced : bool)
    (st : App.Story) (f : Form) : Session :=
  (st, if replaced || negb (bool_decide (App.selectedNode st = before))
       then syncSelected (App.selectedNode st) f else f).

Definition withTarget (value : string) (f : Form) : Form :=
  mkForm (localTitle f) (localContent f) value (newLinkLabel f).

Definition step (s : Session) (a : Action) : Session :=
  let '(st, f) := s in
  let selected := App.selectedNode st in
  match a, selected with
  | ClickNode nodeId, _ =>
      rerender selected false (App.mkState (App.nodes st) (App.links st) (Some nodeId)) f
  | ClickCreate now, None =>
      rerender selected false (App.handleCreateNode now None None st) f
  | ClickCreate now, Some n =>
      rerender selected false
               (App.handleCreateNode now (Some (linkedSceneTitle n)) None st) f
  | TypeTitle text, Some _ =>
      (st, mkForm text (localContent f) (newLinkTargetId f) (newLinkLabel f))
  | TypeContent text, Some _ =>
      (st, mkForm (localTitle f) text (newLinkTargetId f) (newLinkLabel f))
  | TypeLabel text, Some _ =>
      (st, mkForm (localTitle f) (localContent f) (newLinkTargetId f) text)
  | Blur, Some _ =>
      match handleSave selected f with
      | Some node => rerender selected true (App.handleUpdateNode node st) f
      | None => s
      end
  | ChooseTarget value, Some n =>
      (* the list only reports the empty entry or the id of an option *)
      if String.eqb value "" then (st, withTarget value f)
      else if bool_decide (value ∈ StoryNode.id <$> targetOptions n (App.nodes st))
      then (st, withTarget value f) else s
  | ClickAddLink now, Some _ =>
      match handleAddLink selected f with
      | (Some (sourceId, targetId, label), f') =>
          rerender selected false (App.handleAddLink now sourceId targetId label st) f'
      | (None, f') => (st, f')
      end
  | ClickRemoveLink linkId, Some n =>
      if bool_decide (linkId ∈ StoryLink.id <$> outgoingLinks n (App.links st))
      then rerender selected false (App.handleRemoveLink linkId st) f else s
  | ClickDelete, Some n =>
      rerender selected false (App.handleDeleteNode (StoryNode.id n) st) f
  | _, None => s
  end.

Definition run (s : Session) (actions : list Action) : Session := foldl step s actions.

End StoryEditor.

(* ================================================================== *)
(** * Auxiliary facts about lists and strings *)

Lemma filter_keeps_all {A} (P : A → Prop) `{!∀ x, Decision (P x)} (l : list A) :
  (∀ x, x ∈ l → P x) → filter P l = l.
Proof.
  induction l as [|a l IH]; intros Hall; [done|].
  rewrite filter_cons_True by (apply Hall; left).
  f_equal. apply IH. intros x Hx. apply Hall. by right.
Qed.

Lemma filter_drops_all {A} (P : A → Prop) `{!∀ x, Decision (P x)} (l : list A) :
  (∀ x, x ∈ l → ¬ P x) → filter P l = [].
Proof.
  induction l as [|a l IH]; intros Hall; [done|].
  rewrite filter_cons_False by (apply Hall; left).
  apply IH. intros x Hx. apply Hall. by right.
Qed.

Lemma string_app_assoc (s1 s2 s3 : string) : (s1 +:+ s2) +:+ s3 = s1 +:+ (s2 +:+ s3).
Proof.
  induction s1 as [|a s1 IH]; [done|].
  change (String a ((s1 +:+ s2) +:+ s3) = String a (s1 +:+ (s2 +:+ s3))).
  by rewrite IH.
Qed.

Lemma string_app_empty_r (s : string) : s +:+ "" = s.
Proof.
  induction s as [|a s IH]; [done|].
  change (String a (s +:+ "") = String a s). by rewrite IH.
Qed.

(* ================================================================== *)
(** * Properties of the editor handlers *)

Section EditorHandlers.

Import App.

(** ** Deleting a node *)

(** C7. Deleting a node id keeps, in their order, exactly the nodes with
    another id and exactly the links that neither start nor end at that id;
    when the node occurs once, the node list is the old one with that single
    entry cut out. The selection becomes [null] when it was that id and is
    otherwise what it was. *)
Theorem handleDeleteNode_removes_exactly (nodeId : string) (st : Story) :
  (∀ n, n ∈ nodes (handleDeleteNode nodeId st) ↔ n ∈ nodes st ∧ StoryNode.id n ≠ nodeId)
  ∧ nodes (handleDeleteNode nodeId st) `sublist_of` nodes st
  ∧ (∀ before n after,
        nodes st = before ++ n :: after →
        StoryNode.id n = nodeId →
        (∀ m, m ∈ before ++ after → StoryNode.id m ≠ nodeId) →
        nodes (handleDeleteNode nodeId st) = before ++ after)
  ∧ (∀ l, l ∈ links (handleDeleteNode nodeId st) ↔
          l ∈ links st ∧ StoryLink.source l ≠ nodeId ∧ StoryLink.target l ≠ nodeId)
  ∧ links (handleDeleteNode nodeId st) `sublist_of` links st
  ∧ ((∀ l, l ∈ links st → StoryLink.source l ≠ nodeId ∧ StoryLink.target l ≠ nodeId) →
        links (handleDeleteNode nodeId st) = links st)
  ∧ (selectedNodeId st = Some nodeId → selectedNodeId (handleDeleteNode nodeId st) = None)
  ∧ (selectedNodeId st ≠ Some nodeId →
        selectedNodeId (handleDeleteNode nodeId st) = selectedNodeId st).
Proof.
  unfold handleDeleteNode; cbn [nodes links selectedNodeId].
  split_and!.
  - intros n. by rewrite list_elem_of_filter, (comm and).
  - apply sublist_filter.
  - intros before n after -> Hid Hothers.
    rewrite filter_app, filter_cons.
    destruct (decide (StoryNode.id n ≠ nodeId)) as [Hne|_]; [done|].
    rewrite <- filter_app. apply filter_keeps_all. intros m Hm. by apply Hothers.
  - intros l. rewrite list_elem_of_filter. tauto.
  - apply sublist_filter.
  - intros Hall. apply filter_keeps_all. intros l Hl. by apply Hall.
  - intros ->. by rewrite decide_True.
  - intros Hne. by rewrite decide_False.
Qed.

Lemma handleDeleteNode_removes_exactly_witness :
  nodes (handleDeleteNode "1" initialState) = drop 1 initialNodes
  ∧ links (handleDeleteNode "1" initialState) = []
  ∧ selectedNodeId (handleDeleteNode "1" (mkState initialNodes initialLinks (Some "1"))) = None.
Proof.
  split; [|split].
  - destruct (handleDeleteNode_removes_exactly "1" initialState) as (_ & _ & Hcut & _).
    refine (Hcut [] _ (drop 1 initialNodes) eq_refl eq_refl _).
    intros m Hm. apply list_elem_of_In in Hm. simpl in Hm.
    destruct Hm as [<-|[<-|[]]]; discriminate.
  - reflexivity.
  - destruct (handleDeleteNode_removes_exactly "1"
                (mkState initialNodes initialLinks (Some "1")))
      as (_ & _ & _ & _ & _ & _ & Hsel & _).
    apply Hsel. reflexivity.
Defined.

(** ** Importing a file *)

(** The top-level field [key] of the parsed payload is an array. *)
Definition array_field (data : JsValue) (key : string) : Prop :=
  ∃ items, js_get data key = Some (JArray items).

Lemma Array_isArray_None (x : option JsValue) :
  (¬ ∃ items, x = Some (JArray items)) → Array_isArray x = None.
Proof.
  intros Hno. destruct x as [[]|]; try done. exfalso. apply Hno. eauto.
Qed.

Lemma js_get_truthy (data : JsValue) (key : string) (v : JsValue) :
  js_get data key = Some v → truthy data = true.
Proof. by destruct data. Qed.

(** What the handler does once the stripped text has parsed. *)
Lemma handleFileChange_parsed (message rawContent : string) (data : JsValue) (st : RawStory) :
  JSON.parse (stripComments rawContent) = Some data →
  rawContent ≠ "" →
  handleFileChange message rawContent st =
    if truthy data then
      match Array_isArray (js_get data "nodes"), Array_isArray (js_get data "links") with
      | Some ns, Some ls => (mkState ns ls None, None)
      | _, _ => (st, Some shapeError)
      end
    else (st, Some shapeError).
Proof.
  intros Hparse Hne. unfold handleFileChange.
  rewrite (proj2 (String.eqb_neq _ _) Hne). cbv zeta. by rewrite Hparse.
Qed.

Definition quoted (s : string) : string := dquote +:+ s +:+ dquote.

(** A JSON text whose [nodes] is an object, with no key twice in any of
    its objects. One of its strings ends in a backslash; of the later ones
    two hold [/*] and two hold [*/]. *)
Definition objectNodesPayload : string :=
  "{" +:+ quoted "a" +:+ ":" +:+ quoted "\\" +:+ ","
    +:+ quoted "x" +:+ ":" +:+ quoted "/*" +:+ ","
    +:+ quoted "nodes" +:+ ":{" +:+ quoted "k" +:+ ":" +:+ quoted "*/" +:+ ","
    +:+ quoted "nodes" +:+ ":[]," +:+ quoted "links" +:+ ":[],"
    +:+ quoted "y" +:+ ":" +:+ quoted "/*" +:+ "},"
    +:+ quoted "links" +:+ ":[],"
    +:+ quoted "z" +:+ ":" +:+ quoted "*/" +:+ "}".

(** A JSON text whose [nodes] and [links] are arrays, with a string that
    ends in a backslash and one that holds two slashes. *)
Definition arraysPayload : string :=
  "{" +:+ quoted "a" +:+ ":" +:+ quoted "\\" +:+ ","
    +:+ quoted "nodes" +:+ ":[]," +:+ quoted "links" +:+ ":[],"
    +:+ quoted "b" +:+ ":" +:+ quoted "//" +:+ "}".

(** C8 on the code: comments are stripped before the file is parsed, and
    the expression that does so takes the quote after a string ending in a
    backslash for part of the string. From there on it reads what is
    outside the strings as inside them and the reverse, so that comment
    marks inside later strings are taken for comments. A file whose [nodes]
    is an object is imported as an empty story, without any alert; and a
    file whose [nodes] and [links] are arrays is cut short, fails to parse
    and is refused, the story staying as it was. *)
Theorem import_tests_the_stripped_text :
  (∃ data inner,
      JSON.parse objectNodesPayload = Some data
      ∧ js_get data "nodes" = Some (JObject inner)
      ∧ Array_isArray (js_get data "nodes") = None)
  ∧ stripComments objectNodesPayload
    = "{" +:+ quoted "a" +:+ ":" +:+ quoted "\\" +:+ ","
        +:+ quoted "x" +:+ ":" +:+ quoted "" +:+ ","
        +:+ quoted "nodes" +:+ ":[]," +:+ quoted "links" +:+ ":[],"
        +:+ quoted "y" +:+ ":" +:+ quoted "" +:+ "}"
  ∧ (∀ message st,
       handleFileChange message objectNodesPayload st = (mkState [] [] None, None))
  ∧ (∃ data,
       JSON.parse arraysPayload = Some data
       ∧ js_get data "nodes" = Some (JArray []) ∧ js_get data "links" = Some (JArray []))
  ∧ stripComments arraysPayload
    = "{" +:+ quoted "a" +:+ ":" +:+ quoted "\\" +:+ ","
        +:+ quoted "nodes" +:+ ":[]," +:+ quoted "links" +:+ ":[],"
        +:+ quoted "b" +:+ ":" +:+ dquote
  ∧ (∀ message st,
       handleFileChange message arraysPayload st = (st, Some (parseError message))).
Proof.
  split_and!.
  - do 2 eexists. split_and!; vm_compute; reflexivity.
  - vm_compute. reflexivity.
  - intros message st.
    rewrite (handleFileChange_parsed message objectNodesPayload
               (JObject [("a", JString "\"); ("x", JString ""); ("nodes", JArray []);
                         ("links", JArray []); ("y", JString "")]));
      [reflexivity|vm_compute; reflexivity|discriminate].
  - eexists. split_and!; vm_compute; reflexivity.
  - vm_compute. reflexivity.
  - intros message st. unfold handleFileChange.
    assert (String.eqb arraysPayload "" = false) as -> by reflexivity.
    cbv zeta.
    assert (JSON.parse (stripComments arraysPayload) = None) as -> by (vm_compute; reflexivity).
    reflexivity.
Qed.

(** ** Node ids *)

(** A run of node creations: the clock reading and the arguments of each
    call of [handleCreateNode]. *)
Definition createNodes (calls : list (Z * option string * option string)) (st : Story)
    : Story :=
  foldl (fun st '(now, title, content) => handleCreateNode now title content st) st calls.

Definition ids (st : Story) : list string := StoryNode.id <$> nodes st.

Lemma ids_createNodes calls st :
  ids (createNodes calls st) = ids st ++ ((λ c, timestamp_id c.1.1) <$> calls).
Proof.
  revert st. induction calls as [|[[now title] content] calls IH]; intros st; simpl.
  - by rewrite app_nil_r.
  - rewrite IH. unfold ids, handleCreateNode; cbn [nodes].
    rewrite fmap_app. simpl. by rewrite <- app_assoc.
Qed.

Lemma ids_handleUpdateNode updatedNode st :
  ids (handleUpdateNode updatedNode st) = ids st.
Proof.
  unfold ids, handleUpdateNode; cbn [nodes].
  induction (nodes st) as [|n l IH]; [done|]. rewrite !fmap_cons.
  f_equal; [|exact IH].
  destruct (String.eqb_spec (StoryNode.id n) (StoryNode.id updatedNode)); congruence.
Qed.

(** X27. Ids come from the millisecond clock, so they
    stay distinct as long as the clock readings of the creations are
    pairwise distinct and none of them spells an id already in the story;
    an update leaves the id of every node, position by position, as it
    was. *)
Theorem ids_unique_for_distinct_clock_readings
    (calls : list (Z * option string * option string)) (updatedNode : StoryNode.t)
    (st : Story) :
  NoDup (ids st) →
  NoDup ((λ c, c.1.1) <$> calls) →
  (∀ c, c ∈ calls → timestamp_id c.1.1 ∉ ids st) →
  NoDup (ids (createNodes calls st))
  ∧ ids (handleUpdateNode updatedNode st) = ids st.
Proof.
  intros Hst Hclock Hfresh. split; [|apply ids_handleUpdateNode].
  rewrite ids_createNodes. apply NoDup_app. split_and!.
  - done.
  - intros i Hi Hin. apply list_elem_of_fmap in Hin as (c & -> & Hc).
    by apply (Hfresh c).
  - change ((λ c : Z * option string * option string, timestamp_id c.1.1) <$> calls)
      with ((timestamp_id ∘ (λ c : Z * option string * option string, c.1.1)) <$> calls).
    rewrite list_fmap_compose.
    apply NoDup_fmap; [|done]. unfold timestamp_id. apply _.
Qed.

Lemma ids_unique_for_distinct_clock_readings_witness :
  NoDup (ids (createNodes [(1700000000000%Z, None, None); (1700000000001%Z, None, None)]
                          initialState)).
Proof.
  apply (ids_unique_for_distinct_clock_readings
           [(1700000000000%Z, None, None); (1700000000001%Z, None, None)]
           (StoryNode.mk "1" "" "") initialState).
  - apply (bool_decide_unpack _). vm_compute. exact I.
  - apply (bool_decide_unpack _). vm_compute. exact I.
  - intros c Hc. apply list_elem_of_In in Hc. simpl in Hc.
    destruct Hc as [<-|[<-|[]]]; apply (bool_decide_unpack _); vm_compute; exact I.
Defined.

(** C9 on the code: the id of a new node is the clock reading of its
    creation and nothing looks for an older node with that id, so two
    creations that read the same millisecond give two nodes with one id. *)
Theorem same_millisecond_duplicates_id :
  ¬ NoDup (ids (createNodes [(1700000000000%Z, None, None); (1700000000000%Z, None, None)]
                            initialState)).
Proof.
  rewrite ids_createNodes. intros Hnodup.
  apply NoDup_app in Hnodup as (_ & _ & Hcalls).
  apply NoDup_cons in Hcalls as [Hnotin _]. apply Hnotin. left.
Qed.

End EditorHandlers.

(* ================================================================== *)
(** * Properties of the exports *)

Section Exports.

Import ExportUtils.

(** ** The text script *)

(** The texts [f x], for [x] in [l], one after the other. *)
Definition flat {A} (f : A → string) (l : list A) : string :=
  foldr (λ x rest, f x +:+ rest) "" l.

Lemma foldl_append_flat {A} (f : A → string) (l : list A) (init : string) :
  foldl (λ content x, content +:+ f x) init l = init +:+ flat f l.
Proof.
  revert init. induction l as [|x l IH]; intros init; simpl.
  - by rewrite string_app_empty_r.
  - by rewrite IH, string_app_assoc.
Qed.

(** [piece] occurs in [text]. *)
Definition occurs (piece text : string) : Prop :=
  ∃ before after, text = before +:+ piece +:+ after.

Lemma occurs_here (piece after : string) : occurs piece (piece +:+ after).
Proof. by exists "", after. Qed.

Lemma occurs_later (piece first rest : string) :
  occurs piece rest → occurs piece (first +:+ rest).
Proof.
  intros (b & a & ->). exists (first +:+ b), a. by rewrite string_app_assoc.
Qed.

Lemma occurs_trans (piece middle text : string) :
  occurs piece middle → occurs middle text → occurs piece text.
Proof.
  intros (b1 & a1 & ->) (b2 & a2 & ->). exists (b2 +:+ b1), (a1 +:+ a2).
  by rewrite !string_app_assoc.
Qed.

Lemma occurs_flat {A} (f : A → string) (l : list A) (x : A) :
  x ∈ l → occurs (f x) (flat f l).
Proof.
  induction 1 as [x l|x y l _ IH]; simpl.
  - apply occurs_here.
  - by apply occurs_later.
Qed.

(** What one node adds to the script. *)
Definition blockText (data : StoryData) (node : StoryNode.t) : string :=
  nodeBlock data "" node.

Lemma nodeBlock_appends (data : StoryData) (content : string) (node : StoryNode.t) :
  nodeBlock data content node = content +:+ blockText data node.
Proof.
  unfold blockText, nodeBlock.
  destruct (0 <? length _)%nat.
  - rewrite !foldl_append_flat, !string_app_assoc. reflexivity.
  - rewrite !string_app_assoc. reflexivity.
Qed.

Lemma foldl_nodeBlock (data : StoryData) (l : list StoryNode.t) (init : string) :
  foldl (nodeBlock data) init l = init +:+ flat (blockText data) l.
Proof.
  revert init. induction l as [|n l IH]; intros init; simpl.
  - by rewrite string_app_empty_r.
  - by rewrite IH, nodeBlock_appends, string_app_assoc.
Qed.

Lemma occurs_blockText (data : StoryData) (node : StoryNode.t) (choice : StoryLink.t) :
  choice ∈ data_links data →
  StoryLink.source choice = StoryNode.id node →
  occurs (choiceLine data choice) (blockText data node).
Proof.
  intros Hin Hsrc. unfold blockText, nodeBlock.
  set (choices := filter _ (data_links data)).
  assert (Hchoice : choice ∈ choices) by by apply list_elem_of_filter.
  destruct (0 <? length choices)%nat eqn:Hlen.
  - rewrite foldl_append_flat.
    eapply occurs_trans; [apply (occurs_flat (choiceLine data) choices), Hchoice|].
    rewrite (string_app_assoc _ (flat (choiceLine data) choices)).
    apply occurs_later, occurs_here.
  - apply Nat.ltb_ge in Hlen. destruct choices; [by apply elem_of_nil in Hchoice|].
    simpl in Hlen. lia.
Qed.

Lemma occurs_scriptContent (data : StoryData) (filename : string) (node : StoryNode.t) :
  node ∈ data_nodes data →
  occurs (blockText data node) (scriptContent data filename).
Proof.
  intros Hnode. unfold scriptContent. rewrite foldl_nodeBlock.
  apply occurs_later. by apply occurs_flat.
Qed.

Lemma find_no_match {A} (f : A → bool) (l : list A) :
  (∀ x, x ∈ l → f x = false) → List.find f l = None.
Proof.
  induction l as [|a l IH]; intros Hall; simpl; [done|].
  rewrite (Hall a) by left. apply IH. intros x Hx. apply Hall. by right.
Qed.

(** C10, as the code has it. When a choice of a scene of the story points
    at an id no node has, the text export is still produced and its script
    holds that choice's line with the raw target id between the quotes. *)
Theorem dangling_choice_prints_target_id
    (data : StoryData) (filename : string) (node : StoryNode.t) (choice : StoryLink.t) :
  node ∈ data_nodes data →
  choice ∈ data_links data →
  StoryLink.source choice = StoryNode.id node →
  (∀ n, n ∈ data_nodes data → StoryNode.id n ≠ StoryLink.target choice) →
  ∃ before after,
    downloadTextScript data filename =
      Downloaded (TextFile (filename +:+ ".txt")
        (before
         +:+ ("  - [" +:+ StoryLink.label choice +:+ "] -> 이동: " +:+ dquote
                +:+ StoryLink.target choice +:+ dquote +:+ nl)
         +:+ after)).
Proof.
  intros Hnode Hchoice Hsrc Hdangling.
  assert (Hline : choiceLine data choice =
            "  - [" +:+ StoryLink.label choice +:+ "] -> 이동: " +:+ dquote
              +:+ StoryLink.target choice +:+ dquote +:+ nl).
  { unfold choiceLine, destination. rewrite find_no_match; [reflexivity|].
    intros n Hn. apply String.eqb_neq. by apply Hdangling. }
  destruct (occurs_trans _ _ _ (occurs_blockText data node choice Hchoice Hsrc)
              (occurs_scriptContent data filename node Hnode))
    as (before & after & Hscript).
  exists before, after. unfold downloadTextScript.
  rewrite Hscript, Hline. reflexivity.
Qed.

Lemma dangling_choice_prints_target_id_witness :
  ∃ before after,
    downloadTextScript
      (mkStoryData [StoryNode.mk "1" "Start" "Once"] [StoryLink.mk "l1" "1" "ghost" "go"])
      "story-script"
    = Downloaded (TextFile "story-script.txt"
        (before +:+ ("  - [go] -> 이동: " +:+ dquote +:+ "ghost" +:+ dquote +:+ nl)
           +:+ after)).
Proof.
  apply (dangling_choice_prints_target_id
           (mkStoryData [StoryNode.mk "1" "Start" "Once"] [StoryLink.mk "l1" "1" "ghost" "go"])
           "story-script" (StoryNode.mk "1" "Start" "Once") (StoryLink.mk "l1" "1" "ghost" "go")).
  - left.
  - left.
  - reflexivity.
  - intros n Hn. apply list_elem_of_In in Hn. simpl in Hn.
    destruct Hn as [<-|[]]. discriminate.
Defined.

(** [c] is one of the characters of [s]. *)
Fixpoint has (c : Ascii.ascii) (s : string) : bool :=
  match s with
  | EmptyString => false
  | String a rest => Ascii.eqb a c || has c rest
  end.

Lemma has_app (c : Ascii.ascii) (s1 s2 : string) :
  has c (s1 +:+ s2) = has c s1 || has c s2.
Proof.
  induction s1 as [|a s1 IH]; [done|].
  change (Ascii.eqb a c || has c (s1 +:+ s2) = Ascii.eqb a c || has c s1 || has c s2).
  rewrite IH. by destruct (Ascii.eqb a c).
Qed.

(** C10 as stated fails: a dangling link that also starts at an id no node
    has belongs to no scene, and the script leaves its choice out. Here the
    target id is a character that occurs nowhere in the script. *)
Lemma dangling_choice_without_scene_is_omitted :
  let data := mkStoryData [StoryNode.mk "1" "Start" "Once"]
                          [StoryLink.mk "l1" "ghost" "@" "go"] in
  (∀ n, n ∈ data_nodes data → StoryNode.id n ≠ "@")
  ∧ ¬ ∃ before after,
        downloadTextScript data "story-script"
        = Downloaded (TextFile "story-script.txt"
            (before +:+ ("  - [go] -> 이동: " +:+ dquote +:+ "@" +:+ dquote +:+ nl)
               +:+ after)).
Proof.
  cbn zeta. split.
  - intros n Hn. apply list_elem_of_In in Hn. simpl in Hn.
    destruct Hn as [<-|[]]. discriminate.
  - intros (before & after & Hscript). unfold downloadTextScript in Hscript.
    injection Hscript as Hscript.
    apply (f_equal (has (Ascii.ascii_of_nat 64))) in Hscript.
    rewrite !has_app in Hscript.
    assert (has (Ascii.ascii_of_nat 64)
              (scriptContent (mkStoryData [StoryNode.mk "1" "Start" "Once"]
                                          [StoryLink.mk "l1" "ghost" "@" "go"])
                             "story-script") = false) as Hnone
      by (vm_compute; reflexivity).
    rewrite Hnone in Hscript.
    assert (has (Ascii.ascii_of_nat 64) "@" = true) as Hat by reflexivity.
    rewrite Hat in Hscript. cbn [orb] in Hscript.
    destruct (has _ before), (has _ "  - [go] -> 이동: "), (has _ dquote);
      discriminate Hscript.
Qed.

(** ** Rasterising the scene *)

Local Open Scope Q_scope.

Lemma size_test_passes (extent : Q) : 0 <= extent → Qle_bool (extent + padding * 2) 0 = false.
Proof.
  intros Hextent. apply not_true_iff_false. rewrite Qle_bool_iff. unfold padding. lra.
Qed.

(** The size test of [svgToCanvas] is made after the padding is added, so
    no measured box (its extent is never negative) fails it: once a content
    group is found and the image decodes, a canvas comes out. *)
Lemma svgToCanvas_resolves (svgElement : Svg) (getBBox : BBox) (scale : Q)
    (t : option Transform) :
  querySelector_g svgElement = Some t →
  0 <= bbox_width getBBox → 0 <= bbox_height getBBox →
  svgToCanvas svgElement getBBox scale (mkRaster true true) =
    inl (mkCanvas (reflected 300 ((bbox_width getBBox + padding * 2) * scale))
                  (reflected 150 ((bbox_height getBBox + padding * 2) * scale))
                  (mkBBox (bbox_x getBBox - padding) (bbox_y getBBox - padding)
                          (bbox_width getBBox + padding * 2)
                          (bbox_height getBBox + padding * 2))).
Proof.
  intros Hg Hw Hh. unfold svgToCanvas. rewrite Hg.
  by rewrite !size_test_passes.
Qed.

(** Without a content group the export is refused with a message. *)
Lemma svgToCanvas_rejects_empty_svg (svgElement : Svg) (getBBox : BBox) (scale : Q)
    (env : Raster) :
  querySelector_g svgElement = None →
  svgToCanvas svgElement getBBox scale env = inr "Graph content not found (no <g> element).".
Proof. intros Hg. unfold svgToCanvas. by rewrite Hg. Qed.

(** ** The document export *)

(** C4, as the code has it. The page of a saved document measures half
    the bitmap's pixel size in each direction (the bitmap is rendered at
    twice the content size); the bitmap is placed at the origin with the
    page's width and height; the page is landscape when it is wider than
    high and portrait otherwise. *)
Theorem downloadPDF_page_geometry (svgElement : Svg) (getBBox : BBox)
    (filename : string) (env : Raster) (name : string) (pdf : Pdf) :
  downloadPDF svgElement getBBox filename env = Downloaded (PdfFile name pdf) →
  svgToCanvas svgElement getBBox 2 env = inl (image pdf)
  ∧ format pdf = (inject_Z (canvas_width (image pdf)) / 2,
                  inject_Z (canvas_height (image pdf)) / 2)
  ∧ (image_x pdf, image_y pdf) = (0, 0)
  ∧ (image_w pdf, image_h pdf) = format pdf
  ∧ (orientation pdf = Landscape ↔ snd (format pdf) < fst (format pdf))
  ∧ (orientation pdf = Portrait ↔ fst (format pdf) <= snd (format pdf)).
Proof.
  unfold downloadPDF. destruct (svgToCanvas _ _ _ _) as [canvas|message]; [|done].
  intros [= <- <-]; cbn [image format image_x image_y image_w image_h orientation fst snd].
  split_and!; try reflexivity.
  - destruct (Qle_bool _ _) eqn:Hle; simpl.
    + apply Qle_bool_iff in Hle. split; [done|]. intros Hlt. lra.
    + split; [|done]. intros _. apply Qnot_le_lt. rewrite <- Qle_bool_iff. congruence.
  - destruct (Qle_bool _ _) eqn:Hle; simpl.
    + apply Qle_bool_iff in Hle. done.
    + split; [done|]. rewrite <- Qle_bool_iff. congruence.
Qed.

Lemma downloadPDF_page_geometry_witness :
  ∃ pdf,
    downloadPDF [Defs; Group None] (mkBBox 0 0 100 50) "story-visual-map"
                (mkRaster true true)
    = Downloaded (PdfFile "story-visual-map.pdf" pdf)
    ∧ format pdf = (inject_Z (canvas_width (image pdf)) / 2,
                    inject_Z (canvas_height (image pdf)) / 2)
    ∧ (image_w pdf, image_h pdf) = format pdf.
Proof.
  eexists. split; [vm_compute; reflexivity|].
  refine (let H := downloadPDF_page_geometry [Defs; Group None] (mkBBox 0 0 100 50)
                     "story-visual-map" (mkRaster true true) "story-visual-map.pdf" _ _ in
          conj (proj1 (proj2 H)) (proj1 (proj2 (proj2 (proj2 H))))).
  vm_compute. reflexivity.
Defined.

(** C4 as stated fails: for a 100 by 50 content box the bitmap is 400 by
    300 pixels and the page 200 by 150. *)
Lemma pdf_page_is_half_the_bitmap :
  ∃ pdf,
    downloadPDF [Defs; Group None] (mkBBox 0 0 100 50) "story-visual-map"
                (mkRaster true true)
    = Downloaded (PdfFile "story-visual-map.pdf" pdf)
    ∧ (canvas_width (image pdf), canvas_height (image pdf)) = (400%Z, 300%Z)
    ∧ ¬ (fst (format pdf) == inject_Z (canvas_width (image pdf)))
    ∧ ¬ (snd (format pdf) == inject_Z (canvas_height (image pdf))).
Proof.
  eexists. split; [vm_compute; reflexivity|].
  split; [reflexivity|]. split; intros H; vm_compute in H; discriminate.
Qed.

End Exports.

(* ================================================================== *)
(** * Reading and writing object literals *)

Section ObjectLiterals.

Context {V : Type}.
Implicit Types (o : gmap string V) (k : string) (v : V).

Lemma lookup_set_eq o k v :
  k ≠ "__proto__" → PlainObject.set k v o !! k = Some v.
Proof.
  intros Hk. unfold PlainObject.set.
  rewrite (proj2 (String.eqb_neq _ _) Hk). apply lookup_insert_eq.
Qed.

Lemma lookup_set_ne o k k' v :
  k ≠ k' → PlainObject.set k v o !! k' = o !! k'.
Proof.
  intros Hne. unfold PlainObject.set.
  destruct (String.eqb k "__proto__"); [done|]. by apply lookup_insert_ne.
Qed.

(** Nothing is ever stored under ["__proto__"]. *)
Lemma lookup_set_proto o k v :
  o !! "__proto__" = None → PlainObject.set k v o !! "__proto__" = None.
Proof.
  intros Hnone. unfold PlainObject.set.
  destruct (String.eqb_spec k "__proto__") as [->|Hne]; [done|].
  by rewrite lookup_insert_ne.
Qed.

Lemma get_own o k v : o !! k = Some v → PlainObject.get o k = PlainObject.Own v.
Proof. intros Hk. unfold PlainObject.get. by rewrite Hk. Qed.

Lemma get_ordinary o k :
  k ∉ PlainObject.inherited →
  PlainObject.get o k = match o !! k with
                        | Some v => PlainObject.Own v
                        | None => PlainObject.Undefined
                        end.
Proof.
  intros Hk. unfold PlainObject.get. destruct (o !! k); [done|].
  by rewrite bool_decide_eq_false_2.
Qed.

Lemma get_inherited o k :
  k ∈ PlainObject.inherited → o !! k = None →
  PlainObject.get o k = PlainObject.Inherited k.
Proof.
  intros Hk Hnone. unfold PlainObject.get. rewrite Hnone.
  by rewrite bool_decide_eq_true_2.
Qed.

Lemma get_undefined o k :
  PlainObject.get o k = PlainObject.Undefined ↔ o !! k = None ∧ k ∉ PlainObject.inherited.
Proof.
  unfold PlainObject.get. destruct (o !! k) as [v|].
  - split; [done|]. by intros [? _].
  - case_bool_decide; split; try done. by intros [_ ?].
Qed.

Lemma proto_is_inherited : "__proto__" ∈ PlainObject.inherited.
Proof. apply (bool_decide_unpack _). vm_compute. exact I. Qed.

End ObjectLiterals.

(* ================================================================== *)
(** * Properties of the topology analysis *)

Section Topology.

Import GraphVisualizer.

Implicit Types (links : list StoryLink.t) (queue : list (string * nat))
         (visited : gset string) (levels : gmap string nat).

(** The links whose target has not been visited yet: every push onto the
    queue uses one of them up. *)
Definition unseen links visited : nat :=
  length (filter (λ l, StoryLink.target l ∉ visited) links).

Lemma unseen_le_length links visited : unseen links visited ≤ length links.
Proof. apply length_filter. Qed.

Lemma unseen_mono links visited visited' :
  visited ⊆ visited' → unseen links visited' ≤ unseen links visited.
Proof.
  intros Hsub. unfold unseen. induction links as [|a links IH]; [done|].
  destruct (decide (StoryLink.target a ∈ visited)) as [Hin|Hout].
  - rewrite !filter_cons_False by set_solver. done.
  - rewrite (filter_cons_True (λ l, StoryLink.target l ∉ visited)) by done.
    rewrite filter_cons. case_decide; simpl; lia.
Qed.

Lemma unseen_visit links visited (l : StoryLink.t) :
  l ∈ links → StoryLink.target l ∉ visited →
  unseen links ({[StoryLink.target l]} ∪ visited) < unseen links visited.
Proof.
  induction links as [|l' links IH]; intros Hin Hnew.
  - by apply elem_of_nil in Hin.
  - assert (Hmono : unseen links ({[StoryLink.target l]} ∪ visited) ≤ unseen links visited)
      by (apply unseen_mono, union_subseteq_r).
    unfold unseen in *.
    apply elem_of_cons in Hin as [<-|Hin].
    + rewrite filter_cons_False by set_solver.
      rewrite filter_cons_True by done. simpl. lia.
    + specialize (IH Hin Hnew).
      destruct (decide (StoryLink.target l' ∈ visited)) as [Hin'|Hout'].
      * rewrite !filter_cons_False by set_solver. done.
      * rewrite (filter_cons_True (λ l0, StoryLink.target l0 ∉ visited)) by done.
        rewrite filter_cons. case_decide; simpl; lia.
Qed.

(** One pass over the child links: the queue only grows at its end, by
    ids that were not visited before; the visited set only grows; and
    every push is paid for by a link that stops being unseen. *)
Lemma visitChildren_spec links id level queue visited queue' visited' :
  visitChildren links id level (queue, visited) = (queue', visited') →
  visited ⊆ visited'
  ∧ (∃ pushed, queue' = queue ++ pushed ∧ ∀ e, e ∈ pushed → e.1 ∉ visited)
  ∧ length queue' + unseen links visited' ≤ length queue + unseen links visited.
Proof.
  unfold visitChildren.
  assert (Hsub : ∀ l, l ∈ filter (λ l, StoryLink.source l = id) links → l ∈ links).
  { intros l Hl. by apply list_elem_of_filter in Hl as [_ ?]. }
  revert Hsub. generalize (filter (λ l, StoryLink.source l = id) links) as children.
  intros children. revert queue visited.
  induction children as [|l children IH]; intros queue visited Hsub; simpl.
  - intros [= <- <-]. split_and!; [done| |done].
    exists []. split; [by rewrite app_nil_r|]. intros e He. by apply elem_of_nil in He.
  - case_decide as Hvisited.
    + intros Hfold. apply IH in Hfold; [done|]. intros l' Hl'. apply Hsub. by right.
    + intros Hfold. apply IH in Hfold as (Hv & (pushed & -> & Hpushed) & Hmeasure);
        [|intros l' Hl'; apply Hsub; by right].
      assert (Hl : l ∈ links) by (apply Hsub; left).
      pose proof (unseen_visit links visited l Hl Hvisited) as Hlt.
      split_and!.
      * etrans; [apply union_subseteq_r|exact Hv].
      * exists ((StoryLink.target l, level + 1) :: pushed).
        split; [by rewrite <- app_assoc|].
        intros e [->|He]%elem_of_cons; [done|].
        specialize (Hpushed e He). intros Hin. apply Hpushed, elem_of_union. by right.
      * rewrite !length_app in *. simpl in *. lia.
Qed.

(** The loop ends within [fuel] iterations whenever [fuel] covers the
    queued entries and the unseen links. *)
Lemma bfs_terminates fuel links queue visited levels :
  length queue + unseen links visited ≤ fuel →
  is_Some (bfs fuel links queue visited levels).
Proof.
  revert queue visited levels.
  induction fuel as [|fuel IH]; intros queue visited levels Hfuel.
  - destruct queue as [|[id level] rest]; [by eexists|simpl in Hfuel; lia].
  - destruct queue as [|[id level] rest]; [by eexists|]. simpl.
    destruct (visitChildren links id level (rest, visited)) as [queue' visited'] eqn:Hvisit.
    apply visitChildren_spec in Hvisit as (_ & _ & Hmeasure).
    apply IH. simpl in Hfuel. lia.
Qed.

(** The leveling loop of the effect ends, for every graph. *)
Lemma searchLevels_terminates (nodes : list StoryNode.t) links :
  is_Some (searchLevels nodes links).
Proof.
  unfold searchLevels. apply bfs_terminates.
  unfold initialQueue. rewrite length_map.
  pose proof (unseen_le_length links (initialVisited (startNodes nodes links))). lia.
Qed.

Lemma defaultLevels_keeps (nodes : list StoryNode.t) levels (k : string) (v : nat) :
  levels !! k = Some v → defaultLevels nodes levels !! k = Some v.
Proof.
  unfold defaultLevels. revert levels.
  induction nodes as [|m nodes IH]; intros levels Hk; simpl; [done|].
  apply IH. destruct (PlainObject.get levels (StoryNode.id m)) eqn:Hm; try done.
  apply get_undefined in Hm as [Hm _].
  rewrite lookup_set_ne; [done|]. congruence.
Qed.

Lemma defaultLevels_cons (m : StoryNode.t) (nodes : list StoryNode.t) levels :
  defaultLevels (m :: nodes) levels
  = defaultLevels nodes
      (match PlainObject.get levels (StoryNode.id m) with
       | PlainObject.Undefined => PlainObject.set (StoryNode.id m) 0 levels
       | _ => levels
       end).
Proof. reflexivity. Qed.

(** A node whose id is no inherited name gets level 0 when the search
    gave it none. *)
Lemma defaultLevels_fills (nodes : list StoryNode.t) levels (n : StoryNode.t) :
  n ∈ nodes → levels !! StoryNode.id n = None →
  StoryNode.id n ∉ PlainObject.inherited →
  defaultLevels nodes levels !! StoryNode.id n = Some 0.
Proof.
  revert levels. induction nodes as [|m nodes IH]; intros levels Hn Hnone Hid.
  - by apply elem_of_nil in Hn.
  - rewrite defaultLevels_cons.
    assert (Hproto : StoryNode.id n ≠ "__proto__").
    { intros Heq. apply Hid. rewrite Heq. apply proto_is_inherited. }
    destruct (decide (StoryNode.id m = StoryNode.id n)) as [Heq|Hne].
    + apply defaultLevels_keeps. rewrite Heq.
      rewrite (proj2 (get_undefined levels (StoryNode.id n))) by done.
      by apply lookup_set_eq.
    + apply elem_of_cons in Hn as [->|Hn]; [done|].
      apply IH; [done| |done].
      destruct (PlainObject.get levels (StoryNode.id m)); try done.
      by rewrite lookup_set_ne.
Qed.

(** An inherited name that the search gave no level gets none: the test
    for [undefined] finds the inherited member. *)
Lemma defaultLevels_skips (nodes : list StoryNode.t) levels (k : string) :
  k ∈ PlainObject.inherited → levels !! k = None →
  defaultLevels nodes levels !! k = None.
Proof.
  intros Hk. revert levels. induction nodes as [|m nodes IH]; intros levels Hnone; [done|].
  rewrite defaultLevels_cons. apply IH.
  destruct (PlainObject.get levels (StoryNode.id m)) eqn:Hm; try done.
  apply get_undefined in Hm as [_ Hm].
  rewrite lookup_set_ne; [done|]. intros Heq. apply Hm. by rewrite Heq.
Qed.

Lemma defaultLevels_total (nodes : list StoryNode.t) levels (n : StoryNode.t) :
  n ∈ nodes → StoryNode.id n ∉ PlainObject.inherited →
  is_Some (defaultLevels nodes levels !! StoryNode.id n).
Proof.
  intros Hn Hid. destruct (levels !! StoryNode.id n) as [v|] eqn:Hv.
  - exists v. by apply defaultLevels_keeps.
  - exists 0. by apply defaultLevels_fills.
Qed.

Lemma levelsOf_total (nodes : list StoryNode.t) links (n : StoryNode.t) :
  n ∈ nodes → StoryNode.id n ∉ PlainObject.inherited →
  is_Some (levelsOf nodes links !! StoryNode.id n).
Proof.
  intros Hn Hid. unfold levelsOf, nodeLevels.
  destruct (searchLevels_terminates nodes links) as [searched ->]. cbn.
  by apply defaultLevels_total.
Qed.

(** C5 on the code: two nodes, each with a link to itself, so that no
    node is without an incoming link; the second node's id is
    [constructor]. The first node is the only start, the search ends and
    does not reach the second node. The final pass then finds that
    [nodeLevels["constructor"]] is not [undefined], because every object
    inherits a member of that name, and assigns no level: the node is left
    without one, and what is read as its level is the inherited member. *)
Theorem inherited_id_is_left_without_level :
  let nodes := [StoryNode.mk "a" "A" ""; StoryNode.mk "constructor" "C" ""] in
  let links := [StoryLink.mk "l1" "a" "a" "stay";
                StoryLink.mk "l2" "constructor" "constructor" "stay"] in
  (∀ n, n ∈ nodes →
        isZero (PlainObject.get (incomingCount nodes links) (StoryNode.id n)) = false)
  ∧ startNodes nodes links = [StoryNode.mk "a" "A" ""]
  ∧ ∃ searched final,
      searchLevels nodes links = Some searched
      ∧ searched !! "constructor" = None
      ∧ nodeLevels nodes links = Some final
      ∧ final !! "a" = Some 0
      ∧ final !! "constructor" = None
      ∧ PlainObject.get final "constructor" = PlainObject.Inherited "constructor".
Proof.
  cbn zeta. split_and!.
  - intros n Hn. apply list_elem_of_In in Hn. simpl in Hn.
    destruct Hn as [<-|[<-|[]]]; vm_compute; reflexivity.
  - vm_compute. reflexivity.
  - eexists. eexists. split; [vm_compute; reflexivity|].
    split; [vm_compute; reflexivity|].
    split; [vm_compute; reflexivity|].
    split_and!; vm_compute; reflexivity.
Qed.

End Topology.

(* ================================================================== *)
(** * Properties of the layout initialisation *)

Section Layout.

Import GraphVisualizer.
Local Open Scope Q_scope.

(** The levels of the chain A -> B -> C. *)
Example levels_of_a_chain :
  let nodes := [StoryNode.mk "A" "" ""; StoryNode.mk "B" "" ""; StoryNode.mk "C" "" ""] in
  let links := [StoryLink.mk "l1" "A" "B" "x"; StoryLink.mk "l2" "B" "C" "y"] in
  (levelsOf nodes links !! "A", levelsOf nodes links !! "B", levelsOf nodes links !! "C")
  = (Some 0%nat, Some 1%nat, Some 2%nat).
Proof. vm_compute. reflexivity. Qed.

(** C6 on the code: in the same story, laid out with an empty cache, the
    node whose id is [constructor] has the inherited member as its level,
    and [level * 200 + 100] is then not a number: the node is given no
    horizontal position at all. *)
Theorem inherited_id_is_placed_nowhere :
  let nodes := [StoryNode.mk "a" "A" ""; StoryNode.mk "constructor" "C" ""] in
  let links := [StoryLink.mk "l1" "a" "a" "stay";
                StoryLink.mk "l2" "constructor" "constructor" "stay"] in
  ∃ d,
    d3Nodes ∅ false 600 (λ _, 1 # 2) nodes links !! 1%nat = Some d
    ∧ D3Node.story d = StoryNode.mk "constructor" "C" ""
    ∧ D3Node.level d = PlainObject.Inherited "constructor"
    ∧ D3Node.x d = NaN
    ∧ ∀ level : nat, D3Node.x d ≠ Real (inject_Z (Z.of_nat level) * 200 + 100).
Proof.
  cbn zeta. eexists. split; [vm_compute; reflexivity|].
  split_and!; try reflexivity. intros level. discriminate.
Qed.

(** X29. Layout initialisation gives the [i]-th node its cached
    coordinates when the cache has an entry for its id. Without an entry
    the node is put within 50 units of the vertical centre, whatever
    [Math.random()] (a value in [0, 1)) returns, and at [level * 200 + 100]
    horizontally, where its level is the one the leveling assigned; it has
    such a level whenever its id is not the name of a member that every
    object inherits. When every node is cached, the outcome does not depend
    on the random values at all. *)
Theorem d3Nodes_reuse_cached_positions
    (cache : gmap string Position) (isFixed : bool) (height : Q) (random : nat → Q)
    (nodes : list StoryNode.t) (links : list StoryLink.t) (i : nat) (n : StoryNode.t) :
  nodes !! i = Some n →
  0 <= random i < 1 →
  ∃ d,
    d3Nodes cache isFixed height random nodes links !! i = Some d
    ∧ D3Node.story d = n
    ∧ (∀ c, cache !! StoryNode.id n = Some c →
            D3Node.x d = pos_x c ∧ D3Node.y d = pos_y c)
    ∧ (cache !! StoryNode.id n = None →
         (∀ level, levelsOf nodes links !! StoryNode.id n = Some level →
            D3Node.x d = Real (inject_Z (Z.of_nat level) * 200 + 100))
         ∧ (StoryNode.id n ∉ PlainObject.inherited →
              is_Some (levelsOf nodes links !! StoryNode.id n))
         ∧ ∃ y, D3Node.y d = Real y ∧ height / 2 - 50 <= y < height / 2 + 50)
    ∧ ((∀ m, m ∈ nodes → is_Some (cache !! StoryNode.id m)) →
         ∀ random', d3Nodes cache isFixed height random' nodes links
                    = d3Nodes cache isFixed height random nodes links).
Proof.
  intros Hi Hrandom. unfold d3Nodes. eexists. split_and!.
  - rewrite list_lookup_imap, Hi. reflexivity.
  - reflexivity.
  - intros c Hc. unfold d3Node; cbn [D3Node.x D3Node.y]. by rewrite Hc.
  - intros Hnone. unfold d3Node; cbn [D3Node.x D3Node.y]. rewrite Hnone.
    split_and!.
    + intros level Hlevel. by rewrite (get_own _ _ _ Hlevel).
    + intros Hid. apply levelsOf_total; [|done]. by eapply list_elem_of_lookup_2.
    + eexists. split; [reflexivity|]. lra.
  - intros Hwarm random'. apply imap_ext. intros j m Hj.
    destruct (Hwarm m) as [c Hc]; [by eapply list_elem_of_lookup_2|].
    unfold d3Node. by rewrite Hc.
Qed.

Lemma d3Nodes_reuse_cached_positions_witness :
  ∃ d,
    d3Nodes {[ "1" := mkPosition 320 240 None None ]} false 600 (λ _, 1 # 4)
            [StoryNode.mk "1" "Start" ""] [] !! 0%nat = Some d
    ∧ D3Node.x d = Real 320 ∧ D3Node.y d = Real 240.
Proof.
  destruct (d3Nodes_reuse_cached_positions
              {[ "1" := mkPosition 320 240 None None ]} false 600 (λ _, 1 # 4)
              [StoryNode.mk "1" "Start" ""] [] 0 (StoryNode.mk "1" "Start" ""))
    as (d & Hd & _ & Hcached & _).
  - reflexivity.
  - split; [discriminate|reflexivity].
  - exists d. split; [exact Hd|].
    apply (Hcached (mkPosition 320 240 None None)). reflexivity.
Defined.

End Layout.

(** Unfolds the handler of every event of the visualiser down to the
    state it builds, and splits on what the handler tests. *)
Ltac handlers :=
  unfold GraphVisualizer.render, GraphVisualizer.toggleFixedMode, GraphVisualizer.rerun,
         GraphVisualizer.effect, GraphVisualizer.cleanup, GraphVisualizer.tick,
         GraphVisualizer.orphanTick, GraphVisualizer.timeout, GraphVisualizer.onDragStart,
         GraphVisualizer.onDrag, GraphVisualizer.onDragEnd, GraphVisualizer.wheeled,
         GraphVisualizer.panned, GraphVisualizer.handleZoomIn, GraphVisualizer.handleZoomOut,
         GraphVisualizer.handleCenter, GraphVisualizer.zoomTo, GraphVisualizer.withSimulation;
  cbn [GraphVisualizer.props GraphVisualizer.isFixed GraphVisualizer.nodePositionsRef
       GraphVisualizer.svg GraphVisualizer.zoomState GraphVisualizer.simulation
       GraphVisualizer.running GraphVisualizer.drawnFixed GraphVisualizer.hasCleanup
       GraphVisualizer.timer GraphVisualizer.orphans GraphVisualizer.autoFits
       GraphVisualizer.crashed];
  repeat match goal with
         | |- context [match ?x with _ => _ end] => destruct x eqn:?
         end;
  cbn [GraphVisualizer.props GraphVisualizer.isFixed GraphVisualizer.nodePositionsRef
       GraphVisualizer.svg GraphVisualizer.zoomState GraphVisualizer.simulation
       GraphVisualizer.running GraphVisualizer.drawnFixed GraphVisualizer.hasCleanup
       GraphVisualizer.timer GraphVisualizer.orphans GraphVisualizer.autoFits
       GraphVisualizer.crashed].

(* ================================================================== *)
(** * Properties of the mounted component: cache, timer and viewport *)

Section Component.

Import GraphVisualizer.
Local Open Scope Q_scope.

(** ** The position cache only grows *)

Definition cached (st : State) : Prop := nodePositionsRef st ≠ ∅.

(** Every link of the props joins two nodes of the props. *)
Definition resolved (p : Props) : Prop :=
  forceLinkFinds (nodes p) (links p) = true.

Lemma size_positive_iff_cached (st : State) :
  (0 <? size (nodePositionsRef st))%nat = true ↔ cached st.
Proof.
  unfold cached. rewrite Nat.ltb_lt.
  destruct (decide (nodePositionsRef st = ∅)) as [->|Hne].
  - rewrite map_size_empty. split; [lia|done].
  - split; [done|]. intros _. apply map_size_non_empty_iff in Hne. lia.
Qed.

Lemma cacheWrite_non_empty (d : D3Node.t) (cache : gmap string Position) :
  cacheWrite d cache ≠ ∅.
Proof. apply insert_non_empty. Qed.

Lemma cacheWrites_keep_entries (l : list D3Node.t) (cache : gmap string Position) :
  cache ≠ ∅ → foldl (λ cache d, cacheWrite d cache) cache l ≠ ∅.
Proof.
  revert cache. induction l as [|d l IH]; intros cache Hne; simpl; [done|].
  apply IH, cacheWrite_non_empty.
Qed.

Lemma cacheWrites_fill (l : list D3Node.t) (cache : gmap string Position) :
  l ≠ [] → foldl (λ cache d, cacheWrite d cache) cache l ≠ ∅.
Proof.
  destruct l as [|d l]; [done|]. intros _. simpl.
  apply cacheWrites_keep_entries, cacheWrite_non_empty.
Qed.

(** No event ever empties the cache. *)
Lemma step_keeps_cached (st : State) (e : Event) : cached st → cached (step st e).
Proof.
  unfold cached, step. intros Hne. destruct (crashed st); [done|].
  destruct e; handlers; try done.
  - by apply cacheWrites_keep_entries.
  - by apply cacheWrites_keep_entries.
  - apply cacheWrite_non_empty.
Qed.

Lemma run_keeps_cached (events : list Event) (st : State) :
  cached st → cached (run st events).
Proof.
  revert st. induction events as [|e events IH]; intros st Hc; simpl; [done|].
  apply IH. by apply step_keeps_cached.
Qed.

(** ** The auto-centre timeout *)

(** With an entry in the cache the timeout only disarms itself: view,
    scene and cache stay as they are. *)
Lemma timeout_skips_when_cached (bounds : BBox) (clientWidth clientHeight : Q) (st : State) :
  cached st →
  timeout bounds clientWidth clientHeight st
  = mkState (props st) (isFixed st) (nodePositionsRef st) (svg st) (zoomState st)
            (simulation st) (running st) (drawnFixed st) (hasCleanup st) false
            (orphans st) (autoFits st) (crashed st).
Proof.
  intros Hc. unfold timeout. destruct (timer st) eqn:Htimer.
  - cbn [nodePositionsRef]. by rewrite (proj2 (size_positive_iff_cached st) Hc).
  - destruct st. simpl in *. by subst.
Qed.

(** With an empty cache a pending timeout moves the view to the computed
    fit, also on the content group, and is counted. *)
Lemma timeout_fits_when_cache_empty (bounds : BBox) (clientWidth clientHeight : Q) (st : State) :
  timer st = true → nodePositionsRef st = ∅ →
  zoomState (timeout bounds clientWidth clientHeight st)
    = Some (autoCenter bounds clientWidth clientHeight)
  ∧ svg (timeout bounds clientWidth clientHeight st)
    = setGroupTransform (autoCenter bounds clientWidth clientHeight) (svg st)
  ∧ autoFits (timeout bounds clientWidth clientHeight st) = S (autoFits st).
Proof.
  intros Htimer Hempty. unfold timeout. rewrite Htimer.
  cbn [nodePositionsRef]. rewrite Hempty, map_size_empty. done.
Qed.

(** The events that are not gestures or buttons of the viewport. *)
Definition layout_event (e : Event) : bool :=
  match e with
  | Render _ _ _ | ToggleFixedMode _ _ | Tick _ | OrphanTick _ _ | Timeout _ _ _
  | DragStart _ | Drag _ _ _ | DragEnd _ => true
  | Wheel _ _ | Pan _ _ | ZoomIn _ _ | ZoomOut _ _ | Center => false
  end.

(** A run of the effect keeps the view, unless it throws: then the
    element is gone, and with it the transform stored on it. *)
Lemma rerun_view (height : Q) (random : nat → Q) (st : State) :
  autoFits (rerun height random st) = autoFits st
  ∧ nodePositionsRef (rerun height random st) = nodePositionsRef st
  ∧ (currentTransform (rerun height random st) = currentTransform st
     ∨ currentTransform (rerun height random st) = D3Zoom.zoomIdentity).
Proof.
  unfold rerun, effect, cleanup.
  destruct (hasCleanup st); cbn [props zoomState];
    destruct (nodes (props st)); [by auto| |by auto|];
    destruct (forceLinkFinds _ _); cbn; auto.
Qed.

Lemma step_cached_keeps_fits (st : State) (e : Event) :
  cached st → autoFits (step st e) = autoFits st.
Proof.
  intros Hc. unfold step. destruct (crashed st); [done|]. destruct e.
  - unfold render. exact (proj1 (rerun_view height random _)).
  - unfold toggleFixedMode. exact (proj1 (rerun_view height random _)).
  - unfold tick. by destruct (running st).
  - unfold orphanTick. by destruct (orphans st !! j).
  - by rewrite timeout_skips_when_cached.
  - unfold onDragStart. by destruct (simulation st !! i).
  - done.
  - unfold onDragEnd. by destruct (simulation st !! i).
  - unfold wheeled. by destruct (zoomState st).
  - unfold panned. by destruct (zoomState st).
  - done.
  - done.
  - unfold handleCenter. by destruct (nodes (props st)).
Qed.

(** A layout event of a mounted component whose cache holds a position
    leaves the view alone, as long as the effect does not throw. *)
Lemma step_cached_keeps_view (st : State) (e : Event) :
  cached st → layout_event e = true → crashed (step st e) = false →
  currentTransform (step st e) = currentTransform st.
Proof.
  intros Hc He. unfold step. destruct (crashed st) eqn:Hcr; [done|].
  destruct e; try discriminate He.
  - unfold render, rerun, effect, cleanup. cbn [props hasCleanup].
    destruct (hasCleanup st); cbn [props];
      destruct (nodes p); try done; destruct (forceLinkFinds _ _); done.
  - unfold toggleFixedMode, rerun, effect, cleanup. cbn [props hasCleanup].
    destruct (hasCleanup st); cbn [props];
      destruct (nodes (props st)); try done; destruct (forceLinkFinds _ _); done.
  - unfold tick. by destruct (running st).
  - unfold orphanTick. by destruct (orphans st !! j).
  - by rewrite timeout_skips_when_cached.
  - unfold onDragStart. by destruct (simulation st !! i).
  - done.
  - unfold onDragEnd. by destruct (simulation st !! i).
Qed.

Lemma step_crashed (st : State) (e : Event) : crashed st = true → step st e = st.
Proof. intros Hcr. unfold step. by rewrite Hcr. Qed.

Lemma run_crashed (events : list Event) (st : State) :
  crashed st = true → run st events = st.
Proof.
  induction events as [|e events IH]; intros Hcr; [done|].
  simpl. rewrite step_crashed by done. by apply IH.
Qed.

(** Once a position is cached, no sequence of re-layouts, ticks, timeouts
    and drags runs the auto-fit, and none moves the view as long as the
    page stays mounted. *)
Lemma cached_runs_keep_view (events : list Event) (st : State) :
  cached st → forallb layout_event events = true →
  autoFits (run st events) = autoFits st
  ∧ (crashed (run st events) = false →
       currentTransform (run st events) = currentTransform st).
Proof.
  revert st. induction events as [|e events IH]; intros st Hc Hev; simpl; [done|].
  simpl in Hev. apply andb_true_iff in Hev as [He Hev].
  destruct (IH (step st e)) as [Ha Ht]; [by apply step_keeps_cached|done|].
  split.
  - rewrite Ha. by apply step_cached_keeps_fits.
  - intros Hmounted.
    destruct (crashed (step st e)) eqn:Hcr.
    + rewrite run_crashed in Hmounted by done. congruence.
    + rewrite Ht by done. by apply step_cached_keeps_view.
Qed.

(** The fit the timeout computes: the content box, scaled, takes at
    most 90% of the view in each direction and exactly 90% in one, and its
    centre lands on the centre of the view. *)
Lemma autoCenter_fits (bounds : BBox) (clientWidth clientHeight : Q) :
  0 < bbox_width bounds → 0 < bbox_height bounds →
  0 < clientWidth → 0 < clientHeight →
  let t := autoCenter bounds clientWidth clientHeight in
  tk t * bbox_width bounds <= (9 # 10) * clientWidth
  ∧ tk t * bbox_height bounds <= (9 # 10) * clientHeight
  ∧ (tk t * bbox_width bounds == (9 # 10) * clientWidth
     ∨ tk t * bbox_height bounds == (9 # 10) * clientHeight)
  ∧ tk t * (bbox_x bounds + bbox_width bounds / 2) + tx t == clientWidth / 2
  ∧ tk t * (bbox_y bounds + bbox_height bounds / 2) + ty t == clientHeight / 2.
Proof.
  intros Hw Hh Hcw Hch. unfold autoCenter.
  assert (Qeq_bool clientWidth 0 = false) as ->.
  { apply not_true_iff_false. rewrite Qeq_bool_iff. lra. }
  assert (Qeq_bool clientHeight 0 = false) as ->.
  { apply not_true_iff_false. rewrite Qeq_bool_iff. lra. }
  cbn [tk tx ty].
  set (a := bbox_width bounds / clientWidth).
  set (b := bbox_height bounds / clientHeight).
  assert (Ha : 0 < a) by (apply Qlt_shift_div_l; lra).
  assert (Hb : 0 < b) by (apply Qlt_shift_div_l; lra).
  assert (Hwa : bbox_width bounds == a * clientWidth) by (unfold a; field; lra).
  assert (Hhb : bbox_height bounds == b * clientHeight) by (unfold b; field; lra).
  assert (Hm : 0 < Qmax a b) by (pose proof (Q.le_max_l a b); lra).
  assert (Hscale : ∀ c, c <= Qmax a b →
            (9 # 10) / Qmax a b * (c * clientWidth) <= (9 # 10) * clientWidth
            ∧ (9 # 10) / Qmax a b * (c * clientHeight) <= (9 # 10) * clientHeight).
  { intros c Hc. split.
    - setoid_replace ((9 # 10) / Qmax a b * (c * clientWidth))
        with ((9 # 10) * clientWidth * c / Qmax a b) using relation Qeq by (field; lra).
      apply Qle_shift_div_r; [done|]. nra.
    - setoid_replace ((9 # 10) / Qmax a b * (c * clientHeight))
        with ((9 # 10) * clientHeight * c / Qmax a b) using relation Qeq by (field; lra).
      apply Qle_shift_div_r; [done|]. nra. }
  split_and!.
  - rewrite Hwa. apply Hscale, Q.le_max_l.
  - rewrite Hhb. apply Hscale, Q.le_max_r.
  - destruct (Q.max_spec a b) as [[_ Hmax]|[_ Hmax]].
    + right. rewrite Hhb, Hmax. field. lra.
    + left. rewrite Hwa, Hmax. field. lra.
  - ring.
  - ring.
Qed.

(** What a run of the effect that draws leaves behind. *)
Lemma effect_draws (height : Q) (random : nat → Q) (st : State) :
  nodes (props st) ≠ [] → resolved (props st) →
  effect height random st
  = mkState (props st) (isFixed st) (nodePositionsRef st) [Defs; Group None]
            (Some (currentTransform st))
            (forceSimulation
               (d3Nodes (nodePositionsRef st) (isFixed st) height random
                        (nodes (props st)) (links (props st))))
            true (isFixed st) true true
            (if running st then orphans st ++ [simulation st] else orphans st)
            (autoFits st) (crashed st).
Proof.
  intros Hn Hr. unfold effect. destruct (nodes (props st)) eqn:Hnodes; [done|].
  unfold resolved in Hr. rewrite Hnodes in Hr. by rewrite Hr.
Qed.

(** A re-layout of a story with nodes, all links of which join nodes,
    keeps the transform d3 stores on the element, and draws a fresh content
    group on which no transform has been set yet (the source skips
    re-applying the stored one). *)
Lemma render_keeps_stored_transform (p : Props) (height : Q) (random : nat → Q)
    (st : State) :
  nodes p ≠ [] → resolved p →
  zoomState (render p height random st) = Some (currentTransform st)
  ∧ svg (render p height random st) = [Defs; Group None].
Proof.
  intros Hp Hr. unfold render, rerun. cbn [hasCleanup].
  destruct (hasCleanup st); rewrite effect_draws by done; done.
Qed.

(** ** First load *)

(** The component after its first effect. *)
Definition firstRender (p : Props) (height : Q) (random : nat → Q) : State :=
  effect height random (mount p).

Lemma forceSimulation_length (l : list D3Node.t) : length (forceSimulation l) = length l.
Proof. unfold forceSimulation. apply length_imap. Qed.

Lemma d3Nodes_length cache isFixed height random (ns : list StoryNode.t) ls :
  length (d3Nodes cache isFixed height random ns ls) = length ns.
Proof. unfold d3Nodes. apply length_imap. Qed.

Lemma firstRender_state (p : Props) (height : Q) (random : nat → Q) :
  nodes p ≠ [] → resolved p →
  nodePositionsRef (firstRender p height random) = ∅
  ∧ simulation (firstRender p height random) ≠ []
  ∧ running (firstRender p height random) = true
  ∧ timer (firstRender p height random) = true
  ∧ zoomState (firstRender p height random) = Some D3Zoom.zoomIdentity
  ∧ svg (firstRender p height random) = [Defs; Group None]
  ∧ autoFits (firstRender p height random) = 0%nat
  ∧ crashed (firstRender p height random) = false.
Proof.
  intros Hp Hr. unfold firstRender. rewrite effect_draws by done.
  cbn [nodePositionsRef simulation running timer zoomState svg autoFits crashed mount props
       isFixed].
  split_and!; try reflexivity.
  intros Hnil. apply (f_equal length) in Hnil.
  rewrite forceSimulation_length, d3Nodes_length in Hnil.
  destruct (nodes p); [done|discriminate].
Qed.

(** When a simulation tick comes before the timeout, which is the order
    in which the browser delivers them (the simulation ticks on every
    animation frame, the timeout is set to 500 ms), the first tick fills
    the cache and the timeout returns at its guard: the view is never
    fitted. *)
Lemma tick_before_timeout_suppresses_auto_fit
    (p : Props) (height : Q) (random : nat → Q) (forces : D3Node.t → Coordinate * Coordinate)
    (bounds : BBox) (clientWidth clientHeight : Q) (later : list Event) :
  nodes p ≠ [] → resolved p →
  forallb layout_event later = true →
  let st := run (firstRender p height random)
                (Tick forces :: Timeout bounds clientWidth clientHeight :: later) in
  autoFits st = 0%nat
  ∧ (crashed st = false → currentTransform st = D3Zoom.zoomIdentity).
Proof.
  intros Hp Hr Hlater.
  destruct (firstRender_state p height random Hp Hr)
    as (Hcache & Hsim & Hrun & Htimer & Hzoom & _ & Hfits & Hcr).
  cbn zeta. change (run ?s (?e :: ?l)) with (run (step s e) l).
  set (st1 := step (firstRender p height random) (Tick forces)).
  assert (Hst1 : st1 = tick forces (firstRender p height random)).
  { unfold st1, step. by rewrite Hcr. }
  assert (Hc1 : cached st1).
  { rewrite Hst1. unfold cached, tick. rewrite Hrun. cbn [nodePositionsRef].
    apply cacheWrites_fill. destruct (simulation _); [done|]. discriminate. }
  assert (Hview1 : currentTransform st1 = D3Zoom.zoomIdentity ∧ autoFits st1 = 0%nat).
  { rewrite Hst1. unfold tick. rewrite Hrun.
    unfold currentTransform; cbn [zoomState autoFits]. by rewrite Hzoom. }
  destruct (cached_runs_keep_view (Timeout bounds clientWidth clientHeight :: later) st1 Hc1)
    as [Ha Ht]; [done|].
  destruct Hview1 as [Ht1 Ha1]. split; [congruence|].
  intros Hmounted. rewrite Ht by done. done.
Qed.

(** Only when the timeout comes first does the fit happen. *)
Lemma timeout_before_tick_auto_fits
    (p : Props) (height : Q) (random : nat → Q) (bounds : BBox)
    (clientWidth clientHeight : Q) :
  nodes p ≠ [] → resolved p →
  let st := run (firstRender p height random) [Timeout bounds clientWidth clientHeight] in
  autoFits st = 1%nat
  ∧ zoomState st = Some (autoCenter bounds clientWidth clientHeight)
  ∧ svg st = [Defs; Group (Some (autoCenter bounds clientWidth clientHeight))].
Proof.
  intros Hp Hr.
  destruct (firstRender_state p height random Hp Hr)
    as (Hcache & _ & _ & Htimer & _ & Hsvg & Hfits & Hcr).
  destruct (timeout_fits_when_cache_empty bounds clientWidth clientHeight
              (firstRender p height random) Htimer Hcache) as (Hz & Hs & Ha).
  simpl. unfold step. rewrite Hcr, Hz, Hs, Ha, Hsvg, Hfits. done.
Qed.

(** C1 on the code: the story the editor starts with is loaded, the
    simulation ticks once, then the 500 ms timeout fires. The tick has
    cached the three nodes, so the timeout does not fit the view: the
    auto-fit has run zero times and the view is still the identity. *)
Theorem first_load_auto_fit_never_runs :
  let st := run (snd (App.load 600 (λ _, 1 # 2)))
                [Tick (λ d, (D3Node.x d, D3Node.y d));
                 Timeout (mkBBox 76 226 248 148) 800 600] in
  size (nodePositionsRef st) = 3%nat
  ∧ timer st = false
  ∧ autoFits st = 0%nat
  ∧ zoomState st = Some D3Zoom.zoomIdentity
  ∧ svg st = [Defs; Group None].
Proof. vm_compute. done. Qed.

End Component.

(* ================================================================== *)
(** * Properties of the image and document export of the page *)

Section PageExport.

Import GraphVisualizer ExportUtils.
Local Open Scope Q_scope.

(** A render with no nodes returns before the SVG is emptied: whatever
    was drawn before stays in the document. *)
Lemma render_without_nodes_keeps_scene (p : Props) (height : Q) (random : nat → Q)
    (st : State) :
  nodes p = [] → svg (render p height random st) = svg st.
Proof.
  intros Hp. unfold render, rerun, effect, cleanup; cbn [props hasCleanup].
  destruct (hasCleanup st); cbn [props]; by rewrite Hp.
Qed.

(** A component that never had a node has an empty SVG, and then both
    exports end in an alert. *)
Lemma export_of_never_rendered_scene_alerts (p : Props) (height : Q) (random : nat → Q)
    (getBBox : BBox) (env : Raster) :
  nodes p = [] →
  App.handleExportImage (Some (svg (effect height random (mount p)))) getBBox env
  = Alerted ("이미지 저장 중 오류가 발생했습니다: "
               +:+ "Graph content not found (no <g> element).")
  ∧ App.handleExportPDF (Some (svg (effect height random (mount p)))) getBBox env
  = Alerted ("PDF 저장 중 오류가 발생했습니다: "
               +:+ "Graph content not found (no <g> element).").
Proof.
  intros Hp. unfold effect, mount; cbn [props]. rewrite Hp. cbn [svg].
  split; reflexivity.
Qed.

(** When the scene holds a content group, every measured box passes the
    size test, so with a working rasteriser both exports download a file,
    whatever the story holds by then. *)
Lemma export_of_drawn_scene_downloads (st : State) (getBBox : BBox) (t : option Transform) :
  querySelector_g (svg st) = Some t →
  0 <= bbox_width getBBox → 0 <= bbox_height getBBox →
  (∃ bitmap, App.handleExportImage (Some (svg st)) getBBox (mkRaster true true)
             = Downloaded (PngFile "story-visual-map.png" bitmap))
  ∧ (∃ doc, App.handleExportPDF (Some (svg st)) getBBox (mkRaster true true)
            = Downloaded (PdfFile "story-visual-map.pdf" doc)).
Proof.
  intros Hg Hw Hh. unfold App.handleExportImage, App.handleExportPDF, downloadImage, downloadPDF.
  rewrite (svgToCanvas_resolves _ _ _ _ Hg Hw Hh). split; eexists; reflexivity.
Qed.

(** C2 on the code: the three nodes of the initial story are deleted one
    by one. The story then has zero nodes, but the last render returned
    before clearing the SVG, so the drawing of the last node is still in
    the document; the image export and the document export both download a
    file instead of failing. *)
Theorem export_of_emptied_story_downloads :
  let page :=
    App.update (App.handleDeleteNode "3") 600 (λ _, 1 # 2)
      (App.update (App.handleDeleteNode "2") 600 (λ _, 1 # 2)
         (App.update (App.handleDeleteNode "1") 600 (λ _, 1 # 2)
            (App.load 600 (λ _, 1 # 2)))) in
  App.nodes (fst page) = []
  ∧ svg (snd page) = [Defs; Group None]
  ∧ App.exportImage page (mkBBox 76 262 48 62) (mkRaster true true)
    = Downloaded (PngFile "story-visual-map.png"
                    (mkCanvas 296 324 (mkBBox (76 - 50) (262 - 50) (48 + 50 * 2) (62 + 50 * 2))))
  ∧ ∃ doc, App.exportPDF page (mkBBox 76 262 48 62) (mkRaster true true)
           = Downloaded (PdfFile "story-visual-map.pdf" doc).
Proof.
  cbn zeta. split_and!.
  - vm_compute. reflexivity.
  - vm_compute. reflexivity.
  - vm_compute. reflexivity.
  - eexists. vm_compute. reflexivity.
Qed.

End PageExport.

(* ================================================================== *)
(** * Properties of the viewport *)

Section Viewport.

Import GraphVisualizer.
Local Open Scope Q_scope.

(** The behaviour the effect installs keeps every scale it computes
    within its extent. *)
Lemma clampScale_zoom (k : Q) : 1 # 10 <= D3Zoom.clampScale zoom k <= 4.
Proof.
  unfold D3Zoom.clampScale, zoom; cbn [D3Zoom.scaleExtent fst snd]. split.
  - apply Q.le_max_l.
  - apply Q.max_lub; [lra|apply Q.le_min_l].
Qed.

Lemma wheeled_scale_in_extent (factor : Q) (p : Q * Q) (st : State) (t : Transform) :
  zoomState st = Some t →
  1 # 10 <= tk (currentTransform (wheeled factor p st)) <= 4.
Proof.
  intros Ht. unfold wheeled. rewrite Ht.
  unfold currentTransform, zoomTo, D3Zoom.scaleTo; cbn [zoomState default tk].
  apply clampScale_zoom.
Qed.

(** A fresh [d3.zoom()] only keeps scales non-negative. *)
Lemma clampScale_fresh (k : Q) : 0 <= k → D3Zoom.clampScale D3Zoom.zoom k == k.
Proof.
  intros Hk. unfold D3Zoom.clampScale, D3Zoom.zoom; cbn [D3Zoom.scaleExtent fst snd].
  by apply Q.max_r.
Qed.

(** The buttons multiply the scale by 1.2 and by 0.8, with no bound. *)
Lemma handleZoomIn_multiplies (width height : Q) (st : State) :
  0 <= tk (currentTransform st) →
  tk (currentTransform (handleZoomIn width height st)) == tk (currentTransform st) * (12 # 10).
Proof.
  intros Hk. unfold handleZoomIn.
  unfold zoomTo, D3Zoom.scaleBy, D3Zoom.scaleTo. unfold currentTransform at 1.
  cbn [zoomState default tk]. apply clampScale_fresh. nra.
Qed.

Lemma handleZoomOut_multiplies (width height : Q) (st : State) :
  0 <= tk (currentTransform st) →
  tk (currentTransform (handleZoomOut width height st)) == tk (currentTransform st) * (8 # 10).
Proof.
  intros Hk. unfold handleZoomOut.
  unfold zoomTo, D3Zoom.scaleBy, D3Zoom.scaleTo. unfold currentTransform at 1.
  cbn [zoomState default tk]. apply clampScale_fresh. nra.
Qed.

(** Reset stores the identity, unless the story has no node. *)
Lemma handleCenter_resets (st : State) :
  nodes (props st) ≠ [] → currentTransform (handleCenter st) = D3Zoom.zoomIdentity.
Proof. intros Hn. unfold handleCenter. by destruct (nodes (props st)). Qed.

Lemma handleCenter_without_nodes (st : State) :
  nodes (props st) = [] → handleCenter st = st.
Proof. intros Hn. unfold handleCenter. by rewrite Hn. Qed.

(** C3 on the code: on the loaded initial story the wheel zooms in, in
    three steps of factor 2, as far as the extent allows, to scale 4; the
    zoom-in button then takes the scale to 4.8. Likewise the wheel zooms
    out to 0.1 and the zoom-out button goes on to 0.08. *)
Theorem zoom_buttons_leave_scale_extent :
  let loaded := snd (App.load 600 (λ _, 1 # 2)) in
  let zoomedIn := run loaded [Wheel 2 (400, 300); Wheel 2 (400, 300); Wheel 2 (400, 300)] in
  let zoomedOut := run loaded [Wheel (1 # 4) (400, 300); Wheel (1 # 4) (400, 300)] in
  tk (currentTransform zoomedIn) == 4
  ∧ tk (currentTransform (step zoomedIn (ZoomIn 800 600))) == 48 # 10
  ∧ ¬ tk (currentTransform (step zoomedIn (ZoomIn 800 600))) <= 4
  ∧ tk (currentTransform zoomedOut) == 1 # 10
  ∧ tk (currentTransform (step zoomedOut (ZoomOut 800 600))) == 8 # 100
  ∧ ¬ 1 # 10 <= tk (currentTransform (step zoomedOut (ZoomOut 800 600))).
Proof.
  cbn zeta. split_and!.
  - vm_compute. reflexivity.
  - vm_compute. reflexivity.
  - intros H. vm_compute in H. by apply H.
  - vm_compute. reflexivity.
  - vm_compute. reflexivity.
  - intros H. vm_compute in H. by apply H.
Qed.

End Viewport.

(* ================================================================== *)
(** * Further properties of the editor handlers *)

Section StoryHandlers.

Import App.

(** Every link starts and ends at a node of the story. *)
Definition linked (st : Story) : Prop :=
  ∀ l, l ∈ links st → StoryLink.source l ∈ ids st ∧ StoryLink.target l ∈ ids st.

Lemma ids_handleDeleteNode (nodeId : string) (st : Story) (i : string) :
  i ∈ ids (handleDeleteNode nodeId st) ↔ i ∈ ids st ∧ i ≠ nodeId.
Proof.
  unfold ids, handleDeleteNode; cbn [nodes].
  rewrite !list_elem_of_fmap. split.
  - intros (n & -> & Hn). apply list_elem_of_filter in Hn as [Hne Hn]. eauto.
  - intros [(n & -> & Hn) Hne]. exists n. split; [done|]. by apply list_elem_of_filter.
Qed.

(** X1. After a node id is deleted no link mentions it and no node
    carries it; a story in which every link joins two of its nodes is
    still such a story afterwards. *)
Theorem handleDeleteNode_leaves_no_reference (nodeId : string) (st : Story) :
  (∀ l, l ∈ links (handleDeleteNode nodeId st) →
        StoryLink.source l ≠ nodeId ∧ StoryLink.target l ≠ nodeId)
  ∧ (nodeId ∉ ids (handleDeleteNode nodeId st))
  ∧ (linked st → linked (handleDeleteNode nodeId st)).
Proof.
  split_and!.
  - intros l Hl. unfold handleDeleteNode in Hl; cbn [links] in Hl.
    by apply list_elem_of_filter in Hl as [? _].
  - rewrite ids_handleDeleteNode. tauto.
  - intros Hlinked l Hl. unfold handleDeleteNode in Hl; cbn [links] in Hl.
    apply list_elem_of_filter in Hl as [[Hs Ht] Hl].
    destruct (Hlinked l Hl). rewrite !ids_handleDeleteNode. tauto.
Qed.

Lemma handleDeleteNode_leaves_no_reference_witness :
  linked (handleDeleteNode "1" initialState).
Proof.
  apply (handleDeleteNode_leaves_no_reference "1" initialState).
  intros l Hl. apply list_elem_of_In in Hl. simpl in Hl.
  destruct Hl as [<-|[<-|[]]]; split; apply (bool_decide_unpack _); vm_compute; exact I.
Defined.

(** X2. Removing the link that [handleAddLink] just made gives back the
    story as it was, provided no older link carries the same
    clock-reading id; otherwise those older links are removed with it. *)
Theorem handleRemoveLink_undoes_handleAddLink
    (now : Z) (sourceId targetId label : string) (st : Story) :
  (∀ l, l ∈ links st → StoryLink.id l ≠ timestamp_id now) →
  handleRemoveLink (timestamp_id now) (handleAddLink now sourceId targetId label st) = st.
Proof.
  intros Hfresh. destruct st as [ns ls sel].
  unfold handleRemoveLink, handleAddLink; cbn [nodes links selectedNodeId] in *.
  f_equal. rewrite filter_app, filter_keeps_all by done.
  rewrite filter_cons_False by (simpl; tauto). by rewrite app_nil_r.
Qed.

Lemma handleRemoveLink_undoes_handleAddLink_witness :
  handleRemoveLink (timestamp_id 1700000000000)
    (handleAddLink 1700000000000 "2" "3" "cross" initialState) = initialState.
Proof.
  apply (handleRemoveLink_undoes_handleAddLink 1700000000000 "2" "3" "cross" initialState).
  intros l Hl. apply list_elem_of_In in Hl. simpl in Hl.
  destruct Hl as [<-|[<-|[]]]; vm_compute; discriminate.
Defined.

Lemma find_by_id_first (nodes : list StoryNode.t) (key : string) :
  List.find (λ n, String.eqb (StoryNode.id n) key) nodes
  = head (filter (λ n, StoryNode.id n = key) nodes).
Proof.
  induction nodes as [|n nodes IH]; [done|]. simpl. rewrite filter_cons.
  destruct (String.eqb_spec (StoryNode.id n) key); case_decide; try done.
Qed.

Lemma find_by_id_none (nodes : list StoryNode.t) (key : string) :
  key ∉ StoryNode.id <$> nodes →
  List.find (λ n, String.eqb (StoryNode.id n) key) nodes = None.
Proof.
  intros Hkey. apply find_no_match. intros n Hn. apply String.eqb_neq.
  intros <-. apply Hkey. by apply list_elem_of_fmap_2.
Qed.

Lemma find_by_id_some (nodes : list StoryNode.t) (key : string) :
  key ∈ StoryNode.id <$> nodes →
  ∃ n, List.find (λ n, String.eqb (StoryNode.id n) key) nodes = Some n
       ∧ n ∈ nodes ∧ StoryNode.id n = key.
Proof.
  induction nodes as [|m nodes IH]; intros Hkey; [by apply elem_of_nil in Hkey|].
  simpl. destruct (String.eqb_spec (StoryNode.id m) key) as [Heq|Hne].
  - exists m. split_and!; [done|left|done].
  - rewrite fmap_cons in Hkey. apply elem_of_cons in Hkey as [?|Hkey]; [congruence|].
    destruct (IH Hkey) as (n & Hfind & Hn & Hid). exists n. split_and!; [done|by right|done].
Qed.

(** X3. An update whose id no node carries changes nothing; updating
    twice is the same as once; and when the updated id is the selected one
    and a node carries it, the node the panel then shows is the updated
    node. *)
Theorem handleUpdateNode_by_id (updatedNode : StoryNode.t) (st : Story) :
  (StoryNode.id updatedNode ∉ ids st → handleUpdateNode updatedNode st = st)
  ∧ handleUpdateNode updatedNode (handleUpdateNode updatedNode st)
    = handleUpdateNode updatedNode st
  ∧ (StoryNode.id updatedNode ∈ ids st →
     selectedNodeId st = Some (StoryNode.id updatedNode) →
     selectedNode (handleUpdateNode updatedNode st) = Some updatedNode).
Proof.
  destruct st as [ns ls sel]. unfold handleUpdateNode, ids; cbn [nodes links selectedNodeId].
  split_and!.
  - intros Habsent. f_equal. induction ns as [|n ns IH]; [done|]. simpl.
    rewrite fmap_cons in Habsent. apply not_elem_of_cons in Habsent as [Hne Habsent].
    rewrite IH by done.
    by destruct (String.eqb_spec (StoryNode.id n) (StoryNode.id updatedNode)); [congruence|].
  - f_equal. rewrite map_map. apply map_ext. intros n.
    destruct (String.eqb_spec (StoryNode.id n) (StoryNode.id updatedNode)) as [Heq|Hne].
    + by rewrite String.eqb_refl.
    + by rewrite (proj2 (String.eqb_neq _ _) Hne).
  - intros Hpresent ->. unfold selectedNode; cbn [nodes selectedNodeId].
    induction ns as [|n ns IH]; [by apply elem_of_nil in Hpresent|]. simpl.
    destruct (String.eqb_spec (StoryNode.id n) (StoryNode.id updatedNode)) as [Heq|Hne].
    + by rewrite String.eqb_refl.
    + rewrite (proj2 (String.eqb_neq _ _) Hne). apply IH.
      rewrite fmap_cons in Hpresent. apply elem_of_cons in Hpresent as [?|?]; [congruence|done].
Qed.

Lemma handleUpdateNode_by_id_witness :
  selectedNode (handleUpdateNode (StoryNode.mk "2" "Forest" "Dark.")
                  (mkState initialNodes initialLinks (Some "2")))
  = Some (StoryNode.mk "2" "Forest" "Dark.").
Proof.
  apply (handleUpdateNode_by_id (StoryNode.mk "2" "Forest" "Dark.")
           (mkState initialNodes initialLinks (Some "2"))).
  - apply (bool_decide_unpack _). vm_compute. exact I.
  - reflexivity.
Defined.

(** X4. Creating a node appends it after the existing nodes, leaves the
    links alone and selects its id. The panel then shows the new node when
    that id is new to the story; when an older node already carries the id,
    the panel shows that older node instead. *)
Theorem handleCreateNode_selection (now : Z) (title content : option string) (st : Story) :
  let newNode := StoryNode.mk (timestamp_id now) (default "새 장면" title) (default "" content) in
  nodes (handleCreateNode now title content st) = nodes st ++ [newNode]
  ∧ links (handleCreateNode now title content st) = links st
  ∧ (timestamp_id now ∉ ids st →
       selectedNode (handleCreateNode now title content st) = Some newNode)
  ∧ (timestamp_id now ∈ ids st →
       ∃ old, old ∈ nodes st ∧ StoryNode.id old = timestamp_id now
              ∧ selectedNode (handleCreateNode now title content st) = Some old).
Proof.
  cbn zeta. split_and!; try reflexivity.
  - intros Hfresh. unfold selectedNode, handleCreateNode; cbn [nodes selectedNodeId StoryNode.id].
    rewrite find_by_id_first, filter_app, filter_drops_all.
    + rewrite filter_cons_True by done. done.
    + intros n Hn Heq. apply Hfresh. rewrite <- Heq. by apply list_elem_of_fmap_2.
  - intros Hold. destruct (find_by_id_some _ _ Hold) as (old & Hfind & Hin & Hid).
    exists old. split_and!; [done..|].
    unfold selectedNode, handleCreateNode; cbn [nodes selectedNodeId StoryNode.id].
    rewrite find_by_id_first in *. rewrite filter_app.
    destruct (filter _ (nodes st)); [done|]. done.
Qed.

Lemma handleCreateNode_selection_witness :
  selectedNode (handleCreateNode 1700000000000 None None initialState)
  = Some (StoryNode.mk "1700000000000" "새 장면" "").
Proof.
  apply (handleCreateNode_selection 1700000000000 None None initialState).
  apply (bool_decide_unpack _). vm_compute. exact I.
Defined.

(** X5. An import either replaces nodes and links together and clears
    the selection, without an alert, or leaves the whole state as it was;
    in the latter case an alert is shown unless the file had no content,
    and when the text left after stripping the comments does not parse the
    alert quotes the parser's message. *)
Theorem handleFileChange_all_or_nothing (message rawContent : string) (st : RawStory) :
  (∃ data ns ls,
      rawContent ≠ ""
      ∧ JSON.parse (stripComments rawContent) = Some data
      ∧ js_get data "nodes" = Some (JArray ns) ∧ js_get data "links" = Some (JArray ls)
      ∧ handleFileChange message rawContent st = (mkState ns ls None, None))
  ∨ (fst (handleFileChange message rawContent st) = st
     ∧ (snd (handleFileChange message rawContent st) = None ↔ rawContent = "")
     ∧ (rawContent ≠ "" → JSON.parse (stripComments rawContent) = None →
          ∃ text, snd (handleFileChange message rawContent st) = Some text
                  ∧ occurs message text)).
Proof.
  destruct (String.eqb_spec rawContent "") as [->|Hne].
  { right. split_and!; [done|done|]. intros Hne. by destruct Hne. }
  destruct (JSON.parse (stripComments rawContent)) as [data|] eqn:Hparse.
  - rewrite (handleFileChange_parsed message rawContent data st Hparse Hne).
    destruct (truthy data) eqn:Htruthy.
    + destruct (js_get data "nodes") as [[| | | |ns|]|] eqn:Hn; simpl;
        try (right; split_and!; [done|split; [intros [=]|done]|intros _ [=]]).
      destruct (js_get data "links") as [[| | | |ls|]|] eqn:Hl; simpl;
        try (right; split_and!; [done|split; [intros [=]|done]|intros _ [=]]).
      left. by exists data, ns, ls.
    + right. split_and!; [done|split; [intros [=]|done]|intros _ [=]].
  - right. unfold handleFileChange.
    rewrite (proj2 (String.eqb_neq _ _) Hne). cbv zeta. rewrite Hparse. cbn [fst snd].
    split_and!; [done|split; [intros [=]|done]|].
    intros _ _. eexists. split; [done|].
    unfold parseError. apply occurs_later, occurs_later, occurs_here.
Qed.

(** A text without a slash holds no comment, and stripping leaves it as
    it is. *)
Fixpoint slashFree (s : string) : bool :=
  match s with
  | EmptyString => true
  | String c rest => negb (isCode 47 c) && slashFree rest
  end.

Lemma replaceFrom_slashFree (keep : nat) (s : string) :
  slashFree s = true → replaceFrom keep 0 s = s.
Proof.
  revert keep. induction s as [|c s IH]; intros keep Hfree; [done|].
  cbn [slashFree] in Hfree. apply andb_true_iff in Hfree as [Hc Hfree].
  apply negb_true_iff in Hc.
  destruct keep as [|keep].
  - cbn [replaceFrom].
    destruct (matchAt (String c s)) as [[n|n]|] eqn:Hmatch.
    + by rewrite IH.
    + exfalso. unfold matchAt in Hmatch. rewrite Hc in Hmatch.
      destruct (isCode 92 c).
      * destruct s as [|q s']; [done|]. by destruct (isCode 34 q).
      * destruct (isCode 34 c); [|done]. by destruct (stringBody s).
    + by rewrite IH.
  - cbn [replaceFrom]. by rewrite IH.
Qed.

(** X30. For the text of a file without any slash, the import tests the
    shape of what the file holds: when the parsed [nodes] or [links] is not
    an array the file is refused with the alert about the format and the
    story, selection included, stays as it was; when both are arrays they
    replace the story and the selection is cleared. *)
Theorem slash_free_import_checks_shape
    (message rawContent : string) (data : JsValue) (st : RawStory) :
  slashFree rawContent = true →
  JSON.parse rawContent = Some data →
  (¬ array_field data "nodes" ∨ ¬ array_field data "links" →
     handleFileChange message rawContent st = (st, Some shapeError))
  ∧ (∀ ns ls,
       js_get data "nodes" = Some (JArray ns) →
       js_get data "links" = Some (JArray ls) →
       handleFileChange message rawContent st = (mkState ns ls None, None)).
Proof.
  intros Hfree Hparse.
  assert (Hne : rawContent ≠ "") by (intros ->; discriminate Hparse).
  assert (Hstripped : JSON.parse (stripComments rawContent) = Some data).
  { unfold stripComments. by rewrite replaceFrom_slashFree. }
  rewrite (handleFileChange_parsed message rawContent data st Hstripped Hne).
  unfold array_field. split.
  - intros Hbad. destruct (truthy data); [|done].
    destruct Hbad as [Hbad|Hbad]; rewrite (Array_isArray_None _ Hbad);
      [done|by destruct (Array_isArray _)].
  - intros ns ls Hns Hls. by rewrite (js_get_truthy _ _ _ Hns), Hns, Hls.
Qed.

Lemma slash_free_import_checks_shape_witness :
  handleFileChange "Unexpected token"
    ("{" +:+ quoted "nodes" +:+ ":{" +:+ quoted "a" +:+ ":null}," +:+ quoted "links" +:+ ":[]}")
    (mkState [JString "kept"] [] (Some "1"))
  = (mkState [JString "kept"] [] (Some "1"), Some shapeError).
Proof.
  apply (slash_free_import_checks_shape "Unexpected token"
           ("{" +:+ quoted "nodes" +:+ ":{" +:+ quoted "a" +:+ ":null}," +:+ quoted "links"
              +:+ ":[]}")
           (JObject [("nodes", JObject [("a", JNull)]); ("links", JArray [])])).
  - reflexivity.
  - vm_compute. reflexivity.
  - left. intros [items Hitems]. vm_compute in Hitems. discriminate.
Defined.

End StoryHandlers.


(* ================================================================== *)
(** * Properties of a session at the side panel *)

Section PanelSession.

Import StoryEditor.

(** Every link joins two different nodes of the story. *)
Definition sound (st : App.Story) : Prop :=
  ∀ l, l ∈ App.links st →
    StoryLink.source l ∈ ids st ∧ StoryLink.target l ∈ ids st
    ∧ StoryLink.source l ≠ StoryLink.target l.

(** While a node is shown, the target picked in the link form is empty
    or the id of another node of the story. *)
Definition formFits (s : Session) : Prop :=
  ∀ sel, App.selectedNode s.1 = Some sel →
    newLinkTargetId s.2 = ""
    ∨ (newLinkTargetId s.2 ∈ ids s.1 ∧ newLinkTargetId s.2 ≠ StoryNode.id sel).

Lemma selectedNode_found (st : App.Story) (n : StoryNode.t) :
  App.selectedNode st = Some n →
  n ∈ App.nodes st ∧ App.selectedNodeId st = Some (StoryNode.id n).
Proof.
  unfold App.selectedNode. destruct (App.selectedNodeId st) as [sel|]; [|done].
  intros Hfind. apply List.find_some in Hfind as [Hin Heq].
  apply String.eqb_eq in Heq as <-. split; [by apply list_elem_of_In|done].
Qed.

Lemma rerender_fits (before : option StoryNode.t) (replaced : bool)
    (st : App.Story) (f : Form) :
  (replaced = false → App.selectedNode st = before → formFits (st, f)) →
  formFits (rerender before replaced st f).
Proof.
  intros Hsame sel. unfold rerender; cbn [fst snd]. intros Hsel.
  destruct (replaced || negb (bool_decide (App.selectedNode st = before))) eqn:Hsync.
  - left. rewrite Hsel. reflexivity.
  - apply orb_false_iff in Hsync as [-> Heq]. apply negb_false_iff in Heq.
    apply bool_decide_eq_true in Heq. by apply (Hsame eq_refl Heq sel).
Qed.

Lemma sound_same_ids (st st' : App.Story) :
  App.links st' = App.links st → (∀ i, i ∈ ids st → i ∈ ids st') →
  sound st → sound st'.
Proof.
  intros Hlinks Hids Hsound l Hl. rewrite Hlinks in Hl.
  destruct (Hsound l Hl) as (? & ? & ?). auto.
Qed.

Lemma step_keeps_story_sound (s : Session) (a : Action) :
  sound s.1 → formFits s → sound (step s a).1 ∧ formFits (step s a).
Proof.
  destruct s as [st f]. cbn [fst snd]. intros Hsound Hfits.
  unfold step. destruct (App.selectedNode st) as [n|] eqn:Hsel.
  - destruct (selectedNode_found st n Hsel) as [Hn Hselid].
    assert (Hnid : StoryNode.id n ∈ ids st) by by apply list_elem_of_fmap_2.
    destruct a as [nodeId|text|text| |value|text|now|linkId| |now].
    + split; [exact Hsound|]. apply rerender_fits. intros _ Hsame sel Hsel'.
      cbn [fst snd] in *. rewrite Hsame in Hsel'. injection Hsel' as <-.
      exact (Hfits n Hsel).
    + split; [exact Hsound|]. intros sel Hsel'. by apply (Hfits sel).
    + split; [exact Hsound|]. intros sel Hsel'. by apply (Hfits sel).
    + cbn [handleSave]. split.
      * cbn [rerender fst]. eapply sound_same_ids; [| |exact Hsound]; [done|].
        intros i. by rewrite ids_handleUpdateNode.
      * apply rerender_fits. discriminate.
    + destruct (String.eqb_spec value "") as [->|Hne].
      { split; [exact Hsound|]. intros sel _. by left. }
      case_bool_decide as Hopt; [|by split].
      split; [exact Hsound|]. intros sel Hsel'. cbn [fst snd] in *.
      rewrite Hsel in Hsel'. injection Hsel' as <-. right. cbn [withTarget newLinkTargetId].
      apply list_elem_of_fmap in Hopt as (m & -> & Hm).
      apply list_elem_of_filter in Hm as [Hne' Hm].
      split; [by apply list_elem_of_fmap_2|done].
    + split; [exact Hsound|]. intros sel Hsel'. by apply (Hfits sel).
    + unfold handleAddLink.
      destruct (negb (String.eqb (newLinkTargetId f) "") && negb (String.eqb (newLinkLabel f) ""))
        eqn:Hguard; [|by split].
      apply andb_true_iff in Hguard as [Htarget _].
      apply negb_true_iff, String.eqb_neq in Htarget.
      destruct (Hfits n Hsel) as [Hempty|[Hin Hother]]; [done|]. cbn [snd fst] in *.
      split.
      * cbn [rerender fst]. intros l Hl. unfold App.handleAddLink in Hl; cbn [App.links] in Hl.
        apply elem_of_app in Hl as [Hl|Hl].
        -- by apply Hsound.
        -- apply list_elem_of_singleton in Hl as ->. cbn. split_and!; [done|done|congruence].
      * apply rerender_fits. intros _ _ sel _. by left.
    + case_bool_decide; [|by split]. split.
      * cbn [rerender fst]. intros l Hl. unfold App.handleRemoveLink in Hl; cbn [App.links] in Hl.
        apply list_elem_of_filter in Hl as [_ Hl]. by apply Hsound.
      * apply rerender_fits. intros _ Hsame sel Hsel'. cbn [fst snd] in *.
        rewrite Hsame in Hsel'. injection Hsel' as <-. exact (Hfits n Hsel).
    + split.
      * cbn [rerender fst]. intros l Hl.
        unfold App.handleDeleteNode in Hl; cbn [App.links] in Hl.
        apply list_elem_of_filter in Hl as [[Hs Ht] Hl].
        destruct (Hsound l Hl) as (? & ? & ?). rewrite !ids_handleDeleteNode. tauto.
      * apply rerender_fits. intros _ Hsame. exfalso.
        unfold App.selectedNode, App.handleDeleteNode in Hsame;
          cbn [App.selectedNodeId App.nodes] in Hsame.
        rewrite Hselid, decide_True in Hsame by done. done.
    + split.
      * cbn [rerender fst]. eapply sound_same_ids; [| |exact Hsound]; [done|].
        intros i Hi. unfold ids, App.handleCreateNode; cbn [App.nodes].
        rewrite fmap_app. apply elem_of_app. by left.
      * apply rerender_fits. intros _ Hsame sel Hsel'. cbn [fst snd] in *.
        rewrite Hsame in Hsel'. injection Hsel' as <-.
        destruct (Hfits n Hsel) as [?|[Hin ?]]; [by left|right]. split; [|done].
        unfold ids, App.handleCreateNode; cbn [App.nodes].
        rewrite fmap_app. apply elem_of_app. by left.
  - destruct a as [nodeId|text|text| |value|text|now|linkId| |now]; try by split.
    + split; [exact Hsound|]. apply rerender_fits. intros _ Hsame sel Hsel'.
      cbn [fst snd] in *. congruence.
    + split.
      * cbn [rerender fst]. eapply sound_same_ids; [| |exact Hsound]; [done|].
        intros i Hi. unfold ids, App.handleCreateNode; cbn [App.nodes].
        rewrite fmap_app. apply elem_of_app. by left.
      * apply rerender_fits. intros _ Hsame sel Hsel'. cbn [fst snd] in *. congruence.
Qed.

(** X6. However the panel is used (selecting, typing, saving, picking a
    target, adding and removing links, deleting and creating nodes), a
    story whose links all join two different nodes stays one: the panel
    never produces a dangling link or a self-loop. In particular this holds
    for every session that starts from the initial story. *)
Theorem panel_session_keeps_links_sound (actions : list Action) (s : Session) :
  sound s.1 → formFits s →
  sound (run s actions).1
  ∧ sound (run initialSession actions).1.
Proof.
  assert (Hrun : ∀ actions s, sound s.1 → formFits s →
                   sound (run s actions).1 ∧ formFits (run s actions)).
  { clear. intros actions. induction actions as [|a actions IH]; intros s Hs Hf; [done|].
    simpl. destruct (step_keeps_story_sound s a Hs Hf). by apply IH. }
  intros Hs Hf. split; [by apply Hrun|].
  apply Hrun.
  - intros l Hl. apply list_elem_of_In in Hl. simpl in Hl.
    destruct Hl as [<-|[<-|[]]]; split_and!;
      try (apply (bool_decide_unpack _); vm_compute; exact I); discriminate.
  - intros sel Hsel. discriminate.
Qed.

Lemma panel_session_keeps_links_sound_witness :
  sound (run (App.mkState [StoryNode.mk "a" "A" ""; StoryNode.mk "b" "B" ""] [] (Some "a"),
              initialForm)
             [ChooseTarget "b"; TypeLabel "go"; ClickAddLink 5; ClickNode "b"; ClickDelete]).1.
Proof.
  apply (panel_session_keeps_links_sound
           [ChooseTarget "b"; TypeLabel "go"; ClickAddLink 5; ClickNode "b"; ClickDelete]
           (App.mkState [StoryNode.mk "a" "A" ""; StoryNode.mk "b" "B" ""] [] (Some "a"),
            initialForm)).
  - intros l Hl. apply elem_of_nil in Hl. destruct Hl.
  - intros sel _. left. reflexivity.
Defined.

End PanelSession.

(* ================================================================== *)
(** * Properties of the API-key service *)

Section ApiKey.

Import GeminiService.

Variable trim : string → string.

Lemma nonEmpty_true (s : string) : nonEmpty s = true ↔ s ≠ "".
Proof. unfold nonEmpty. rewrite negb_true_iff. apply String.eqb_neq. Qed.

Lemma nonEmpty_false (s : string) : nonEmpty s = false ↔ s = "".
Proof. unfold nonEmpty. rewrite negb_false_iff. apply String.eqb_eq. Qed.

(** Reading the key touches nothing but [runtimeApiKey], which it sets
    to a key it found. *)
Lemma getGeminiApiKey_effect (w : World) :
  let '(key, (v', b')) := getGeminiApiKey w in
  b' = snd w
  ∧ cachedClient v' = cachedClient (fst w) ∧ cachedKey v' = cachedKey (fst w)
  ∧ constructed v' = constructed (fst w)
  ∧ (key ≠ "" → runtimeApiKey v' = key)
  ∧ (runtimeApiKey (fst w) ≠ "" → key = runtimeApiKey (fst w)).
Proof.
  destruct w as [v b]. unfold getGeminiApiKey.
  destruct (nonEmpty (runtimeApiKey v)) eqn:Hrun.
  { cbn [fst snd]. by split_and!. }
  apply nonEmpty_false in Hrun.
  destruct (localStorage b) as [[s|]|]; [destruct (nonEmpty s) eqn:Hs|..];
    try (cbn [fst snd runtimeApiKey cachedClient cachedKey constructed];
         split_and!; try done; congruence);
    (destruct (nonEmpty (readEnvApiKey b)) eqn:Henv;
     cbn [fst snd runtimeApiKey cachedClient cachedKey constructed];
     split_and!; try done; congruence).
Qed.

(** X7. A key saved with non-blank text is the key read back, trimmed,
    whatever was stored or configured before; it is written to
    [localStorage] when there is one. *)
Theorem saved_key_is_read_back (key : string) (w : World) :
  trim key ≠ "" →
  fst (getGeminiApiKey (setGeminiApiKey trim key w)) = trim key
  ∧ (is_Some (localStorage (snd w)) →
       localStorage (snd (setGeminiApiKey trim key w)) = Some (Some (trim key))).
Proof.
  intros Hkey. destruct w as [v b]. unfold setGeminiApiKey. split.
  - destruct (String.eqb (trim key) (cachedKey v)); unfold getGeminiApiKey;
      cbn [runtimeApiKey]; by rewrite (proj2 (nonEmpty_true _) Hkey).
  - intros [item Hitem]. cbn [snd] in Hitem. rewrite Hitem.
    rewrite (proj2 (nonEmpty_true _) Hkey).
    by destruct (String.eqb (trim key) (cachedKey v)).
Qed.

(** X8. Saving a blank key removes the stored item, and the key read
    afterwards is the build-time one ([VITE_GEMINI_API_KEY], else
    [GEMINI_API_KEY], else empty): clearing the field does not switch the
    service off when a build-time key is configured. *)
Theorem blank_key_falls_back_to_build_key (key : string) (w : World) :
  trim key = "" →
  fst (getGeminiApiKey (setGeminiApiKey trim key w)) = readEnvApiKey (snd w)
  ∧ (is_Some (localStorage (snd w)) →
       localStorage (snd (setGeminiApiKey trim key w)) = Some None).
Proof.
  intros Hkey.
  assert (Hget : ∀ v' b', runtimeApiKey v' = "" →
            localStorage b' = None ∨ localStorage b' = Some None →
            fst (getGeminiApiKey (v', b')) = readEnvApiKey b').
  { intros v' b' Hr Hs. unfold getGeminiApiKey. rewrite Hr.
    change (nonEmpty "") with false. cbv iota.
    assert (match localStorage b' with
            | Some (Some s) => if nonEmpty s then Some s else None
            | _ => None
            end = None) as -> by (by destruct Hs as [-> | ->]).
    destruct (nonEmpty (readEnvApiKey b')) eqn:He; [done|].
    symmetry. by apply nonEmpty_false. }
  destruct w as [v b]. unfold setGeminiApiKey. rewrite Hkey. cbn [snd]. split.
  - destruct (localStorage b) as [item|] eqn:Hitem;
      destruct (String.eqb "" (cachedKey v));
      rewrite Hget; try done; cbn [localStorage]; auto.
  - intros [item Hitem]. rewrite Hitem.
    by destruct (String.eqb "" (cachedKey v)).
Qed.

End ApiKey.

Lemma saved_key_is_read_back_witness :
  fst (GeminiService.getGeminiApiKey
         (GeminiService.setGeminiApiKey (λ s, s) "secret"
            (GeminiService.initialVars,
             GeminiService.mkBrowser (Some (Some "older")) (Some "built-in") None)))
  = "secret".
Proof.
  apply (saved_key_is_read_back (λ s, s) "secret"
           (GeminiService.initialVars,
            GeminiService.mkBrowser (Some (Some "older")) (Some "built-in") None)).
  discriminate.
Defined.

Lemma blank_key_falls_back_to_build_key_witness :
  fst (GeminiService.getGeminiApiKey
         (GeminiService.setGeminiApiKey (λ s, if String.eqb s "   " then "" else s) "   "
            (GeminiService.mkVars "typed" None "" 0,
             GeminiService.mkBrowser (Some (Some "typed")) None (Some "built-in"))))
  = "built-in".
Proof.
  apply (blank_key_falls_back_to_build_key (λ s, if String.eqb s "   " then "" else s) "   "
           (GeminiService.mkVars "typed" None "" 0,
            GeminiService.mkBrowser (Some (Some "typed")) None (Some "built-in"))).
  reflexivity.
Defined.

(* ================================================================== *)
(** * Properties of the cached API client *)

(** What happens to the service between two uses: the key is read, a key
    is saved from the panel, a client is requested, or the stored item is
    changed from outside the module. *)
Inductive ServiceCall :=
| ReadKey
| SaveKey (key : string)
| UseClient
| StorageChange (item : option string).

Section ApiClient.

Import GeminiService.

Variable trim : string → string.

Definition serviceCall (w : World) (c : ServiceCall) : World :=
  match c with
  | ReadKey => snd (getGeminiApiKey w)
  | SaveKey key => setGeminiApiKey trim key w
  | UseClient => snd (getClient w)
  | StorageChange item =>
      (fst w, mkBrowser (match localStorage (snd w) with Some _ => Some item | None => None end)
                        (VITE_GEMINI_API_KEY (snd w)) (GEMINI_API_KEY (snd w)))
  end.

(** The cached client was built with the cached key. *)
Definition coherent (w : World) : Prop :=
  ∀ c, cachedClient (fst w) = Some c → client_apiKey c = cachedKey (fst w).

Lemma getClient_spec (w : World) :
  coherent w →
  coherent (snd (getClient w))
  ∧ match fst (getClient w) with
    | inl c =>
        client_apiKey c = fst (getGeminiApiKey w) ∧ client_apiKey c ≠ ""
        ∧ fst (getClient (snd (getClient w))) = inl c
    | inr message => message = missingKey ∧ fst (getGeminiApiKey w) = ""
    end.
Proof.
  intros Hcoh. pose proof (getGeminiApiKey_effect w) as Hget.
  unfold getClient. destruct (getGeminiApiKey w) as [key [v b]].
  destruct Hget as (Hb & Hclient & Hkey & Hcount & Hruntime & _). cbn [fst].
  destruct (nonEmpty key) eqn:Hne.
  - apply nonEmpty_true in Hne. specialize (Hruntime Hne).
    assert (Hagain : ∀ v', runtimeApiKey v' = key → cachedKey v' = key →
              ∀ c, cachedClient v' = Some c →
              fst (let '(apiKey, (v0, b0)) := getGeminiApiKey (v', b) in
                   if nonEmpty apiKey then
                     match cachedClient v0 with
                     | Some c0 =>
                         if String.eqb (cachedKey v0) apiKey then (inl c0, (v0, b0))
                         else (inl (mkClient apiKey (constructed v0)),
                               (mkVars (runtimeApiKey v0) (Some (mkClient apiKey (constructed v0)))
                                       apiKey (S (constructed v0)), b0))
                     | None => (inl (mkClient apiKey (constructed v0)),
                                (mkVars (runtimeApiKey v0) (Some (mkClient apiKey (constructed v0)))
                                        apiKey (S (constructed v0)), b0))
                     end
                   else (inr missingKey, (v0, b0))) = inl c).
    { intros v' Hr Hk c Hc. unfold getGeminiApiKey. rewrite Hr.
      rewrite (proj2 (nonEmpty_true _) Hne). rewrite (proj2 (nonEmpty_true _) Hne).
      rewrite Hc, Hk, String.eqb_refl. done. }
    destruct (cachedClient v) as [c|] eqn:Hc; [destruct (String.eqb_spec (cachedKey v) key) as [Heq|Hneq]|].
    + cbn [fst snd]. split.
      * intros c' Hc'. cbn [fst] in *. rewrite Hc in Hc'. injection Hc' as <-.
        rewrite Hkey. apply Hcoh. by rewrite <- Hclient.
      * split_and!; [|..].
        -- rewrite <- Heq, Hkey. apply Hcoh. by rewrite <- Hclient.
        -- assert (client_apiKey c = key) as ->; [|done].
           rewrite <- Heq, Hkey. apply Hcoh. by rewrite <- Hclient.
        -- by apply Hagain.
    + cbn [fst snd]. split; [by intros c' [= <-]|]. split_and!; [done..|].
      by apply Hagain.
    + cbn [fst snd]. split; [by intros c' [= <-]|]. split_and!; [done..|].
      by apply Hagain.
  - apply nonEmpty_false in Hne. cbn [fst snd]. split; [|done].
    intros c Hc. cbn [fst] in *. rewrite Hkey. apply Hcoh. by rewrite <- Hclient.
Qed.

Lemma serviceCall_coherent (w : World) (c : ServiceCall) :
  coherent w → coherent (serviceCall w c).
Proof.
  intros Hcoh. destruct c as [|key| |item]; simpl.
  - pose proof (getGeminiApiKey_effect w) as Hget.
    destruct (getGeminiApiKey w) as [key [v b]].
    destruct Hget as (_ & Hclient & Hkey & _). intros c Hc. cbn [fst snd] in *.
    rewrite Hkey. apply Hcoh. by rewrite <- Hclient.
  - destruct w as [v b]. unfold setGeminiApiKey.
    destruct (String.eqb (trim key) (cachedKey v)); intros c Hc; cbn [fst] in *; [|done].
    by apply Hcoh.
  - by apply getClient_spec.
  - exact Hcoh.
Qed.

(** X9. After any sequence of reads, saves, client requests and outside
    changes of the stored item, [getClient] either fails with the
    missing-key message, exactly when the key read is empty, or returns a
    client built with the non-empty key that [getGeminiApiKey] reads; asked
    again at once it returns that same client and builds no new one. *)
Theorem getClient_matches_current_key (calls : list ServiceCall) (browser : Browser) :
  let w := foldl serviceCall (initialVars, browser) calls in
  match fst (getClient w) with
  | inl c =>
      client_apiKey c = fst (getGeminiApiKey w) ∧ client_apiKey c ≠ ""
      ∧ fst (getClient (snd (getClient w))) = inl c
  | inr message => message = missingKey ∧ fst (getGeminiApiKey w) = ""
  end.
Proof.
  cbn zeta. apply getClient_spec.
  assert (Hrun : ∀ w, coherent w → coherent (foldl serviceCall w calls)).
  { induction calls as [|c calls IH]; intros w Hw; [done|].
    simpl. by apply IH, serviceCall_coherent. }
  apply Hrun. intros c Hc. discriminate.
Qed.

End ApiClient.

(* ================================================================== *)
(** * Further properties of the exports *)

Section ExportsMore.

Import ExportUtils.

Lemma find_first_match {A} (f : A → bool) (before : list A) (x : A) (after : list A) :
  (∀ m, m ∈ before → f m = false) → f x = true →
  List.find f (before ++ x :: after) = Some x.
Proof.
  intros Hbefore Hx. induction before as [|m before IH]; simpl.
  - by rewrite Hx.
  - rewrite (Hbefore m) by left. apply IH. intros m' Hm'. apply Hbefore. by right.
Qed.

(** X10. The line of a choice names the title of the first node that
    carries the target id; when that title is empty, the line shows the
    target id instead. *)
Theorem choiceLine_names_first_match
    (data : StoryData) (choice : StoryLink.t)
    (before : list StoryNode.t) (target : StoryNode.t) (after : list StoryNode.t) :
  data_nodes data = before ++ target :: after →
  StoryNode.id target = StoryLink.target choice →
  (∀ m, m ∈ before → StoryNode.id m ≠ StoryLink.target choice) →
  choiceLine data choice =
    "  - [" +:+ StoryLink.label choice +:+ "] -> 이동: " +:+ dquote
      +:+ (if String.eqb (StoryNode.title target) "" then StoryLink.target choice
           else StoryNode.title target)
      +:+ dquote +:+ nl.
Proof.
  intros Hnodes Hid Hfirst. unfold choiceLine, destination.
  rewrite Hnodes, find_first_match; [done| |].
  - intros m Hm. apply String.eqb_neq. by apply Hfirst.
  - by apply String.eqb_eq.
Qed.

Lemma choiceLine_names_first_match_witness :
  choiceLine (mkStoryData [StoryNode.mk "1" "Start" ""; StoryNode.mk "2" "" "";
                           StoryNode.mk "2" "Twin" ""] [])
             (StoryLink.mk "l1" "1" "2" "go")
  = "  - [go] -> 이동: " +:+ dquote +:+ "2" +:+ dquote +:+ nl.
Proof.
  apply (choiceLine_names_first_match
           (mkStoryData [StoryNode.mk "1" "Start" ""; StoryNode.mk "2" "" "";
                         StoryNode.mk "2" "Twin" ""] [])
           (StoryLink.mk "l1" "1" "2" "go")
           [StoryNode.mk "1" "Start" ""] (StoryNode.mk "2" "" "") [StoryNode.mk "2" "Twin" ""]).
  - reflexivity.
  - reflexivity.
  - intros m Hm. apply list_elem_of_In in Hm. simpl in Hm.
    destruct Hm as [<-|[]]. discriminate.
Defined.

(** X11. A node from which no link starts is written as its header, its
    body and the end-of-branch marker, with no list of choices; and the
    script of a story without nodes is the two header lines alone. *)
Theorem dead_end_is_marked (data : StoryData) (content filename : string) (node : StoryNode.t) :
  (∀ l, l ∈ data_links data → StoryLink.source l ≠ StoryNode.id node) →
  nodeBlock data content node =
    content +:+ "장면: " +:+ StoryNode.title node +:+ " [ID: " +:+ StoryNode.id node
      +:+ "]" +:+ nl +:+ "------------------------------------" +:+ nl
      +:+ StoryNode.content node +:+ nl +:+ nl
      +:+ "(분기 종료)" +:+ nl
      +:+ nl +:+ "====================================" +:+ nl +:+ nl
  ∧ scriptContent (mkStoryData [] (data_links data)) filename =
      "스토리 스크립트: " +:+ filename +:+ nl
        +:+ "====================================" +:+ nl +:+ nl.
Proof.
  intros Hnone. split.
  - unfold nodeBlock. rewrite filter_drops_all by (intros l Hl; by apply Hnone).
    cbn [length Nat.ltb Nat.leb]. rewrite !string_app_assoc. reflexivity.
  - unfold scriptContent. cbn [data_nodes foldl]. rewrite !string_app_assoc. reflexivity.
Qed.

Lemma dead_end_is_marked_witness :
  nodeBlock (mkStoryData [StoryNode.mk "3" "City" "Gates."] [StoryLink.mk "l2" "1" "3" "east"])
            "" (StoryNode.mk "3" "City" "Gates.")
  = "" +:+ "장면: " +:+ "City" +:+ " [ID: " +:+ "3"
      +:+ "]" +:+ nl +:+ "------------------------------------" +:+ nl
      +:+ "Gates." +:+ nl +:+ nl
      +:+ "(분기 종료)" +:+ nl
      +:+ nl +:+ "====================================" +:+ nl +:+ nl.
Proof.
  apply (dead_end_is_marked
           (mkStoryData [StoryNode.mk "3" "City" "Gates."] [StoryLink.mk "l2" "1" "3" "east"])
           "" "story-script" (StoryNode.mk "3" "City" "Gates.")).
  intros l Hl. apply list_elem_of_In in Hl. simpl in Hl.
  destruct Hl as [<-|[]]. discriminate.
Defined.

Local Open Scope Q_scope.

(** Below 2^31 the canvas takes the size it is given, without its
    fraction. *)
Lemma reflected_small (fallback : Z) (v : Q) :
  0 <= v → v < 2147483648 → reflected fallback v = Qfloor v.
Proof.
  intros Hlo Hhi. unfold reflected, ToUint32.
  assert (Qle_bool 0 v = true) as -> by by apply Qle_bool_iff.
  assert (Hfloor : (0 ≤ Qfloor v < 2147483648)%Z).
  { split.
    - change 0%Z with (Qfloor 0). by apply Qfloor_resp_le.
    - apply Z.lt_nge. intros Hge.
      pose proof (Qfloor_le v) as Hle.
      assert (2147483648 <= inject_Z (Qfloor v)) as Hbig.
      { change 2147483648 with (inject_Z 2147483648). by rewrite <- Zle_Qle. }
      lra. }
  rewrite Z.mod_small by lia.
  assert ((Qfloor v <=? 2147483647)%Z = true) as ->; [|done].
  apply Z.leb_le. lia.
Qed.

(** X12. For a measured box (its extent is not negative) the
    "empty or not rendered" rejection never happens: [svgToCanvas] resolves
    exactly when there is a content group, the image decodes and a 2d
    context exists. As long as the scaled, padded extent stays below 2^31,
    the canvas it resolves with is at least the scaled padding wide and
    high. *)
Theorem svgToCanvas_outcomes (svgElement : Svg) (getBBox : BBox) (scale : Q) (env : Raster) :
  0 <= bbox_width getBBox → 0 <= bbox_height getBBox → 0 <= scale →
  svgToCanvas svgElement getBBox scale env ≠ inr "Graph is empty or not rendered."
  ∧ ((∃ canvas, svgToCanvas svgElement getBBox scale env = inl canvas)
     ↔ is_Some (querySelector_g svgElement) ∧ imageLoads env = true ∧ context2d env = true)
  ∧ (∀ canvas, svgToCanvas svgElement getBBox scale env = inl canvas →
       ((bbox_width getBBox + 100) * scale < 2147483648 →
          (Qfloor (100 * scale) ≤ canvas_width canvas)%Z)
       ∧ ((bbox_height getBBox + 100) * scale < 2147483648 →
            (Qfloor (100 * scale) ≤ canvas_height canvas)%Z)).
Proof.
  intros Hw Hh Hs. unfold svgToCanvas.
  destruct (querySelector_g svgElement) as [t|].
  2:{ split_and!; [done| |done]. split; [by intros [? ?]|]. by intros [[? ?] _]. }
  rewrite !size_test_passes by done. cbn [orb].
  assert (Hsize : ∀ fallback extent, 0 <= extent →
            (extent + 100) * scale < 2147483648 →
            (Qfloor (100 * scale)
             ≤ reflected fallback ((extent + padding * 2) * scale))%Z).
  { intros fallback extent Hextent Hbound.
    assert (Heq : (extent + padding * 2) * scale == (extent + 100) * scale)
      by (unfold padding; ring).
    assert (Hsmall : reflected fallback ((extent + padding * 2) * scale)
                     = Qfloor ((extent + padding * 2) * scale)).
    { apply reflected_small; rewrite Heq; [nra|done]. }
    rewrite Hsmall. apply Qfloor_resp_le. rewrite Heq. nra. }
  destruct (imageLoads env), (context2d env).
  - split; [discriminate|]. split.
    + split; [by intros _|]. intros _. by eexists.
    + intros canvas [= <-]. cbn [canvas_width canvas_height]. split; intros Hbound.
      * by apply Hsize.
      * by apply Hsize.
  - split; [discriminate|]. split; [|discriminate].
    split; [by intros [? ?]|by intros (_ & _ & ?)].
  - split; [discriminate|]. split; [|discriminate].
    split; [by intros [? ?]|by intros (_ & ? & _)].
  - split; [discriminate|]. split; [|discriminate].
    split; [by intros [? ?]|by intros (_ & ? & _)].
Qed.

Lemma svgToCanvas_outcomes_witness :
  svgToCanvas [Defs; Group None] (mkBBox 0 0 0 0) 2 (mkRaster true true)
  ≠ inr "Graph is empty or not rendered.".
Proof.
  apply (svgToCanvas_outcomes [Defs; Group None] (mkBBox 0 0 0 0) 2 (mkRaster true true));
    discriminate.
Defined.

(** X13. The image export and the document export of one scene succeed
    or fail together: when they succeed, the document embeds the very
    bitmap the image export saves, under the same base name; when they
    fail, both alerts end in the same cause. *)
Theorem exports_agree (svgElement : Svg) (getBBox : BBox) (filename : string) (env : Raster) :
  match downloadImage svgElement getBBox filename env,
        downloadPDF svgElement getBBox filename env with
  | Downloaded (PngFile png bitmap), Downloaded (PdfFile pdf doc) =>
      image doc = bitmap ∧ png = filename +:+ ".png" ∧ pdf = filename +:+ ".pdf"
  | Alerted imageAlert, Alerted pdfAlert =>
      ∃ cause, imageAlert = "이미지 저장 중 오류가 발생했습니다: " +:+ cause
               ∧ pdfAlert = "PDF 저장 중 오류가 발생했습니다: " +:+ cause
  | _, _ => False
  end.
Proof.
  unfold downloadImage, downloadPDF.
  destruct (svgToCanvas svgElement getBBox 2 env) as [canvas|cause]; [done|].
  by exists cause.
Qed.

End ExportsMore.

(* ================================================================== *)
(** * Further properties of the topology analysis *)

Section Counting.

Import GraphVisualizer.

(** How many links have [k] at the end picked by [key]. *)
Definition tally (key : StoryLink.t → string) (links : list StoryLink.t) (k : string) : nat :=
  length (filter (λ l, key l = k) links).

Lemma tally_zero (key : StoryLink.t → string) (links : list StoryLink.t) (k : string) :
  tally key links k = 0 ↔ ∀ l, l ∈ links → key l ≠ k.
Proof.
  unfold tally. split.
  - intros Hzero l Hl Hk. apply length_zero_iff_nil in Hzero.
    assert (Hin : l ∈ filter (λ l, key l = k) links) by by apply list_elem_of_filter.
    rewrite Hzero in Hin. by apply elem_of_nil in Hin.
  - intros Hnone. rewrite filter_drops_all; [done|]. intros l Hl. by apply Hnone.
Qed.

Lemma tally_positive (key : StoryLink.t → string) (links : list StoryLink.t) (k : string) :
  tally key links k ≠ 0 ↔ ∃ l, l ∈ links ∧ key l = k.
Proof.
  rewrite tally_zero. split.
  - intros Hsome. destruct (filter (λ l, key l = k) links) as [|l rest] eqn:Hf.
    + exfalso. apply Hsome. intros l Hl Hk.
      assert (Hin : l ∈ filter (λ l, key l = k) links) by by apply list_elem_of_filter.
      rewrite Hf in Hin. by apply elem_of_nil in Hin.
    + assert (Hl : l ∈ filter (λ l, key l = k) links) by (rewrite Hf; left).
      apply list_elem_of_filter in Hl as [? ?]. eauto.
  - intros (l & Hl & Hk) Hnone. by apply (Hnone l).
Qed.

(** A count after [t] more increments. *)
Definition counted (t : nat) (c : Count) : Count :=
  match c with
  | Number n => Number (n + t)
  | Text member ones => Text member (ones + t)
  end.

(** The count a name without own property has after [t] increments,
    [t] not being zero. *)
Definition firstCount (k : string) (t : nat) : Count :=
  if bool_decide (k ∈ PlainObject.inherited) then Text k t else Number t.

Lemma foldl_increment (key : StoryLink.t → string) (links : list StoryLink.t)
    (init : gmap string Count) (k : string) :
  k ≠ "__proto__" →
  foldl (λ counts l, increment (key l) counts) init links !! k =
    match init !! k with
    | Some c => Some (counted (tally key links k) c)
    | None => if decide (tally key links k = 0) then None
              else Some (firstCount k (tally key links k))
    end.
Proof.
  intros Hk. revert init. induction links as [|l links IH]; intros init.
  - unfold tally. rewrite filter_nil. simpl.
    destruct (init !! k) as [[n|member ones]|]; [| |done]; simpl; by rewrite Nat.add_0_r.
  - simpl. rewrite IH. unfold tally. rewrite filter_cons.
    destruct (decide (key l = k)) as [->|Hne].
    + unfold increment. rewrite lookup_set_eq by done. cbn [length].
      unfold PlainObject.get, firstCount.
      destruct (init !! k) as [[n|member ones]|]; simpl.
      * do 2 f_equal. lia.
      * do 2 f_equal. lia.
      * case_bool_decide; simpl; done.
    + unfold increment. by rewrite lookup_set_ne.
Qed.

Lemma foldl_increment_proto (key : StoryLink.t → string) (links : list StoryLink.t)
    (init : gmap string Count) :
  init !! "__proto__" = None →
  foldl (λ counts l, increment (key l) counts) init links !! "__proto__" = None.
Proof.
  revert init. induction links as [|l links IH]; intros init Hnone; [done|].
  simpl. apply IH. unfold increment. by apply lookup_set_proto.
Qed.

Lemma zeroCounts_lookup (nodes : list StoryNode.t) (k : string) :
  zeroCounts nodes !! k
  = if decide (k ≠ "__proto__" ∧ k ∈ StoryNode.id <$> nodes) then Some (Number 0) else None.
Proof.
  unfold zeroCounts.
  assert (Hgen : ∀ init : gmap string Count,
            foldl (λ counts n, PlainObject.set (StoryNode.id n) (Number 0) counts) init nodes !! k
            = if decide (k ≠ "__proto__" ∧ k ∈ StoryNode.id <$> nodes)
              then Some (Number 0) else init !! k).
  { induction nodes as [|n nodes IH]; intros init.
    - rewrite decide_False; [done|]. intros [_ Hin]. by apply elem_of_nil in Hin.
    - change (foldl (λ counts n, PlainObject.set (StoryNode.id n) (Number 0) counts) init
                    (n :: nodes))
        with (foldl (λ counts n, PlainObject.set (StoryNode.id n) (Number 0) counts)
                    (PlainObject.set (StoryNode.id n) (Number 0) init) nodes).
      rewrite IH, fmap_cons.
      destruct (decide (k ≠ "__proto__" ∧ k ∈ StoryNode.id <$> nodes)) as [[Hk Hin]|Hout].
      + rewrite decide_True; [done|]. split; [done|by right].
      + destruct (decide (k = StoryNode.id n)) as [->|Hne].
        * destruct (decide (StoryNode.id n = "__proto__")) as [Heq|Hproto].
          -- rewrite decide_False by tauto. unfold PlainObject.set.
             by rewrite (proj2 (String.eqb_eq _ _) Heq).
          -- rewrite lookup_set_eq by done. rewrite decide_True; [done|].
             split; [done|left].
        * rewrite lookup_set_ne by done. rewrite decide_False; [done|].
          intros [Hk [?|?]%elem_of_cons]; [done|]. apply Hout. by split. }
  rewrite Hgen. by case_decide.
Qed.

(** The counts of a node whose id is not ["__proto__"]. *)
Lemma counts_of_node (nodes : list StoryNode.t) (links : list StoryLink.t) (n : StoryNode.t) :
  n ∈ nodes → StoryNode.id n ≠ "__proto__" →
  incomingCount nodes links !! StoryNode.id n
    = Some (Number (tally StoryLink.target links (StoryNode.id n)))
  ∧ outgoingCount nodes links !! StoryNode.id n
    = Some (Number (tally StoryLink.source links (StoryNode.id n))).
Proof.
  intros Hn Hid. unfold incomingCount, outgoingCount.
  rewrite !foldl_increment, zeroCounts_lookup by done.
  rewrite decide_True; [done|]. split; [done|by apply list_elem_of_fmap_2].
Qed.

(** Neither object ever gets a property ["__proto__"]. *)
Lemma counts_of_proto (nodes : list StoryNode.t) (links : list StoryLink.t) :
  incomingCount nodes links !! "__proto__" = None
  ∧ outgoingCount nodes links !! "__proto__" = None.
Proof.
  unfold incomingCount, outgoingCount.
  split; apply foldl_increment_proto; rewrite zeroCounts_lookup;
    apply decide_False; tauto.
Qed.

(** The test [incomingCount[n.id] === 0]. *)
Lemma isZero_incoming (nodes : list StoryNode.t) (links : list StoryLink.t) (n : StoryNode.t) :
  n ∈ nodes →
  isZero (PlainObject.get (incomingCount nodes links) (StoryNode.id n)) = true
  ↔ StoryNode.id n ≠ "__proto__" ∧ ∀ l, l ∈ links → StoryLink.target l ≠ StoryNode.id n.
Proof.
  intros Hn. destruct (decide (StoryNode.id n = "__proto__")) as [Heq|Hid].
  - rewrite Heq. rewrite get_inherited;
      [|apply proto_is_inherited|apply counts_of_proto]. split; [done|tauto].
  - destruct (counts_of_node nodes links n Hn Hid) as [Hincoming _].
    rewrite (get_own _ _ _ Hincoming), <- tally_zero. cbn [isZero].
    destruct (tally StoryLink.target links (StoryNode.id n)).
    + split; [by intros _|done].
    + split; [done|by intros [_ ?]].
Qed.

Lemma isZero_outgoing (nodes : list StoryNode.t) (links : list StoryLink.t) (n : StoryNode.t) :
  n ∈ nodes →
  isZero (PlainObject.get (outgoingCount nodes links) (StoryNode.id n)) = true
  ↔ StoryNode.id n ≠ "__proto__" ∧ ∀ l, l ∈ links → StoryLink.source l ≠ StoryNode.id n.
Proof.
  intros Hn. destruct (decide (StoryNode.id n = "__proto__")) as [Heq|Hid].
  - rewrite Heq. rewrite get_inherited;
      [|apply proto_is_inherited|apply counts_of_proto]. split; [done|tauto].
  - destruct (counts_of_node nodes links n Hn Hid) as [_ Houtgoing].
    rewrite (get_own _ _ _ Houtgoing), <- tally_zero. cbn [isZero].
    destruct (tally StoryLink.source links (StoryNode.id n)).
    + split; [by intros _|done].
    + split; [done|by intros [_ ?]].
Qed.

(** X14. For every node whose id is not ["__proto__"], [incomingCount]
    holds the number of links that end at its id and [outgoingCount] the
    number that start there. Under ["__proto__"] nothing is ever stored.
    Any other id that no node carries has a count only when a link mentions
    it. *)
Theorem counts_are_link_tallies (nodes : list StoryNode.t) (links : list StoryLink.t) :
  (∀ n, n ∈ nodes → StoryNode.id n ≠ "__proto__" →
     incomingCount nodes links !! StoryNode.id n
       = Some (Number (tally StoryLink.target links (StoryNode.id n)))
     ∧ outgoingCount nodes links !! StoryNode.id n
       = Some (Number (tally StoryLink.source links (StoryNode.id n))))
  ∧ incomingCount nodes links !! "__proto__" = None
  ∧ outgoingCount nodes links !! "__proto__" = None
  ∧ (∀ k, k ∉ StoryNode.id <$> nodes → k ≠ "__proto__" →
       (is_Some (incomingCount nodes links !! k) ↔ ∃ l, l ∈ links ∧ StoryLink.target l = k)
       ∧ (is_Some (outgoingCount nodes links !! k) ↔ ∃ l, l ∈ links ∧ StoryLink.source l = k)).
Proof.
  split_and!.
  - intros n Hn Hid. by apply counts_of_node.
  - apply counts_of_proto.
  - apply counts_of_proto.
  - intros k Hk Hproto. unfold incomingCount, outgoingCount.
    rewrite !foldl_increment, zeroCounts_lookup by done.
    rewrite decide_False by tauto.
    rewrite <- !tally_positive. split; case_decide; split; try done;
      try (by intros [? ?]); intros _; by eexists.
Qed.

(** X15. A drawn node whose id is not ["__proto__"] is flagged as a start
    exactly when no link ends at its id, and as an end exactly when no link
    starts there; a node without any link is both. A node whose id is
    ["__proto__"] is flagged as neither, whatever the links are. *)
Theorem start_and_end_flags
    (cache : gmap string Position) (isFixed : bool) (height : Q) (random : nat → Q)
    (nodes : list StoryNode.t) (links : list StoryLink.t) (i : nat) (d : D3Node.t) :
  d3Nodes cache isFixed height random nodes links !! i = Some d →
  nodes !! i = Some (D3Node.story d)
  ∧ (D3Node.id d ≠ "__proto__" →
       (D3Node.isStart d = true ↔ ∀ l, l ∈ links → StoryLink.target l ≠ D3Node.id d)
       ∧ (D3Node.isEnd d = true ↔ ∀ l, l ∈ links → StoryLink.source l ≠ D3Node.id d))
  ∧ (D3Node.id d = "__proto__" → D3Node.isStart d = false ∧ D3Node.isEnd d = false).
Proof.
  unfold d3Nodes. rewrite list_lookup_imap.
  destruct (nodes !! i) as [n|] eqn:Hn; [|done]. intros [= <-].
  assert (Hin : n ∈ nodes) by by eapply list_elem_of_lookup_2.
  unfold d3Node, D3Node.id; cbn [D3Node.story D3Node.isStart D3Node.isEnd].
  pose proof (isZero_incoming nodes links n Hin) as Hstart.
  pose proof (isZero_outgoing nodes links n Hin) as Hend.
  split_and!; [done| |].
  - intros Hid. rewrite Hstart, Hend. tauto.
  - intros Hid. split; apply not_true_iff_false.
    + rewrite Hstart. tauto.
    + rewrite Hend. tauto.
Qed.

Lemma start_and_end_flags_witness :
  ∃ d, d3Nodes ∅ false 600 (λ _, 1 # 2)
                [StoryNode.mk "1" "A" ""; StoryNode.mk "2" "B" ""]
                [StoryLink.mk "l1" "1" "2" "go"] !! 1%nat = Some d
       ∧ (D3Node.isEnd d = true ↔
            ∀ l, l ∈ [StoryLink.mk "l1" "1" "2" "go"] → StoryLink.source l ≠ D3Node.id d).
Proof.
  eexists. split; [reflexivity|].
  refine (proj2 (proj1 (proj2 (start_and_end_flags ∅ false 600 (λ _, 1 # 2)
            [StoryNode.mk "1" "A" ""; StoryNode.mk "2" "B" ""]
            [StoryLink.mk "l1" "1" "2" "go"] 1 _ _)) _)).
  - reflexivity.
  - discriminate.
Defined.

End Counting.

(* ================================================================== *)
(** * The levels are breadth-first distances *)

(** [reaches links start k t]: some start id is joined to [t] by a chain
    of [k] links. *)
Inductive reaches (links : list StoryLink.t) (start : list string) : nat → string → Prop :=
| reaches_start (s : string) :
    s ∈ start → reaches links start 0 s
| reaches_link (k : nat) (l : StoryLink.t) :
    l ∈ links → reaches links start k (StoryLink.source l) →
    reaches links start (S k) (StoryLink.target l).

Section Search.

Import GraphVisualizer.

Variable links : list StoryLink.t.
Variable start : list string.

Implicit Types (queue : list (string * nat)) (visited : gset string)
         (levels : gmap string nat).

(** What one pass over the child links does, in full. *)
Lemma visitChildren_pushes (id : string) (level : nat) queue visited queue' visited' :
  visitChildren links id level (queue, visited) = (queue', visited') →
  ∃ pushed,
    queue' = queue ++ pushed
    ∧ (∀ e, e ∈ pushed →
         e.2 = level + 1 ∧ (e.1 ∉ visited) ∧ e.1 ∈ visited'
         ∧ ∃ l, l ∈ links ∧ StoryLink.source l = id ∧ StoryLink.target l = e.1)
    ∧ visited ⊆ visited'
    ∧ (∀ t, t ∈ visited' → t ∈ visited ∨ t ∈ pushed.*1)
    ∧ (∀ l, l ∈ links → StoryLink.source l = id → StoryLink.target l ∈ visited').
Proof.
  unfold visitChildren.
  assert (Hchildren : ∀ l, l ∈ filter (λ l, StoryLink.source l = id) links
                           ↔ l ∈ links ∧ StoryLink.source l = id).
  { intros l. rewrite list_elem_of_filter. tauto. }
  revert Hchildren. generalize (filter (λ l, StoryLink.source l = id) links) as children.
  intros children Hchildren.
  enough (Hgen : ∀ children queue visited,
            (∀ l, l ∈ children → l ∈ links ∧ StoryLink.source l = id) →
            foldl (λ (state : list (string * nat) * gset string) l,
                     let '(queue, visited) := state in
                     if decide (StoryLink.target l ∈ visited) then (queue, visited)
                     else (queue ++ [(StoryLink.target l, level + 1)],
                           {[StoryLink.target l]} ∪ visited))
                  (queue, visited) children = (queue', visited') →
            ∃ pushed,
              queue' = queue ++ pushed
              ∧ (∀ e, e ∈ pushed →
                   e.2 = level + 1 ∧ (e.1 ∉ visited) ∧ e.1 ∈ visited'
                   ∧ ∃ l, l ∈ links ∧ StoryLink.source l = id ∧ StoryLink.target l = e.1)
              ∧ visited ⊆ visited'
              ∧ (∀ t, t ∈ visited' → t ∈ visited ∨ t ∈ pushed.*1)
              ∧ (∀ l, l ∈ children → StoryLink.target l ∈ visited')).
  { intros Hfold. destruct (Hgen children queue visited) as (pushed & ? & ? & ? & ? & Hall);
      [intros l Hl; by apply Hchildren|done|].
    exists pushed. split_and!; try done. intros l Hl Hsrc. apply Hall. by apply Hchildren. }
  clear. intros children. induction children as [|l children IH]; intros queue visited Hin; simpl.
  - intros [= <- <-]. exists []. split_and!.
    + by rewrite app_nil_r.
    + intros e He. by apply elem_of_nil in He.
    + done.
    + intros t Ht. by left.
    + intros l Hl. by apply elem_of_nil in Hl.
  - assert (Hin' : ∀ l', l' ∈ children → l' ∈ links ∧ StoryLink.source l' = id)
      by (intros l' Hl'; apply Hin; by right).
    case_decide as Hvisited.
    + intros Hfold. destruct (IH _ _ Hin' Hfold) as (pushed & Hq & Hp & Hsub & Hv & Hall).
      exists pushed. split_and!; try done.
      intros l' [->|Hl']%elem_of_cons; [by apply Hsub|by apply Hall].
    + intros Hfold. destruct (IH _ _ Hin' Hfold) as (pushed & Hq & Hp & Hsub & Hv & Hall).
      assert (Htarget : StoryLink.target l ∈ visited')
        by (apply Hsub, elem_of_union; left; by apply elem_of_singleton).
      exists ((StoryLink.target l, level + 1) :: pushed). split_and!.
      * by rewrite Hq, <- app_assoc.
      * intros e [->|He]%elem_of_cons.
        -- cbn [fst snd]. split_and!; [done|done|done|].
           exists l. destruct (Hin l) as [? ?]; [left|]. done.
        -- destruct (Hp e He) as (? & Hnew & ? & ?). split_and!; [done| |done|done].
           intros Hold. apply Hnew, elem_of_union. by right.
      * intros t Ht. apply Hsub, elem_of_union. by right.
      * intros t Ht. destruct (Hv t Ht) as [[Heq%elem_of_singleton|Hold]%elem_of_union|Hpushed].
        -- right. rewrite fmap_cons, Heq. left.
        -- by left.
        -- right. rewrite fmap_cons. by right.
      * intros l' [->|Hl']%elem_of_cons; [done|by apply Hall].
Qed.

(** What holds of the queue, the visited set and the levels whenever the
    loop test is reached. The queue holds entries of one level [m]
    followed by entries of level [m + 1]; no level above [m] has been
    assigned. *)
Record searching queue visited levels : Prop := mkSearching {
  queue_visited : ∀ e, e ∈ queue → e.1 ∈ visited;
  levels_visited : ∀ t, is_Some (levels !! t) → t ∈ visited;
  visited_known : ∀ t, t ∈ visited → is_Some (levels !! t) ∨ t ∈ queue.*1;
  start_visited : ∀ s, s ∈ start → s ∈ visited;
  start_queued_zero : ∀ s a, s ∈ start → (s, a) ∈ queue → a = 0;
  start_level_zero : ∀ s a, s ∈ start → levels !! s = Some a → a = 0;
  queue_reaches : ∀ t a, (t, a) ∈ queue → reaches links start a t;
  levels_reach : ∀ t a, levels !! t = Some a → reaches links start a t;
  children_visited : ∀ l, l ∈ links → is_Some (levels !! StoryLink.source l) →
                          StoryLink.target l ∈ visited;
  two_levels : ∃ m lo hi,
      queue = lo ++ hi
      ∧ (∀ e, e ∈ lo → e.2 = m) ∧ (∀ e, e ∈ hi → e.2 = m + 1)
      ∧ (∀ t a, levels !! t = Some a → a ≤ m);
  link_levels : ∀ l a b, l ∈ links → levels !! StoryLink.source l = Some a →
                         levels !! StoryLink.target l = Some b → b ≤ a + 1;
  link_queued : ∀ l a b, l ∈ links → levels !! StoryLink.source l = Some a →
                         (StoryLink.target l, b) ∈ queue → b ≤ a + 1
}.

Lemma searching_head_bounds (id : string) (level : nat) rest visited levels :
  searching ((id, level) :: rest) visited levels →
  (∀ e, e ∈ rest → level ≤ e.2 ≤ level + 1)
  ∧ (∀ t a, levels !! t = Some a → a ≤ level)
  ∧ ∃ lo hi, rest = lo ++ hi ∧ (∀ e, e ∈ lo → e.2 = level) ∧ (∀ e, e ∈ hi → e.2 = level + 1).
Proof.
  intros [_ _ _ _ _ _ _ _ _ (m & lo & hi & Hq & Hlo & Hhi & Hdone) _ _].
  destruct lo as [|e lo].
  - simpl in Hq. subst hi.
    assert (Hlevel : level = m + 1) by (apply (Hhi (id, level)); left).
    split_and!.
    + intros e He. rewrite (Hhi e) by by right. lia.
    + intros t a Ha. specialize (Hdone t a Ha). lia.
    + exists rest, []. split_and!; [by rewrite app_nil_r| |].
      * intros e He. rewrite (Hhi e) by by right. lia.
      * intros e He. by apply elem_of_nil in He.
  - injection Hq as <- ->.
    assert (Hlevel : level = m) by (apply (Hlo (id, level)); left).
    split_and!.
    + intros e [He|He]%elem_of_app.
      * rewrite (Hlo e) by by right. lia.
      * rewrite (Hhi e) by done. lia.
    + intros t a Ha. specialize (Hdone t a Ha). lia.
    + exists lo, hi. split_and!; [done| |].
      * intros e He. rewrite (Hlo e) by by right. lia.
      * intros e He. rewrite (Hhi e) by done. lia.
Qed.

(** One iteration of the loop keeps all of it. *)
Lemma searching_step (id : string) (level : nat) rest visited levels queue' visited' :
  searching ((id, level) :: rest) visited levels →
  visitChildren links id level (rest, visited) = (queue', visited') →
  searching queue' visited' (<[id := level]> levels).
Proof.
  intros Hs Hvisit.
  destruct (searching_head_bounds _ _ _ _ _ Hs) as (Hrest & Hdone & lo & hi & Hsplit & Hlo & Hhi).
  destruct (visitChildren_pushes _ _ _ _ _ _ Hvisit)
    as (pushed & -> & Hpushed & Hsub & Hnew & Hchildren).
  destruct Hs as [Hqv Hlv Hvk Hsv Hsq Hsl Hqr Hlr Hcv _ Hll Hlq].
  assert (Hid : id ∈ visited) by (apply (Hqv (id, level)); left).
  assert (Hreach : reaches links start level id) by (apply Hqr; left).
  split.
  - intros e [He|He]%elem_of_app.
    + apply Hsub, Hqv. by right.
    + by apply Hpushed.
  - intros t Ht. destruct (decide (id = t)) as [<-|Hne]; [by apply Hsub|].
    rewrite lookup_insert_ne in Ht by done. by apply Hsub, Hlv.
  - intros t Ht. destruct (Hnew t Ht) as [Hold|Hp].
    + destruct (Hvk t Hold) as [Hl|Hq].
      * left. destruct (decide (id = t)) as [<-|Hne].
        -- rewrite lookup_insert_eq. by eexists.
        -- by rewrite lookup_insert_ne.
      * rewrite fmap_cons in Hq. apply elem_of_cons in Hq as [->|Hq].
        -- left. cbn [fst]. rewrite lookup_insert_eq. by eexists.
        -- right. rewrite fmap_app. apply elem_of_app. by left.
    + right. rewrite fmap_app. apply elem_of_app. by right.
  - intros s Hstart. by apply Hsub, Hsv.
  - intros s a Hstart [He|He]%elem_of_app.
    + apply (Hsq s a Hstart). by right.
    + destruct (Hpushed _ He) as (_ & Hfresh & _). exfalso. apply Hfresh. by apply Hsv.
  - intros s a Hstart Ha. destruct (decide (id = s)) as [<-|Hne].
    + rewrite lookup_insert_eq in Ha. injection Ha as <-. apply (Hsq id level Hstart). left.
    + rewrite lookup_insert_ne in Ha by done. by apply (Hsl s).
  - intros t a [He|He]%elem_of_app.
    + apply Hqr. by right.
    + destruct (Hpushed _ He) as (Ha & _ & _ & l & Hl & Hsrc & Htgt). cbn [fst snd] in *.
      subst a. rewrite <- Htgt, Nat.add_1_r. apply reaches_link; [done|]. by rewrite Hsrc.
  - intros t a Ha. destruct (decide (id = t)) as [<-|Hne].
    + rewrite lookup_insert_eq in Ha. by injection Ha as <-.
    + rewrite lookup_insert_ne in Ha by done. by apply Hlr.
  - intros l Hl Hsrc. destruct (decide (id = StoryLink.source l)) as [Heq|Hne].
    + by apply Hchildren.
    + rewrite lookup_insert_ne in Hsrc by done. by apply Hsub, Hcv.
  - exists level, lo, (hi ++ pushed). split_and!.
    + by rewrite Hsplit, app_assoc.
    + done.
    + intros e [He|He]%elem_of_app; [by apply Hhi|]. by apply Hpushed.
    + intros t a Ha. destruct (decide (id = t)) as [<-|Hne].
      * rewrite lookup_insert_eq in Ha. injection Ha as <-. done.
      * rewrite lookup_insert_ne in Ha by done. by apply (Hdone t).
  - intros l a b Hl Ha Hb.
    destruct (decide (id = StoryLink.source l)) as [Hsrc|Hsrc].
    + rewrite <- Hsrc, lookup_insert_eq in Ha. injection Ha as <-.
      destruct (decide (id = StoryLink.target l)) as [Htgt|Htgt].
      * rewrite <- Htgt, lookup_insert_eq in Hb. injection Hb as <-. lia.
      * rewrite lookup_insert_ne in Hb by done. specialize (Hdone _ _ Hb). lia.
    + rewrite lookup_insert_ne in Ha by done.
      destruct (decide (id = StoryLink.target l)) as [Htgt|Htgt].
      * rewrite <- Htgt, lookup_insert_eq in Hb. injection Hb as <-.
        apply (Hlq l a level Hl Ha). rewrite <- Htgt. left.
      * rewrite lookup_insert_ne in Hb by done. by apply (Hll l).
  - intros l a b Hl Ha [He|He]%elem_of_app.
    + destruct (decide (id = StoryLink.source l)) as [Hsrc|Hsrc].
      * rewrite <- Hsrc, lookup_insert_eq in Ha. injection Ha as <-.
        destruct (Hrest _ He) as [_ Hb]. done.
      * rewrite lookup_insert_ne in Ha by done. apply (Hlq l a b Hl Ha). by right.
    + destruct (Hpushed _ He) as (Hb & Hfresh & _). cbn [fst snd] in *.
      destruct (decide (id = StoryLink.source l)) as [Hsrc|Hsrc].
      * rewrite <- Hsrc, lookup_insert_eq in Ha. injection Ha as <-. lia.
      * rewrite lookup_insert_ne in Ha by done. exfalso. apply Hfresh.
        apply Hcv; [done|]. by eexists.
Qed.

(** What the object [nodeLevels] holds when the loop has assigned the
    levels [ghost]: all of them but one for ["__proto__"], which an
    assignment does not store. *)
Definition stored (ghost : gmap string nat) : gmap string nat := delete "__proto__" ghost.

Lemma set_stored (id : string) (level : nat) (ghost : gmap string nat) :
  PlainObject.set id level (stored ghost) = stored (<[id := level]> ghost).
Proof.
  unfold PlainObject.set, stored.
  destruct (String.eqb_spec id "__proto__") as [->|Hne].
  - by rewrite delete_insert_eq.
  - by rewrite delete_insert_ne.
Qed.

Lemma lookup_stored (ghost : gmap string nat) (t : string) :
  stored ghost !! t = if decide (t = "__proto__") then None else ghost !! t.
Proof.
  unfold stored. case_decide as Ht.
  - rewrite Ht. apply lookup_delete_eq.
  - by apply lookup_delete_ne.
Qed.

Lemma searching_result (fuel : nat) queue visited (ghost : gmap string nat) result :
  bfs fuel links queue visited (stored ghost) = Some result →
  searching queue visited ghost →
  ∃ visited' ghost', result = stored ghost' ∧ searching [] visited' ghost'.
Proof.
  revert queue visited ghost.
  induction fuel as [|fuel IH]; intros queue visited ghost;
    destruct queue as [|[id level] rest]; simpl; try done.
  - intros [= <-] Hs. by exists visited, ghost.
  - intros [= <-] Hs. by exists visited, ghost.
  - destruct (visitChildren links id level (rest, visited)) as [queue' visited'] eqn:Hvisit.
    rewrite set_stored. intros Hbfs Hs. apply (IH _ _ _ Hbfs). by eapply searching_step.
Qed.

(** What the finished search says about its levels. *)
Lemma searching_done visited result :
  searching [] visited result →
  (∀ s, s ∈ start → result !! s = Some 0)
  ∧ (∀ t a, result !! t = Some a → reaches links start a t)
  ∧ (∀ k t, reaches links start k t → ∃ a, result !! t = Some a ∧ a ≤ k).
Proof.
  intros [_ _ Hvk Hsv _ Hsl _ Hlr Hcv _ Hll _].
  assert (Hleveled : ∀ t, t ∈ visited → is_Some (result !! t)).
  { intros t Ht. destruct (Hvk t Ht) as [?|Hq]; [done|]. by apply elem_of_nil in Hq. }
  assert (Hstart : ∀ s, s ∈ start → result !! s = Some 0).
  { intros s Hs. destruct (Hleveled s (Hsv s Hs)) as [a Ha].
    by rewrite Ha, (Hsl s a Hs Ha). }
  split_and!; [done|done|].
  intros k t Hreach. induction Hreach as [s Hs|k l Hl Hreach (a & Ha & Hle)].
  - exists 0. by rewrite Hstart.
  - destruct (Hleveled (StoryLink.target l)) as [b Hb]; [apply Hcv; [done|by eexists]|].
    exists b. split; [done|]. specialize (Hll l a b Hl Ha Hb). lia.
Qed.

End Search.

Section Levels.

Import GraphVisualizer.

Lemma initialVisited_elem (sn : list StoryNode.t) (t : string) :
  t ∈ initialVisited sn ↔ t ∈ StoryNode.id <$> sn.
Proof.
  unfold initialVisited.
  assert (Hgen : ∀ init : gset string,
            t ∈ foldl (λ visited n, {[StoryNode.id n]} ∪ visited) init sn
            ↔ t ∈ init ∨ t ∈ StoryNode.id <$> sn).
  { induction sn as [|n sn IH]; intros init; simpl.
    - rewrite elem_of_nil. tauto.
    - rewrite IH, elem_of_union, elem_of_singleton, elem_of_cons. tauto. }
  rewrite Hgen, elem_of_empty. tauto.
Qed.

Lemma initialQueue_elem (sn : list StoryNode.t) (e : string * nat) :
  e ∈ initialQueue sn ↔ e.2 = 0 ∧ e.1 ∈ StoryNode.id <$> sn.
Proof.
  unfold initialQueue. rewrite !list_elem_of_fmap. split.
  - intros (n & -> & Hn). split; [done|]. by exists n.
  - intros [Hzero (n & Hid & Hn)]. exists n. split; [|done].
    destruct e as [t a]. cbn [fst snd] in *. by subst.
Qed.

Lemma searching_initial (links : list StoryLink.t) (sn : list StoryNode.t) :
  searching links (StoryNode.id <$> sn) (initialQueue sn) (initialVisited sn) ∅.
Proof.
  split.
  - intros e He. apply initialQueue_elem in He as [_ He]. by apply initialVisited_elem.
  - intros t [a Ha]. by rewrite lookup_empty in Ha.
  - intros t Ht. right. apply initialVisited_elem in Ht.
    apply list_elem_of_fmap in Ht as (n & -> & Hn).
    apply (list_elem_of_fmap_2' fst (initialQueue sn) (StoryNode.id n, 0)); [|done].
    apply initialQueue_elem. split; [done|]. cbn [fst]. by apply list_elem_of_fmap_2.
  - intros s Hs. by apply initialVisited_elem.
  - intros s a _ He. by apply initialQueue_elem in He as [? _].
  - intros s a _ Ha. by rewrite lookup_empty in Ha.
  - intros t a He. apply initialQueue_elem in He as [Hzero He]. cbn [fst snd] in *.
    subst a. by apply reaches_start.
  - intros t a Ha. by rewrite lookup_empty in Ha.
  - intros l _ [a Ha]. by rewrite lookup_empty in Ha.
  - exists 0, (initialQueue sn), []. split_and!.
    + by rewrite app_nil_r.
    + intros e He. by apply initialQueue_elem in He as [? _].
    + intros e He. by apply elem_of_nil in He.
    + intros t a Ha. by rewrite lookup_empty in Ha.
  - intros l a b _ Ha. by rewrite lookup_empty in Ha.
  - intros l a b _ Ha. by rewrite lookup_empty in Ha.
Qed.


Lemma startNodes_spec (nodes : list StoryNode.t) (links : list StoryLink.t) :
  (∀ n, n ∈ startNodes nodes links → n ∈ nodes)
  ∧ (∀ n, n ∈ nodes →
          isZero (PlainObject.get (incomingCount nodes links) (StoryNode.id n)) = true →
          n ∈ startNodes nodes links)
  ∧ (nodes ≠ [] → startNodes nodes links ≠ []).
Proof.
  unfold startNodes.
  destruct (filter _ nodes) as [|s rest] eqn:Hfilter.
  - destruct nodes as [|first nodes]; split_and!; try done.
    + intros n Hn. apply list_elem_of_singleton in Hn as ->. left.
    + intros n Hn Hzero. exfalso.
      assert (Hin : n ∈ filter (λ n, isZero (PlainObject.get
                                               (incomingCount (first :: nodes) links)
                                               (StoryNode.id n)) = true) (first :: nodes))
        by by apply list_elem_of_filter.
      rewrite Hfilter in Hin. by apply elem_of_nil in Hin.
  - split_and!; [| |done].
    + intros n Hn. rewrite <- Hfilter in Hn. by apply list_elem_of_filter in Hn as [_ ?].
    + intros n Hn Hzero. rewrite <- Hfilter. by apply list_elem_of_filter.
Qed.

(** The outcome of the search, in terms of chains of links. *)
Lemma searchLevels_spec (nodes : list StoryNode.t) (links : list StoryLink.t) :
  ∃ searched,
    searchLevels nodes links = Some searched
    ∧ searched !! "__proto__" = None
    ∧ (∀ n, n ∈ startNodes nodes links → StoryNode.id n ≠ "__proto__" →
            searched !! StoryNode.id n = Some 0)
    ∧ (∀ t a, searched !! t = Some a →
         reaches links (StoryNode.id <$> startNodes nodes links) a t
         ∧ ∀ k, reaches links (StoryNode.id <$> startNodes nodes links) k t → a ≤ k)
    ∧ (∀ t k, reaches links (StoryNode.id <$> startNodes nodes links) k t →
         t ≠ "__proto__" → is_Some (searched !! t)).
Proof.
  destruct (searchLevels_terminates nodes links) as [searched Hsearched].
  exists searched. split; [done|].
  unfold searchLevels in Hsearched.
  change (∅ : gmap string nat) with (stored ∅) in Hsearched.
  destruct (searching_result _ _ _ _ _ _ _ Hsearched (searching_initial links _))
    as (visited & ghost & -> & Hdone).
  destruct (searching_done _ _ _ _ Hdone) as (Hstart & Hpath & Hshort).
  split_and!.
  - rewrite lookup_stored. by rewrite decide_True.
  - intros n Hn Hid. rewrite lookup_stored, decide_False by done.
    apply Hstart. by apply list_elem_of_fmap_2.
  - intros t a Ha. rewrite lookup_stored in Ha. case_decide; [done|].
    split; [by apply Hpath|].
    intros k Hk. destruct (Hshort k t Hk) as (a' & Ha' & Hle). congruence.
  - intros t k Hk Ht. rewrite lookup_stored, decide_False by done.
    destruct (Hshort k t Hk) as (a & Ha & _). by eexists.
Qed.

(** X16. For every graph the leveling ends. It gives a level to every
    node whose id is not the name of a member that all objects inherit;
    every node without an incoming link has level 0, unless its id is
    ["__proto__"], under which no level is ever stored; and a story with
    nodes, none of them with that id, always has a node at level 0. *)
Theorem every_graph_is_leveled (nodes : list StoryNode.t) (links : list StoryLink.t) :
  ∃ final,
    nodeLevels nodes links = Some final
    ∧ (∀ n, n ∈ nodes → StoryNode.id n ∉ PlainObject.inherited →
            is_Some (final !! StoryNode.id n))
    ∧ (∀ n, n ∈ nodes → StoryNode.id n ≠ "__proto__" →
            (∀ l, l ∈ links → StoryLink.target l ≠ StoryNode.id n) →
            final !! StoryNode.id n = Some 0)
    ∧ (nodes ≠ [] → (∀ n, n ∈ nodes → StoryNode.id n ≠ "__proto__") →
         ∃ n, n ∈ nodes ∧ final !! StoryNode.id n = Some 0)
    ∧ final !! "__proto__" = None.
Proof.
  destruct (searchLevels_spec nodes links) as (searched & Hsearched & Hproto & Hstart & _).
  exists (defaultLevels nodes searched).
  destruct (startNodes_spec nodes links) as (Hsub & Hzero & Hnonempty).
  assert (Hstart' : ∀ n, n ∈ startNodes nodes links → StoryNode.id n ≠ "__proto__" →
                      defaultLevels nodes searched !! StoryNode.id n = Some 0).
  { intros n Hn Hid. by apply defaultLevels_keeps, Hstart. }
  split_and!.
  - unfold nodeLevels. by rewrite Hsearched.
  - intros n Hn Hid. by apply defaultLevels_total.
  - intros n Hn Hid Hnone. apply Hstart'; [|done]. apply Hzero; [done|].
    by apply isZero_incoming.
  - intros Hnodes Hids. destruct (startNodes nodes links) as [|s rest] eqn:Hs;
      [by destruct Hnonempty|].
    exists s. assert (Hin : s ∈ nodes) by (apply Hsub; left).
    split; [done|]. apply Hstart'; [left|by apply Hids].
  - apply defaultLevels_skips; [apply proto_is_inherited|done].
Qed.

(** X17. The level the search gives an id is its breadth-first distance
    from the start set: an id other than ["__proto__"] has a search level
    exactly when some start id reaches it along links, a chain of that many
    links leads to it, and no shorter chain does. What is then read as the
    level of a node is its search level when it has one; otherwise it is 0,
    unless the id is an inherited name: then it is the inherited member. *)
Theorem levels_are_shortest_distances (nodes : list StoryNode.t) (links : list StoryLink.t) :
  ∃ searched,
    searchLevels nodes links = Some searched
    ∧ (∀ t a, searched !! t = Some a →
         reaches links (StoryNode.id <$> startNodes nodes links) a t
         ∧ ∀ k, reaches links (StoryNode.id <$> startNodes nodes links) k t → a ≤ k)
    ∧ (∀ t k, reaches links (StoryNode.id <$> startNodes nodes links) k t →
         t ≠ "__proto__" → is_Some (searched !! t))
    ∧ searched !! "__proto__" = None
    ∧ (∀ n, n ∈ nodes →
         PlainObject.get (levelsOf nodes links) (StoryNode.id n)
         = match searched !! StoryNode.id n with
           | Some a => PlainObject.Own a
           | None => if bool_decide (StoryNode.id n ∈ PlainObject.inherited)
                     then PlainObject.Inherited (StoryNode.id n)
                     else PlainObject.Own 0
           end).
Proof.
  destruct (searchLevels_spec nodes links)
    as (searched & Hsearched & Hproto & _ & Hpath & Hreached).
  exists searched. split_and!; try done.
  intros n Hn. unfold levelsOf, nodeLevels. rewrite Hsearched. cbn.
  destruct (searched !! StoryNode.id n) as [a|] eqn:Ha.
  - apply get_own. by apply defaultLevels_keeps.
  - case_bool_decide as Hid.
    + apply get_inherited; [done|]. by apply defaultLevels_skips.
    + apply get_own. by apply defaultLevels_fills.
Qed.

(** X28. In a non-empty graph where no node has an incoming count of 0,
    the first node alone is the start set and the leveling loop ends.
    After it the first node has level 0, unless its id is ["__proto__"];
    and every node whose id is not the name of a member that all objects
    inherit has a level, which is 0 when the search did not reach the
    node. *)
Theorem cyclic_graph_is_leveled (nodes : list StoryNode.t) (links : list StoryLink.t) :
  nodes ≠ [] →
  (∀ n, n ∈ nodes →
        isZero (PlainObject.get (incomingCount nodes links) (StoryNode.id n)) = false) →
  ∃ first searched final,
    head nodes = Some first
    ∧ startNodes nodes links = [first]
    ∧ searchLevels nodes links = Some searched
    ∧ nodeLevels nodes links = Some final
    ∧ (StoryNode.id first ≠ "__proto__" → final !! StoryNode.id first = Some 0)
    ∧ (∀ n, n ∈ nodes → StoryNode.id n ∉ PlainObject.inherited →
            is_Some (final !! StoryNode.id n))
    ∧ (∀ n, n ∈ nodes → StoryNode.id n ∉ PlainObject.inherited →
            searched !! StoryNode.id n = None → final !! StoryNode.id n = Some 0).
Proof.
  intros Hnonempty Hcyclic.
  destruct nodes as [|first rest] eqn:Hnodes; [done|]. rewrite <- Hnodes in *.
  assert (Hstart : startNodes nodes links = [first]).
  { unfold startNodes. rewrite filter_drops_all; [by rewrite Hnodes|].
    intros n Hn. rewrite (Hcyclic n Hn). discriminate. }
  destruct (searchLevels_spec nodes links) as (searched & Hsearched & _ & Hzero & _).
  exists first, searched, (defaultLevels nodes searched).
  split_and!.
  - by rewrite Hnodes.
  - done.
  - done.
  - unfold nodeLevels. by rewrite Hsearched.
  - intros Hid. apply defaultLevels_keeps, Hzero; [|done]. rewrite Hstart. left.
  - intros n Hn Hid. by apply defaultLevels_total.
  - intros n Hn Hid Hnone. by apply defaultLevels_fills.
Qed.

Lemma cyclic_graph_is_leveled_witness :
  ∃ first searched final,
    head [StoryNode.mk "a" "A" ""; StoryNode.mk "b" "B" ""] = Some first
    ∧ startNodes [StoryNode.mk "a" "A" ""; StoryNode.mk "b" "B" ""]
                 [StoryLink.mk "l1" "a" "b" "go"; StoryLink.mk "l2" "b" "a" "back"] = [first]
    ∧ searchLevels [StoryNode.mk "a" "A" ""; StoryNode.mk "b" "B" ""]
                   [StoryLink.mk "l1" "a" "b" "go"; StoryLink.mk "l2" "b" "a" "back"]
      = Some searched
    ∧ nodeLevels [StoryNode.mk "a" "A" ""; StoryNode.mk "b" "B" ""]
                 [StoryLink.mk "l1" "a" "b" "go"; StoryLink.mk "l2" "b" "a" "back"]
      = Some final
    ∧ (StoryNode.id first ≠ "__proto__" → final !! StoryNode.id first = Some 0)
    ∧ (∀ n, n ∈ [StoryNode.mk "a" "A" ""; StoryNode.mk "b" "B" ""] →
            StoryNode.id n ∉ PlainObject.inherited → is_Some (final !! StoryNode.id n))
    ∧ (∀ n, n ∈ [StoryNode.mk "a" "A" ""; StoryNode.mk "b" "B" ""] →
            StoryNode.id n ∉ PlainObject.inherited →
            searched !! StoryNode.id n = None → final !! StoryNode.id n = Some 0).
Proof.
  apply (cyclic_graph_is_leveled
           [StoryNode.mk "a" "A" ""; StoryNode.mk "b" "B" ""]
           [StoryLink.mk "l1" "a" "b" "go"; StoryLink.mk "l2" "b" "a" "back"]).
  - discriminate.
  - intros n Hn. apply list_elem_of_In in Hn. simpl in Hn.
    destruct Hn as [<-|[<-|[]]]; vm_compute; reflexivity.
Defined.

End Levels.

(* ================================================================== *)
(** * Further properties of the mounted component *)

Section Positions.

Import GraphVisualizer.
Local Open Scope Q_scope.

(** The cache entry a node is written as. *)
Definition positionOf (d : D3Node.t) : Position :=
  mkPosition (D3Node.x d) (D3Node.y d) (D3Node.fx d) (D3Node.fy d).

Lemma cacheWrites_other (l : list D3Node.t) (cache : gmap string Position) (k : string) :
  k ∉ D3Node.id <$> l →
  foldl (λ cache d, cacheWrite d cache) cache l !! k = cache !! k.
Proof.
  revert cache. induction l as [|d l IH]; intros cache Hk; simpl; [done|].
  rewrite fmap_cons in Hk. apply not_elem_of_cons in Hk as [Hne Hk].
  rewrite IH by done. unfold cacheWrite. by rewrite lookup_insert_ne.
Qed.

Lemma cacheWrites_lookup (l : list D3Node.t) (cache : gmap string Position) (d : D3Node.t) :
  NoDup (D3Node.id <$> l) → d ∈ l →
  foldl (λ cache d, cacheWrite d cache) cache l !! D3Node.id d = Some (positionOf d).
Proof.
  revert cache. induction l as [|d0 l IH]; intros cache Hnodup Hd.
  - by apply elem_of_nil in Hd.
  - rewrite fmap_cons in Hnodup. apply NoDup_cons in Hnodup as [Hfresh Hnodup]. simpl.
    apply elem_of_cons in Hd as [->|Hd].
    + rewrite cacheWrites_other by done. unfold cacheWrite. apply lookup_insert_eq.
    + by apply IH.
Qed.

Lemma cacheWrites_dom (l : list D3Node.t) (cache : gmap string Position) (k : string) :
  is_Some (cache !! k) → is_Some (foldl (λ cache d, cacheWrite d cache) cache l !! k).
Proof.
  revert cache. induction l as [|d l IH]; intros cache Hk; simpl; [done|].
  apply IH. unfold cacheWrite. destruct (decide (D3Node.id d = k)) as [->|Hne].
  - rewrite lookup_insert_eq. by eexists.
  - by rewrite lookup_insert_ne.
Qed.

(** A render of a story with nodes, all links of which join nodes. *)
Lemma render_simulation (p : Props) (height : Q) (random : nat → Q) (st : State) :
  nodes p ≠ [] → resolved p →
  simulation (render p height random st)
  = forceSimulation (d3Nodes (nodePositionsRef st) (isFixed st) height random
                             (nodes p) (links p))
  ∧ nodePositionsRef (render p height random st) = nodePositionsRef st
  ∧ isFixed (render p height random st) = isFixed st
  ∧ running (render p height random st) = true
  ∧ crashed (render p height random st) = crashed st.
Proof.
  intros Hp Hr. unfold render, rerun. cbn [hasCleanup].
  destruct (hasCleanup st); rewrite effect_draws by done; done.
Qed.

Lemma advance_id (forces : D3Node.t → Coordinate * Coordinate) (l : list D3Node.t) :
  D3Node.id <$> (map (advance forces) l) = D3Node.id <$> l.
Proof.
  induction l as [|d l IH]; [done|].
  change (D3Node.id (advance forces d) :: (D3Node.id <$> map (advance forces) l)
          = D3Node.id d :: (D3Node.id <$> l)).
  by rewrite IH.
Qed.

(** The node a simulation starts with for a story node that is cached at
    a position whose coordinates are numbers. *)
Lemma forceSimulation_cached
    (cache : gmap string Position) (isFixed : bool) (height : Q) (random : nat → Q)
    (ns : list StoryNode.t) (ls : list StoryLink.t) (i : nat) (n : StoryNode.t) (c : Position) :
  ns !! i = Some n → cache !! StoryNode.id n = Some c →
  isNaN (pos_x c) = false → isNaN (pos_y c) = false →
  ∃ d, forceSimulation (d3Nodes cache isFixed height random ns ls) !! i = Some d
       ∧ D3Node.story d = n
       ∧ D3Node.x d = pos_x c ∧ D3Node.y d = pos_y c
       ∧ D3Node.fx d = (if isFixed then Some (pos_x c) else None)
       ∧ D3Node.fy d = (if isFixed then Some (pos_y c) else None).
Proof.
  intros Hi Hc Hx Hy. unfold forceSimulation, d3Nodes.
  rewrite list_lookup_imap, list_lookup_imap, Hi. cbn [fmap option_fmap option_map].
  eexists. split; [reflexivity|].
  unfold initializeNode, d3Node. rewrite Hc.
  cbn [D3Node.x D3Node.y D3Node.fx D3Node.fy D3Node.story D3Node.level D3Node.isStart
       D3Node.isEnd].
  destruct isFixed; simpl; rewrite Hx, Hy; done.
Qed.

(** X18. After a simulation step the cache holds, for every node of the
    simulation, exactly the position and pins it has then (ids being
    distinct); and a re-layout that follows, of a story all links of which
    join nodes, starts each node that is still in the story at that
    position when its coordinates are numbers, so nothing jumps. *)
Theorem relayout_after_tick_keeps_positions
    (forces : D3Node.t → Coordinate * Coordinate) (p : Props) (height : Q)
    (random : nat → Q) (st : State) (d : D3Node.t) (i : nat) (n : StoryNode.t) :
  running st = true →
  NoDup (D3Node.id <$> simulation st) →
  d ∈ simulation (tick forces st) →
  nodes p !! i = Some n →
  StoryNode.id n = D3Node.id d →
  resolved p →
  nodePositionsRef (tick forces st) !! D3Node.id d = Some (positionOf d)
  ∧ (isNaN (D3Node.x d) = false → isNaN (D3Node.y d) = false →
       ∃ d', simulation (render p height random (tick forces st)) !! i = Some d'
             ∧ D3Node.story d' = n
             ∧ D3Node.x d' = D3Node.x d ∧ D3Node.y d' = D3Node.y d).
Proof.
  intros Hrun Hnodup Hd Hi Hid Hr.
  assert (Hcache : nodePositionsRef (tick forces st) !! D3Node.id d = Some (positionOf d)).
  { unfold tick in *. rewrite Hrun in *. cbn [nodePositionsRef simulation] in *.
    apply cacheWrites_lookup; [by rewrite advance_id|done]. }
  split; [done|]. intros Hx Hy.
  destruct (render_simulation p height random (tick forces st)) as (-> & _); [|done|].
  { intros Hnil. by rewrite Hnil in Hi. }
  rewrite <- Hid in Hcache.
  destruct (forceSimulation_cached (nodePositionsRef (tick forces st))
              (isFixed (tick forces st)) height random (nodes p) (links p) i n
              (positionOf d) Hi Hcache Hx Hy)
    as (d' & Hd' & Hstory & Hx' & Hy' & _).
  by exists d'.
Qed.

Lemma relayout_after_tick_keeps_positions_witness :
  ∃ d', simulation
          (render (mkProps [StoryNode.mk "1" "A" ""; StoryNode.mk "9" "New" ""] [] None)
                  600 (λ _, 1 # 4)
                  (tick (λ _, (Real 40, Real 70))
                        (firstRender (mkProps [StoryNode.mk "1" "A" ""] [] None) 600 (λ _, 1 # 2))))
          !! 0%nat = Some d'
        ∧ D3Node.x d' = Real 40 ∧ D3Node.y d' = Real 70.
Proof.
  destruct (relayout_after_tick_keeps_positions
              (λ _, (Real 40, Real 70))
              (mkProps [StoryNode.mk "1" "A" ""; StoryNode.mk "9" "New" ""] [] None)
              600 (λ _, 1 # 4)
              (firstRender (mkProps [StoryNode.mk "1" "A" ""] [] None) 600 (λ _, 1 # 2))
              (D3Node.mk (StoryNode.mk "1" "A" "") (PlainObject.Own 0%nat) true true
                         (Real 40) (Real 70) None None)
              0 (StoryNode.mk "1" "A" ""))
    as (_ & Hrelayout).
  - reflexivity.
  - apply (bool_decide_unpack _). vm_compute. exact I.
  - vm_compute. left.
  - reflexivity.
  - reflexivity.
  - reflexivity.
  - destruct Hrelayout as (d' & Hd' & _ & Hx & Hy); [reflexivity|reflexivity|].
    exists d'. split; [exact Hd'|]. split; [exact Hx|exact Hy].
Defined.



(** The drag handlers of a scene keep the mode the scene was drawn in: the
    three nodes of the initial story are deleted, so that their drawing
    stays, fixed mode is switched on, and the drawing of the last node is
    dragged. The node is cached without pins, although fixed mode is on. *)
Example stale_scene_drags_in_its_own_mode :
  let page :=
    App.update (App.handleDeleteNode "3") 600 (λ _, 1 # 2)
      (App.update (App.handleDeleteNode "2") 600 (λ _, 1 # 2)
         (App.update (App.handleDeleteNode "1") 600 (λ _, 1 # 2)
            (App.load 600 (λ _, 1 # 2)))) in
  let st := run (snd page)
                [ToggleFixedMode 600 (λ _, 1 # 2); DragStart 0; Drag 0 250 90;
                 Tick (λ _, (Real 0, Real 0)); DragEnd 0] in
  isFixed st = true
  ∧ nodePositionsRef st !! "3" = Some (mkPosition 250 90 None None).
Proof. vm_compute. done. Qed.

End Positions.

Section Lifecycle.

Import GraphVisualizer.
Local Open Scope Q_scope.

Lemma cacheWrite_keeps (d : D3Node.t) (cache : gmap string Position) (k : string) :
  is_Some (cache !! k) → is_Some (cacheWrite d cache !! k).
Proof.
  intros Hk. unfold cacheWrite. destruct (decide (D3Node.id d = k)) as [->|Hne].
  - rewrite lookup_insert_eq. by eexists.
  - by rewrite lookup_insert_ne.
Qed.

Lemma step_keeps_entry (st : State) (e : Event) (k : string) :
  is_Some (nodePositionsRef st !! k) → is_Some (nodePositionsRef (step st e) !! k).
Proof.
  intros Hk. unfold step. destruct (crashed st); [done|].
  destruct e; handlers; try done.
  - by apply cacheWrites_dom.
  - by apply cacheWrites_dom.
  - by apply cacheWrite_keeps.
Qed.

(** X20. The position cache never forgets: an id that has an entry keeps
    one through every event, also through re-layouts of a story that no
    longer has a node with that id. *)
Theorem cache_never_forgets (events : list Event) (st : State) (k : string) :
  is_Some (nodePositionsRef st !! k) →
  is_Some (nodePositionsRef (run st events) !! k).
Proof.
  revert st. induction events as [|e events IH]; intros st Hk; [done|].
  simpl. by apply IH, step_keeps_entry.
Qed.

Lemma cache_never_forgets_witness :
  is_Some (nodePositionsRef
             (run (firstRender (mkProps [StoryNode.mk "1" "A" ""] [] None) 600 (λ _, 1 # 2))
                  [Tick (λ _, (Real 40, Real 70));
                   Render (mkProps [StoryNode.mk "2" "B" ""] [] None) 600 (λ _, 1 # 2)])
           !! "1").
Proof.
  apply (cache_never_forgets
           [Render (mkProps [StoryNode.mk "2" "B" ""] [] None) 600 (λ _, 1 # 2)]
           (run (firstRender (mkProps [StoryNode.mk "1" "A" ""] [] None) 600 (λ _, 1 # 2))
                [Tick (λ _, (Real 40, Real 70))]) "1").
  vm_compute. eexists. reflexivity.
Defined.

(** X21. A re-render stops what the previous run of the effect started,
    when that run drew a scene and so returned its cleanup: if the story
    has no node left, the simulation no longer ticks and the pending
    auto-centre timeout is cancelled, while the drawing stays in the SVG.
    When the previous run returned no cleanup, a simulation that a drag on
    the remaining drawing has restarted keeps running through the
    re-render. And a timeout that has fired does nothing when it is
    delivered again. *)
Theorem render_tears_down (p : Props) (height : Q) (random : nat → Q) (st : State)
    (forces : D3Node.t → Coordinate * Coordinate) (bounds : BBox)
    (clientWidth clientHeight : Q) :
  (nodes p = [] → hasCleanup st = true →
     tick forces (render p height random st) = render p height random st
     ∧ timeout bounds clientWidth clientHeight (render p height random st)
       = render p height random st
     ∧ svg (render p height random st) = svg st
     ∧ zoomState (render p height random st) = zoomState st)
  ∧ (nodes p = [] → hasCleanup st = false →
       running (render p height random st) = running st
       ∧ simulation (render p height random st) = simulation st)
  ∧ timeout bounds clientWidth clientHeight (timeout bounds clientWidth clientHeight st)
    = timeout bounds clientWidth clientHeight st.
Proof.
  split_and!.
  - intros Hp Hcleanup. unfold render, rerun, effect, cleanup; cbn [props hasCleanup].
    rewrite Hcleanup. cbn [props]. rewrite Hp.
    unfold tick, timeout; cbn [running timer svg zoomState]. done.
  - intros Hp Hcleanup. unfold render, rerun, effect; cbn [props hasCleanup].
    rewrite Hcleanup. cbn [props]. by rewrite Hp.
  - unfold timeout. destruct (timer st) eqn:Htimer; [|by rewrite Htimer].
    cbn [nodePositionsRef]. destruct (0 <? size (nodePositionsRef st))%nat; reflexivity.
Qed.

Lemma render_tears_down_witness :
  tick (λ _, (Real 40, Real 70))
       (render (mkProps [] [] None) 600 (λ _, 1 # 2)
               (firstRender (mkProps [StoryNode.mk "1" "A" ""] [] None) 600 (λ _, 1 # 2)))
  = render (mkProps [] [] None) 600 (λ _, 1 # 2)
           (firstRender (mkProps [StoryNode.mk "1" "A" ""] [] None) 600 (λ _, 1 # 2)).
Proof.
  refine (proj1 (proj1 (render_tears_down (mkProps [] [] None) 600 (λ _, 1 # 2)
                          (firstRender (mkProps [StoryNode.mk "1" "A" ""] [] None) 600
                                       (λ _, 1 # 2))
                          (λ _, (Real 40, Real 70)) (mkBBox 0 0 100 100) 800 600) _ _));
    reflexivity.
Defined.

(** Why the previous run must have returned its cleanup: a story is
    emptied, a node of the drawing that remains is grabbed, and the story is
    rendered again, still empty. The simulation the grab restarted runs on
    and its next tick writes into the cache. *)
Example restarted_simulation_survives_render :
  let empty := mkProps [] [] None in
  let st := run (firstRender (mkProps [StoryNode.mk "1" "A" ""] [] None) 600 (λ _, 1 # 2))
                [Render empty 600 (λ _, 1 # 2); DragStart 0] in
  hasCleanup st = false
  ∧ running (render empty 600 (λ _, 1 # 2) st) = true
  ∧ nodePositionsRef (render empty 600 (λ _, 1 # 2) st) !! "1" = None
  ∧ is_Some (nodePositionsRef
               (tick (λ _, (Real 40, Real 70)) (render empty 600 (λ _, 1 # 2) st)) !! "1").
Proof.
  cbv zeta. split_and!.
  - reflexivity.
  - reflexivity.
  - vm_compute. reflexivity.
  - vm_compute. eexists. reflexivity.
Qed.

(** X22. Once the cache holds a position the auto-fit is over for good:
    whatever events follow, gestures and buttons included, no timeout gets
    past its guard again. *)
Theorem auto_fit_never_runs_once_cached (events : list Event) (st : State) :
  nodePositionsRef st ≠ ∅ →
  autoFits (run st events) = autoFits st.
Proof.
  revert st. induction events as [|e events IH]; intros st Hc; [done|].
  simpl. rewrite IH by by apply step_keeps_cached. by apply step_cached_keeps_fits.
Qed.

Lemma auto_fit_never_runs_once_cached_witness :
  autoFits (run (run (firstRender (mkProps [StoryNode.mk "1" "A" ""] [] None) 600 (λ _, 1 # 2))
                     [Tick (λ _, (Real 40, Real 70))])
                [Render (mkProps [StoryNode.mk "1" "A" ""; StoryNode.mk "2" "B" ""] [] None)
                        600 (λ _, 1 # 2);
                 Timeout (mkBBox 0 0 100 100) 800 600; Center;
                 Timeout (mkBBox 0 0 100 100) 800 600])
  = 0%nat.
Proof.
  apply (auto_fit_never_runs_once_cached
           [Render (mkProps [StoryNode.mk "1" "A" ""; StoryNode.mk "2" "B" ""] [] None)
                   600 (λ _, 1 # 2);
            Timeout (mkBBox 0 0 100 100) 800 600; Center;
            Timeout (mkBBox 0 0 100 100) 800 600]
           (run (firstRender (mkProps [StoryNode.mk "1" "A" ""] [] None) 600 (λ _, 1 # 2))
                [Tick (λ _, (Real 40, Real 70))])).
  intros Hempty. apply (f_equal (λ m : gmap string Position, m !! "1")) in Hempty.
  vm_compute in Hempty. discriminate Hempty.
Defined.

(** X23. When the timeout of the first render of a story with nodes, all
    links of which join nodes, does run, it stores a view in which the
    measured content box takes at most 90% of the view's width and height,
    exactly 90% of one of them, with its centre on the view's centre; the
    same transform is written on the content group. *)
Theorem first_timeout_fits_content (p : Props) (height : Q) (random : nat → Q)
    (bounds : BBox) (clientWidth clientHeight : Q) :
  nodes p ≠ [] → forceLinkFinds (nodes p) (links p) = true →
  0 < bbox_width bounds → 0 < bbox_height bounds →
  0 < clientWidth → 0 < clientHeight →
  ∃ t,
    zoomState (timeout bounds clientWidth clientHeight (firstRender p height random)) = Some t
    ∧ svg (timeout bounds clientWidth clientHeight (firstRender p height random))
      = [Defs; Group (Some t)]
    ∧ tk t * bbox_width bounds <= (9 # 10) * clientWidth
    ∧ tk t * bbox_height bounds <= (9 # 10) * clientHeight
    ∧ (tk t * bbox_width bounds == (9 # 10) * clientWidth
       ∨ tk t * bbox_height bounds == (9 # 10) * clientHeight)
    ∧ tk t * (bbox_x bounds + bbox_width bounds / 2) + tx t == clientWidth / 2
    ∧ tk t * (bbox_y bounds + bbox_height bounds / 2) + ty t == clientHeight / 2.
Proof.
  intros Hp Hr Hw Hh Hcw Hch.
  destruct (firstRender_state p height random Hp Hr)
    as (Hcache & _ & _ & Htimer & _ & Hsvg & _).
  destruct (timeout_fits_when_cache_empty bounds clientWidth clientHeight
              (firstRender p height random) Htimer Hcache) as (Hz & Hs & _).
  exists (autoCenter bounds clientWidth clientHeight).
  split; [done|]. split; [by rewrite Hs, Hsvg|].
  by apply autoCenter_fits.
Qed.

Lemma first_timeout_fits_content_witness :
  ∃ t,
    zoomState (timeout (mkBBox 76 226 248 148) 800 600
                 (firstRender (mkProps [StoryNode.mk "1" "A" ""] [] None) 600 (λ _, 1 # 2)))
    = Some t
    ∧ tk t * 248 <= (9 # 10) * 800.
Proof.
  destruct (first_timeout_fits_content (mkProps [StoryNode.mk "1" "A" ""] [] None)
              600 (λ _, 1 # 2) (mkBBox 76 226 248 148) 800 600)
    as (t & Ht & _ & Hwide & _); try reflexivity.
  - discriminate.
  - exists t. split; [exact Ht|exact Hwide].
Defined.

Lemma advance_pinned (forces : D3Node.t → Coordinate * Coordinate) (l : list D3Node.t) :
  (∀ d, d ∈ l → D3Node.fx d = Some (D3Node.x d) ∧ D3Node.fy d = Some (D3Node.y d)) →
  map (advance forces) l = l.
Proof.
  induction l as [|d l IH]; intros Hall; [done|]. simpl. rewrite IH.
  - f_equal. destruct (Hall d) as [Hx Hy]; [left|].
    destruct d. unfold advance. simpl in *. by rewrite Hx, Hy.
  - intros d' Hd'. apply Hall. by right.
Qed.

(** The position layout initialisation gives a node is made of numbers
    when what the cache holds is, and no node id is the name of a member
    that all objects inherit. *)
Lemma d3Node_numbers (cache : gmap string Position) (levels : gmap string nat)
    (incoming outgoing : gmap string Count) (isFixed : bool) (height random : Q)
    (n : StoryNode.t) :
  (∀ k c, cache !! k = Some c → isNaN (pos_x c) = false ∧ isNaN (pos_y c) = false) →
  StoryNode.id n ∉ PlainObject.inherited →
  isNaN (D3Node.x (d3Node cache levels incoming outgoing isFixed height random n)) = false
  ∧ isNaN (D3Node.y (d3Node cache levels incoming outgoing isFixed height random n)) = false.
Proof.
  intros Hcache Hid. unfold d3Node; cbn [D3Node.x D3Node.y].
  destruct (cache !! StoryNode.id n) as [c|] eqn:Hc.
  - by apply (Hcache (StoryNode.id n)).
  - rewrite get_ordinary by done. by destruct (levels !! StoryNode.id n).
Qed.

(** X24. In fixed mode a re-layout of a story all links of which join
    nodes pins every node where it starts, and the simulation then moves
    none of them, whatever the forces are; this for a story in which no id
    is the name of a member that all objects inherit and a cache that holds
    numbers only. *)
Theorem fixed_mode_moves_no_node (p : Props) (height : Q) (random : nat → Q) (st : State)
    (forces : D3Node.t → Coordinate * Coordinate) :
  isFixed st = true →
  nodes p ≠ [] → forceLinkFinds (nodes p) (links p) = true →
  (∀ n, n ∈ nodes p → StoryNode.id n ∉ PlainObject.inherited) →
  (∀ k c, nodePositionsRef st !! k = Some c →
          isNaN (pos_x c) = false ∧ isNaN (pos_y c) = false) →
  (∀ d, d ∈ simulation (render p height random st) →
        D3Node.fx d = Some (D3Node.x d) ∧ D3Node.fy d = Some (D3Node.y d))
  ∧ simulation (tick forces (render p height random st))
    = simulation (render p height random st).
Proof.
  intros Hfixed Hp Hr Hids Hcache.
  destruct (render_simulation p height random st Hp Hr) as (Hsim & _ & _ & Hrun & _).
  assert (Hpinned : ∀ d, d ∈ simulation (render p height random st) →
            D3Node.fx d = Some (D3Node.x d) ∧ D3Node.fy d = Some (D3Node.y d)).
  { intros d Hd. rewrite Hsim, Hfixed in Hd. unfold forceSimulation, d3Nodes in Hd.
    apply elem_of_lookup_imap in Hd as (i & d0 & -> & Hd0).
    rewrite list_lookup_imap in Hd0.
    destruct (nodes p !! i) as [n|] eqn:Hn; [|done]. injection Hd0 as <-.
    assert (Hin : n ∈ nodes p) by by eapply list_elem_of_lookup_2.
    destruct (d3Node_numbers (nodePositionsRef st) (levelsOf (nodes p) (links p))
                (incomingCount (nodes p) (links p)) (outgoingCount (nodes p) (links p))
                true height (random i) n Hcache (Hids n Hin)) as [Hx Hy].
    set (d := d3Node (nodePositionsRef st) (levelsOf (nodes p) (links p))
                (incomingCount (nodes p) (links p)) (outgoingCount (nodes p) (links p))
                true height (random i) n) in *.
    assert (Hfx : D3Node.fx d = Some (D3Node.x d)) by reflexivity.
    assert (Hfy : D3Node.fy d = Some (D3Node.y d)) by reflexivity.
    unfold initializeNode. rewrite Hfx, Hfy. cbn [default from_option id].
    rewrite Hx, Hy. cbn [orb D3Node.fx D3Node.fy D3Node.x D3Node.y]. done. }
  split; [done|].
  unfold tick. rewrite Hrun. cbn [simulation]. by apply advance_pinned.
Qed.

Lemma fixed_mode_moves_no_node_witness :
  simulation
    (tick (λ _, (Real 0, Real 0))
          (render (mkProps [StoryNode.mk "1" "A" ""] [] None) 600 (λ _, 1 # 2)
                  (toggleFixedMode 600 (λ _, 1 # 2) (mount (mkProps [] [] None)))))
  = simulation
      (render (mkProps [StoryNode.mk "1" "A" ""] [] None) 600 (λ _, 1 # 2)
              (toggleFixedMode 600 (λ _, 1 # 2) (mount (mkProps [] [] None)))).
Proof.
  apply (fixed_mode_moves_no_node (mkProps [StoryNode.mk "1" "A" ""] [] None) 600 (λ _, 1 # 2)
           (toggleFixedMode 600 (λ _, 1 # 2) (mount (mkProps [] [] None))) (λ _, (Real 0, Real 0))).
  - reflexivity.
  - discriminate.
  - reflexivity.
  - intros n Hn. apply list_elem_of_In in Hn. simpl in Hn. destruct Hn as [<-|[]].
    apply (bool_decide_unpack _). vm_compute. exact I.
  - intros k c Hc. vm_compute in Hc. discriminate Hc.
Defined.

End Lifecycle.

Section ViewportMore.

Import GraphVisualizer.
Local Open Scope Q_scope.







(** X26. Zoom-in followed by zoom-out does not return to the scale one
    started from: the two factors multiply to 0.96, so each such pair of
    clicks shrinks the view by 4%. *)
Theorem zoom_in_then_out_shrinks (width height : Q) (st : State) :
  0 < tk (currentTransform st) →
  tk (currentTransform (handleZoomOut width height (handleZoomIn width height st)))
    == (96 # 100) * tk (currentTransform st)
  ∧ tk (currentTransform (handleZoomOut width height (handleZoomIn width height st)))
    < tk (currentTransform st).
Proof.
  intros Hk.
  assert (Hin : tk (currentTransform (handleZoomIn width height st))
                == tk (currentTransform st) * (12 # 10))
    by (apply handleZoomIn_multiplies; lra).
  assert (Hout : tk (currentTransform (handleZoomOut width height (handleZoomIn width height st)))
                 == tk (currentTransform (handleZoomIn width height st)) * (8 # 10))
    by (apply handleZoomOut_multiplies; lra).
  rewrite Hout, Hin. split; [ring|lra].
Qed.

Lemma zoom_in_then_out_shrinks_witness :
  tk (currentTransform
        (handleZoomOut 800 600
           (handleZoomIn 800 600
              (firstRender (mkProps [StoryNode.mk "1" "A" ""] [] None) 600 (λ _, 1 # 2)))))
  == (96 # 100) * 1.
Proof.
  apply (zoom_in_then_out_shrinks 800 600
           (firstRender (mkProps [StoryNode.mk "1" "A" ""] [] None) 600 (λ _, 1 # 2))).
  reflexivity.
Defined.

End ViewportMore.
